(** * HAM and Bacon: the actor/movie graph and its breadth-first searches

    A shallow embedding of [graph_entities.py] (classes [_Vertex] and [Graph])
    and of the graph builders of [graph_create.py], with the properties the
    design document states about them.

    Modelling choices.
    - Items (actor names, movie titles) are strings.
    - [Graph._vertices] is a [gmap] from item to vertex record.
    - A vertex's [neighbours] is a Python set of vertex objects.  Every vertex
      object of a graph is stored under its own item, is created once by
      [add_vertex] and is never replaced, so a reference to it is modelled by
      its item.  The searches iterate over that set, and which of several
      shortest paths they return depends on the iteration order, which Python
      leaves unspecified.  The neighbour set is therefore kept as the list of
      its elements in iteration order; the theorems quantify over every such
      list.
    - [appearances] is only intersected, filtered and tested for emptiness:
      it is a [gset].
    - Similarity scores and thresholds are numbers that are only stored and
      compared: they are rationals.
    - A field of a movie record (year, votes, rating) is any Python value:
      an integer or a float in the docstrings, a string read from the data
      file.  The code hands it to [float(...)] and compares the result, a
      double (the rational it stands for, an infinity or nan), with the
      thresholds.
    - Python exceptions are the [Raise] results of a small error monad.  The
      [while] loops take fuel; [OutOfFuel] is a result of its own and is shown
      never to happen. *)

From Stdlib Require Import QArith.
From stdpp Require Import gmap strings list fin_maps.

Open Scope string_scope.
Open Scope list_scope.
Open Scope nat_scope.
Open Scope stdpp_scope.

(** ** Results of fallible operations *)

Inductive exn := ValueError | KeyError | TypeError | OverflowError.

Inductive res (A : Type) :=
  | Ret (a : A)
  | Raise (e : exn)
  | OutOfFuel.
Arguments Ret {A} a.
Arguments Raise {A} e.
Arguments OutOfFuel {A}.

#[global] Instance res_ret : MRet res := λ A a, Ret a.
#[global] Instance res_bind : MBind res := λ A B k m,
  match m with
  | Ret a => k a
  | Raise e => Raise e
  | OutOfFuel => OutOfFuel
  end.

(** [d[k]] on a Python dict: a missing key raises [KeyError]. *)
Definition getitem {V} (d : gmap string V) (k : string) : res V :=
  match d !! k with
  | Some v => Ret v
  | None => Raise KeyError
  end.

(** ** Vertices and graphs *)

Record _Vertex := mkVertex {
  item : string;
  kind : string;
  neighbours : list string;
  appearances : gset string;
  sim_score : Q;
  movie_info : Q * Q * Q
}.

(** [_Vertex.__init__] *)
Definition new_vertex (item kind : string) : _Vertex :=
  {| item := item; kind := kind; neighbours := []; appearances := ∅;
     sim_score := 0; movie_info := (0, 0, 0)%Q |}.

(** [s.add(x)] on a set kept in iteration order. *)
Definition set_add (x : string) (s : list string) : list string :=
  if decide (x ∈ s) then s else s ++ [x].

Definition add_neighbour (n : string) (v : _Vertex) : _Vertex :=
  {| item := item v; kind := kind v; neighbours := set_add n (neighbours v);
     appearances := appearances v; sim_score := sim_score v;
     movie_info := movie_info v |}.

Definition add_appearance (m : string) (v : _Vertex) : _Vertex :=
  {| item := item v; kind := kind v; neighbours := neighbours v;
     appearances := {[m]} ∪ appearances v; sim_score := sim_score v;
     movie_info := movie_info v |}.

Definition set_sim_score (s : Q) (v : _Vertex) : _Vertex :=
  {| item := item v; kind := kind v; neighbours := neighbours v;
     appearances := appearances v; sim_score := s;
     movie_info := movie_info v |}.

Abbreviation Graph := (gmap string _Vertex).

(** [Graph.__init__] *)
Definition empty_graph : Graph := ∅.

(** [Graph.add_vertex] *)
Definition add_vertex (g : Graph) (item kind : string) : Graph :=
  match g !! item with
  | None => <[item := new_vertex item kind]> g
  | Some _ => g
  end.

(** [Graph.add_edge]: [v1.neighbours.add(v2)] then [v2.neighbours.add(v1)];
    when [item1 = item2] both updates hit the same vertex object. *)
Definition add_edge (g : Graph) (item1 item2 : string) : res Graph :=
  match g !! item1, g !! item2 with
  | Some _, Some _ =>
      Ret (alter (add_neighbour item1) item2 (alter (add_neighbour item2) item1 g))
  | _, _ => Raise ValueError
  end.

(** [Graph.adjacent] *)
Definition adjacent (g : Graph) (item1 item2 : string) : bool :=
  match g !! item1, g !! item2 with
  | Some v1, Some _ => existsb (λ n, bool_decide (n = item2)) (neighbours v1)
  | _, _ => false
  end.

(** [Graph.get_neighbours] *)
Definition get_neighbours (g : Graph) (item : string) : res (gset string) :=
  match g !! item with
  | Some v => Ret (list_to_set (neighbours v))
  | None => Raise ValueError
  end.

(** [Graph.add_appearances] *)
Definition add_appearances (g : Graph) (actor movie : string) : res Graph :=
  match g !! actor with
  | Some _ => Ret (alter (add_appearance movie) actor g)
  | None => Raise ValueError
  end.

(** [Graph.add_sim_score] *)
Definition add_sim_score (g : Graph) (movie : string) (sim_scores : gmap string Q)
    : res Graph :=
  sim_score ← getitem sim_scores movie;
  match g !! movie with
  | Some _ => Ret (alter (set_sim_score sim_score) movie g)
  | None => Raise KeyError
  end.

(** [Graph.item_in_graph] *)
Definition item_in_graph (g : Graph) (item : string) : bool :=
  bool_decide (is_Some (g !! item)).

(** [Graph.get_common_movies] *)
Definition get_common_movies (g : Graph) (item1 item2 : string) : res (gset string) :=
  match g !! item1, g !! item2 with
  | Some v1, Some v2 => Ret (appearances v1 ∩ appearances v2)
  | _, _ => Raise ValueError
  end.

(** [Graph.get_appearances] *)
Definition get_appearances (g : Graph) (actor : string) : res (gset string) :=
  v ← getitem g actor; Ret (appearances v).

(** [Graph.get_all_vertices]: the items of the vertex objects of the given
    kind, or every key when [kind] is the empty string. *)
Definition get_all_vertices (g : Graph) (kind_ : string) : gset string :=
  if decide (kind_ ≠ "") then
    list_to_set ((λ kv, item kv.2) <$> filter (λ kv, kind kv.2 = kind_) (map_to_list g))
  else dom g.

(** [Graph.get_vertices] *)
Definition get_vertices (g : Graph) : Graph := g.

(** ** Breadth-first searches *)

(** The [for neighbour in ...neighbours] loop of [shortest_path_bfs]:
    [queue] and [visited] are updated in place while the set is walked. *)
Fixpoint visit_neighbours (path : list string) (ns : list string)
    (queue : list (string * list string)) (visited : gset string)
    : list (string * list string) * gset string :=
  match ns with
  | [] => (queue, visited)
  | n :: ns' =>
      if decide (n ∈ visited) then visit_neighbours path ns' queue visited
      else visit_neighbours path ns' (queue ++ [(n, path ++ [n])]) ({[n]} ∪ visited)
  end.

(** The [while queue] loop of [shortest_path_bfs]; one unit of fuel per
    [popleft]. *)
Fixpoint bfs_loop (fuel : nat) (g : Graph) (target_item : string)
    (queue : list (string * list string)) (visited : gset string)
    : res (list string) :=
  match queue with
  | [] => Ret []
  | (current_actor, path) :: queue' =>
      match fuel with
      | O => OutOfFuel
      | S fuel' =>
          if decide (current_actor = target_item) then Ret path
          else
            v ← getitem g current_actor;
            let '(queue'', visited') :=
              visit_neighbours path (neighbours v) queue' visited in
            bfs_loop fuel' g target_item queue'' visited'
      end
  end.

(** [Graph.shortest_path_bfs].  Every vertex is enqueued at most once, so
    [size g] dequeues are enough. *)
Definition shortest_path_bfs (g : Graph) (starting_item target_item : string)
    : res (list string) :=
  if decide (g !! starting_item = None ∨ g !! target_item = None) then Raise ValueError
  else bfs_loop (size g) g target_item [(starting_item, [starting_item])] {[starting_item]}.

(** *** Filtering by a movie attribute *)

(** A Python float: the rational a finite double stands for, an infinity or
    nan. *)
Inductive pyfloat := Real (q : Q) | PlusInf | MinusInf | NaN.

(** A field of a movie record: an integer, a float, a string (given by the
    float it spells, if it spells one), or a value of another type ([None],
    a list). *)
Inductive field_value :=
  | PyInt (z : Z)
  | PyFloat (x : pyfloat)
  | PyStr (spells : option pyfloat)
  | PyOther.

(** The double nearest to an integer, ties to the even mantissa of 53 bits;
    none when that is [2^1024] or beyond. *)
Definition int_to_double (z : Z) : option Q :=
  let a := Z.abs z in
  let n := (Z.log2 a + 1)%Z in
  if (n <=? 53)%Z then Some (inject_Z z)
  else
    let sh := (n - 53)%Z in
    let q := Z.shiftr a sh in
    let rem := Z.land a (Z.ones sh) in
    let half := Z.shiftl 1 (sh - 1) in
    let q' := if (half <? rem)%Z || ((rem =? half)%Z && Z.odd q) then (q + 1)%Z
              else q in
    let r := Z.shiftl q' sh in
    if (2 ^ 1024 <=? r)%Z then None else Some (inject_Z (Z.sgn z * r)).

(** [float(v)]: an integer is rounded to a double ([OverflowError] beyond
    their range), a string is parsed ([ValueError] when it spells no
    number), a value of another type raises [TypeError]. *)
Definition float (v : field_value) : res pyfloat :=
  match v with
  | PyInt z =>
      match int_to_double z with
      | Some q => Ret (Real q)
      | None => Raise OverflowError
      end
  | PyFloat x => Ret x
  | PyStr (Some x) => Ret x
  | PyStr None => Raise ValueError
  | PyOther => Raise TypeError
  end.

(** The external movie record: [(cast, (year, votes, rating))]. *)
Record movie_record := mkMovie {
  cast : list string;
  info : field_value * field_value * field_value
}.

Definition year (r : movie_record) : field_value := fst (fst (info r)).
Definition votes (r : movie_record) : field_value := snd (fst (info r)).
Definition rating (r : movie_record) : field_value := snd (info r).

(** The movies mapping is a Python dict that the builder iterates over: it is
    kept as the list of its [(key, value)] pairs in iteration order. *)
Abbreviation movies_dict := (list (string * movie_record)).

Fixpoint movies_lookup (movies : movies_dict) (movie : string) : option movie_record :=
  match movies with
  | [] => None
  | (k, r) :: rest => if decide (k = movie) then Some r else movies_lookup rest movie
  end.

(** [movies[movie]] *)
Definition movies_getitem (movies : movies_dict) (movie : string) : res movie_record :=
  match movies_lookup movies movie with
  | Some r => Ret r
  | None => Raise KeyError
  end.

(** [lower <= x] and [x <= upper] for a threshold, a finite number, and a
    float: Python compares the two exactly, and every comparison with nan is
    false. *)
Definition num_le_float (lower : Q) (x : pyfloat) : bool :=
  match x with
  | Real q => Qle_bool lower q
  | PlusInf => true
  | MinusInf => false
  | NaN => false
  end.

Definition float_le_num (x : pyfloat) (upper : Q) : bool :=
  match x with
  | Real q => Qle_bool q upper
  | PlusInf => false
  | MinusInf => true
  | NaN => false
  end.

(** [lower <= x <= upper] *)
Definition in_range (lower upper : Q) (x : pyfloat) : bool :=
  num_le_float lower x && float_le_num x upper.

(** The set comprehension
    [{movie for movie in common if lower <= float(movies[movie][1][i]) <= upper}]:
    the condition is evaluated for every element of [common] in turn;
    [movies[movie]] raises [KeyError] for a movie without a record, and
    [float] raises on a field it rejects. *)
Fixpoint filter_movies (field : movie_record → field_value) (lower upper : Q)
    (movies : movies_dict) (common : list string) : res (gset string) :=
  match common with
  | [] => Ret ∅
  | movie :: rest =>
      r ← movies_getitem movies movie;
      x ← float (field r);
      acc ← filter_movies field lower upper movies rest;
      Ret (if in_range lower upper x then {[movie]} ∪ acc else acc)
  end.

(** [Graph.filter_by_key].  The comprehension visits the common movies in
    the order in which the set yields them, here the order of [elements]. *)
Definition filter_by_key (g : Graph) (actors : string * string) (key : string)
    (thresholds : Q * Q) (movies : movies_dict)
    : res (bool * gset string) :=
  let '(lower, upper) := thresholds in
  let '(actor1, actor2) := actors in
  match g !! actor1, g !! actor2 with
  | Some v1, Some v2 =>
      if decide (key = "release date") then
        let common := appearances v1 ∩ appearances v2 in
        common_filtered ← filter_movies year lower upper movies (elements common);
        if decide (common_filtered ≠ ∅) then Ret (true, common_filtered)
        else Ret (false, ∅)
      else if decide (key = "rating") then
        let common := appearances v1 ∩ appearances v2 in
        common_filtered ← filter_movies rating lower upper movies (elements common);
        if decide (common_filtered ≠ ∅) then Ret (true, common_filtered)
        else Ret (false, ∅)
      else Raise KeyError
  | _, _ => Raise ValueError
  end.

(** [Graph._sp_bfs_filtered_helper]: the updated [(queue, visited)]. *)
Definition _sp_bfs_filtered_helper (is_valid : bool) (visited : gset string)
    (item : string) (queue_path : list (string * list string) * list string)
    : list (string * list string) * gset string :=
  let queue := fst queue_path in
  let path := snd queue_path in
  if is_valid then (queue ++ [(item, path ++ [item])], {[item]} ∪ visited)
  else (queue, visited).

(** The [for] loop of [shortest_path_bfs_filtered]. *)
Fixpoint visit_neighbours_filtered (g : Graph) (key : string) (thresholds : Q * Q)
    (movies : movies_dict) (current_actor : string)
    (path : list string) (ns : list string)
    (queue : list (string * list string)) (visited : gset string)
    : res (list (string * list string) * gset string) :=
  match ns with
  | [] => Ret (queue, visited)
  | n :: ns' =>
      if decide (n ∈ visited) then
        visit_neighbours_filtered g key thresholds movies current_actor path ns'
          queue visited
      else
        '(is_valid, _) ← filter_by_key g (current_actor, n) key thresholds movies;
        let '(queue', visited') :=
          _sp_bfs_filtered_helper is_valid visited n (queue, path) in
        visit_neighbours_filtered g key thresholds movies current_actor path ns'
          queue' visited'
  end.

(** The [while queue] loop of [shortest_path_bfs_filtered]. *)
Fixpoint bfs_filtered_loop (fuel : nat) (g : Graph) (target_item key : string)
    (thresholds : Q * Q) (movies : movies_dict)
    (queue : list (string * list string)) (visited : gset string)
    : res (list string) :=
  match queue with
  | [] => Ret []
  | (current_actor, path) :: queue' =>
      match fuel with
      | O => OutOfFuel
      | S fuel' =>
          if decide (current_actor = target_item) then Ret path
          else
            v ← getitem g current_actor;
            '(queue'', visited') ←
              visit_neighbours_filtered g key thresholds movies current_actor path
                (neighbours v) queue' visited;
            bfs_filtered_loop fuel' g target_item key thresholds movies queue'' visited'
      end
  end.

(** [Graph.shortest_path_bfs_filtered] *)
Definition shortest_path_bfs_filtered (g : Graph) (items : string * string)
    (key : string) (thresholds : Q * Q) (movies : movies_dict)
    : res (list string) :=
  let '(lower, upper) := (fst thresholds, snd thresholds) in
  let '(starting_item, target_item) := (fst items, snd items) in
  if decide (g !! starting_item = None ∨ g !! target_item = None) then Raise ValueError
  else bfs_filtered_loop (size g) g target_item key (lower, upper) movies
         [(starting_item, [starting_item])] {[starting_item]}.

(** *** Distances from one vertex *)

(** A hop count, or [float("inf")]. *)
Inductive distance := Finite (n : nat) | Infinity.

(** [d + 1] *)
Definition dist_succ (d : distance) : distance :=
  match d with
  | Finite n => Finite (S n)
  | Infinity => Infinity
  end.

(** The [for] loop of [shortest_distance_bfs]; [distances[current_actor]] is
    read anew for each unvisited neighbour. *)
Fixpoint visit_neighbours_dist (starting_item current_actor : string)
    (ns : list string) (distances : gmap string distance)
    (queue : list string) (visited : gset string)
    : res (gmap string distance * list string * gset string) :=
  match ns with
  | [] => Ret (distances, queue, visited)
  | n :: ns' =>
      if decide (n ≠ starting_item ∧ n ∉ visited) then
        d ← getitem distances current_actor;
        visit_neighbours_dist starting_item current_actor ns'
          (<[n := dist_succ d]> distances) (queue ++ [n]) ({[n]} ∪ visited)
      else
        visit_neighbours_dist starting_item current_actor ns' distances queue visited
  end.

(** The [while queue] loop of [shortest_distance_bfs]. *)
Fixpoint dist_loop (fuel : nat) (g : Graph) (starting_item : string)
    (distances : gmap string distance) (queue : list string) (visited : gset string)
    : res (gmap string distance) :=
  match queue with
  | [] => Ret distances
  | current_actor :: queue' =>
      match fuel with
      | O => OutOfFuel
      | S fuel' =>
          v ← getitem g current_actor;
          '(distances', queue'', visited') ←
            visit_neighbours_dist starting_item current_actor (neighbours v)
              distances queue' visited;
          dist_loop fuel' g starting_item distances' queue'' visited'
      end
  end.

(** [Graph.shortest_distance_bfs] *)
Definition shortest_distance_bfs (g : Graph) (starting_item : string)
    : res (gmap string distance) :=
  if decide (g !! starting_item = None) then Raise ValueError
  else
    let distances := <[starting_item := Finite 0]> ((λ _, Infinity) <$> g) in
    distances' ← dist_loop (size g) g starting_item distances
                   [starting_item] {[starting_item]};
    Ret (filter (λ kv, kv.1 ≠ starting_item) distances').

(** ** Graph builders ([graph_create.py]) *)

(** The [for actor2 in movies[movie][0]] loop of [_create_actor_graph_helper]. *)
Fixpoint link_cast (g : Graph) (actor : string) (cast2 : list string) : res Graph :=
  match cast2 with
  | [] => Ret g
  | actor2 :: rest =>
      if item_in_graph g actor2 && bool_decide (actor ≠ actor2) then
        g' ← add_edge g actor actor2; link_cast g' actor rest
      else link_cast g actor rest
  end.

(** [_create_actor_graph_helper] *)
Definition _create_actor_graph_helper (movies : movies_dict) (movie : string)
    (g : Graph) (actor : string) : res Graph :=
  r ← movies_getitem movies movie;
  link_cast g actor (cast r).

(** The [for actor in movies[movie][0]] loop of [create_actor_graph]. *)
Fixpoint add_cast (movies : movies_dict) (movie : string) (g : Graph)
    (actors : list string) : res Graph :=
  match actors with
  | [] => Ret g
  | actor :: rest =>
      let g1 := add_vertex g actor "actor" in
      g2 ← add_appearances g1 actor movie;
      g3 ← _create_actor_graph_helper movies movie g2 actor;
      add_cast movies movie g3 rest
  end.

(** The [for movie in movies] loop of [create_actor_graph]. *)
Fixpoint add_movies (movies : movies_dict) (keys : list string) (g : Graph)
    : res Graph :=
  match keys with
  | [] => Ret g
  | movie :: rest =>
      r ← movies_getitem movies movie;
      g' ← add_cast movies movie g (cast r);
      add_movies movies rest g'
  end.

(** [create_actor_graph] *)
Definition create_actor_graph (movies : movies_dict) : res Graph :=
  add_movies movies (map fst movies) empty_graph.

(** [recommendations: list | dict] *)
Inductive recommendations :=
  | RecList (l : list string)
  | RecDict (d : list (string * Q)).

(** [list(recommendations.keys())] for a dict, the list itself otherwise. *)
Definition recommendation_list (recs : recommendations) : list string :=
  match recs with
  | RecList l => l
  | RecDict d => map fst d
  end.

(** The [for movie in recommendations] loop of [create_recommended_movie_graph]. *)
Fixpoint add_recommendations (g : Graph) (main_movie : string)
    (sim_scores : gmap string Q) (recs : list string) : res Graph :=
  match recs with
  | [] => Ret g
  | movie :: rest =>
      let g1 := add_vertex g movie "movie" in
      g2 ← add_sim_score g1 movie sim_scores;
      g3 ← add_edge g2 movie main_movie;
      add_recommendations g3 main_movie sim_scores rest
  end.

(** [create_recommended_movie_graph] *)
Definition create_recommended_movie_graph (main_movie : string)
    (recs : recommendations) (sim_scores : gmap string Q) : res Graph :=
  let recs := recommendation_list recs in
  let g := add_vertex empty_graph main_movie "movie" in
  let main_sim_score : gmap string Q := {[main_movie := 1%Q]} in
  g' ← add_sim_score g main_movie main_sim_score;
  add_recommendations g' main_movie sim_scores recs.

(** ** Vocabulary of the properties *)

(** [b] is in the neighbour set of the vertex stored under [a]. *)
Definition nbr (g : Graph) (a b : string) : Prop :=
  ∃ v, g !! a = Some v ∧ b ∈ neighbours v.

(** Neighbour sets only hold vertices of the graph: the only way a vertex
    object enters a neighbour set is [add_edge], which takes it from
    [_vertices], and nothing is ever removed from [_vertices]. *)
Definition wf (g : Graph) : Prop :=
  map_Forall (λ _ v, Forall (λ n, is_Some (g !! n)) (neighbours v)) g.

#[global] Instance wf_dec g : Decision (wf g).
Proof. unfold wf. apply _. Defined.

(** The representation invariant of [_Vertex], for every vertex of a graph:
    [self not in self.neighbours] and
    [all(self in u.neighbours for u in self.neighbours)]. *)
Definition edge_invariant (g : Graph) : Prop :=
  ∀ k v, g !! k = Some v →
    (k ∉ neighbours v) ∧
    (∀ u, u ∈ neighbours v → ∃ vu, g !! u = Some vu ∧ k ∈ neighbours vu).

(** Graphs built from the empty graph by the mutating operations, [add_edge]
    within its precondition [item1 != item2]. *)
Inductive constructed : Graph → Prop :=
  | constructed_empty : constructed empty_graph
  | constructed_add_vertex g item kind :
      constructed g → constructed (add_vertex g item kind)
  | constructed_add_edge g item1 item2 g' :
      constructed g → item1 ≠ item2 → add_edge g item1 item2 = Ret g' →
      constructed g'
  | constructed_add_appearances g actor movie g' :
      constructed g → add_appearances g actor movie = Ret g' → constructed g'
  | constructed_add_sim_score g movie sim_scores g' :
      constructed g → add_sim_score g movie sim_scores = Ret g' → constructed g'.

(** Consecutive elements of [p] are adjacent. *)
Fixpoint is_walk (g : Graph) (p : list string) : Prop :=
  match p with
  | [] => True
  | a :: rest =>
      match rest with
      | [] => True
      | b :: _ => adjacent g a b = true ∧ is_walk g rest
      end
  end.

(** [p] begins with [s], ends with [t] and walks along edges. *)
Definition connects (g : Graph) (s t : string) (p : list string) : Prop :=
  head p = Some s ∧ last p = Some t ∧ is_walk g p.

Definition reachable (g : Graph) (s t : string) : Prop :=
  ∃ p, connects g s t p.

(** [d] is the least number of edges of a walk from [s] to [t]. *)
Definition min_hops (g : Graph) (s t : string) (d : nat) : Prop :=
  (∃ p, connects g s t p ∧ length p - 1 = d) ∧
  ∀ q, connects g s t q → d ≤ length q - 1.

(** Some movie's cast holds both actors. *)
Definition share_movie (movies : movies_dict) (a b : string) : Prop :=
  ∃ movie r, movies_lookup movies movie = Some r ∧ a ∈ cast r ∧ b ∈ cast r.

(** [p] is a walk from [s] to [v] with as few vertices as any. *)
Definition shortest (g : Graph) (s v : string) (p : list string) : Prop :=
  connects g s v p ∧ ∀ q, connects g s v q → length p ≤ length q.

(** The paths waiting in the queue have [d] vertices, then [d + 1]. *)
Definition levels (d : nat) (queue : list (string * list string)) : Prop :=
  ∃ q1 q2, queue = q1 ++ q2 ∧
    Forall (λ e, length e.2 = d) q1 ∧ Forall (λ e, length e.2 = S d) q2.

Definition qsorted (queue : list (string * list string)) : Prop :=
  match queue with
  | [] => True
  | (_, p) :: rest => levels (length p) rest
  end.

(** The state of [shortest_path_bfs] searching from [s] for [t], between two
    iterations of its [while] loop. *)
Record outer_inv (g : Graph) (s t : string)
    (queue : list (string * list string)) (visited : gset string) : Prop := {
  oi_queue : ∀ v p, (v, p) ∈ queue → shortest g s v p ∧ v ∈ visited;
  oi_sorted : qsorted queue;
  oi_closed : ∀ u n, u ∈ visited → u ∉ queue.*1 → nbr g u n → n ∈ visited;
  oi_start : s ∈ visited;
  oi_target : ∀ u, u ∈ visited → u ∉ queue.*1 → u ≠ t;
  oi_dom : ∀ u, u ∈ visited → is_Some (g !! u)
}.

(** The same while the neighbours of the dequeued [cur], reached along [p],
    are being walked. *)
Record inner_inv (g : Graph) (s t cur : string) (p : list string)
    (queue : list (string * list string)) (visited : gset string) : Prop := {
  ii_cur : shortest g s cur p;
  ii_cur_target : cur ≠ t;
  ii_cur_visited : cur ∈ visited;
  ii_queue : ∀ v p', (v, p') ∈ queue → shortest g s v p' ∧ v ∈ visited;
  ii_levels : levels (length p) queue;
  ii_closed : ∀ u n, u ∈ visited → u ≠ cur → u ∉ queue.*1 → nbr g u n → n ∈ visited;
  ii_start : s ∈ visited;
  ii_target : ∀ u, u ∈ visited → u ≠ cur → u ∉ queue.*1 → u ≠ t;
  ii_dom : ∀ u, u ∈ visited → is_Some (g !! u)
}.

(** The state of [shortest_distance_bfs] from [s] between two iterations of
    its [while] loop. *)
Record dist_inv (g : Graph) (s : string) (distances : gmap string distance)
    (queue : list string) (visited : gset string) : Prop := {
  di_dom : dom distances = dom g;
  di_reachable : ∀ v, v ∈ visited → reachable g s v;
  di_unvisited : ∀ v, v ∉ visited → is_Some (g !! v) → distances !! v = Some Infinity;
  di_queue : ∀ v, v ∈ queue → v ∈ visited;
  di_visited : ∀ v, v ∈ visited → is_Some (g !! v)
}.

(** [shortest_distance_bfs] and [shortest_path_bfs] run in step: a vertex
    waits in one queue exactly when it waits in the other, and its recorded
    distance is the number of edges of its recorded path. *)
Definition in_step (queue : list (string * list string)) (visited : gset string)
    (distances : gmap string distance) : Prop :=
  ∀ v p, (v, p) ∈ queue →
    distances !! v = Some (Finite (length p - 1)) ∧ v ∈ visited ∧ p ≠ [].

(** Every vertex object is stored under its own item. *)
Definition items_ok (g : Graph) : Prop :=
  ∀ k v, g !! k = Some v → item v = k.

(** The edge from [a] to [b] passes the filter: [filter_by_key] answers
    [True]. *)
Definition edge_ok (g : Graph) (key : string) (thresholds : Q * Q)
    (movies : movies_dict) (a b : string) : bool :=
  match filter_by_key g (a, b) key thresholds movies with
  | Ret (true, _) => true
  | _ => false
  end.

(** The graph with the same vertices whose neighbour sets keep only the
    neighbours across an edge that passes the filter. *)
Definition admissible_graph (g : Graph) (key : string) (thresholds : Q * Q)
    (movies : movies_dict) : Graph :=
  map_imap (λ k v, Some
    {| item := item v; kind := kind v;
       neighbours := filter (λ n, edge_ok g key thresholds movies k n = true)
                       (neighbours v);
       appearances := appearances v; sim_score := sim_score v;
       movie_info := movie_info v |}) g.

(** Consecutive elements of [p] are joined by an edge that passes the filter. *)
Fixpoint is_admissible_walk (g : Graph) (key : string) (thresholds : Q * Q)
    (movies : movies_dict) (p : list string) : Prop :=
  match p with
  | [] => True
  | a :: rest =>
      match rest with
      | [] => True
      | b :: _ => (adjacent g a b = true ∧ edge_ok g key thresholds movies a b = true) ∧
                  is_admissible_walk g key thresholds movies rest
      end
  end.

(** The cast of [movie] holds [a]. *)
Definition in_cast (movies : movies_dict) (a movie : string) : bool :=
  match movies_lookup movies movie with
  | Some r => bool_decide (a ∈ cast r)
  | None => false
  end.

(** The movies whose cast holds [a]. *)
Definition movies_of (movies : movies_dict) (a : string) : gset string :=
  list_to_set (filter (λ m, in_cast movies a m = true) movies.*1).

(** The field of a movie record that a recognised key selects. *)
Definition field_of_key (key : string) : option (movie_record → field_value) :=
  if decide (key = "release date") then Some year
  else if decide (key = "rating") then Some rating
  else None.

(** The movie has a record, and [float] accepts the given field of it. *)
Definition usable (movies : movies_dict) (field : movie_record → field_value)
    (movie : string) : bool :=
  match movies_lookup movies movie with
  | Some r => match float (field r) with Ret _ => true | _ => false end
  | None => false
  end.

(** The exception that the condition of the comprehension raises on a movie,
    if any: [KeyError] from the lookup of a movie without a record, the
    exception of [float] on a field it rejects. *)
Definition raises_on (movies : movies_dict) (field : movie_record → field_value)
    (movie : string) : option exn :=
  match movies_lookup movies movie with
  | Some r => match float (field r) with Raise e => Some e | _ => None end
  | None => Some KeyError
  end.

(** Every movie in an appearance set of the graph has a record with a field
    that [float] accepts. *)
Definition covered (g : Graph) (movies : movies_dict)
    (field : movie_record → field_value) : Prop :=
  map_Forall (λ _ v,
    set_Forall (λ m, usable movies field m = true) (appearances v)) g.

(** The appearance set of [a], empty when [a] is not a vertex. *)
Definition appearances_of (g : Graph) (a : string) : gset string :=
  default ∅ (appearances <$> g !! a).

(** Every vertex has the given kind. *)
Definition all_of_kind (g : Graph) (kind_ : string) : Prop :=
  ∀ x v, g !! x = Some v → kind v = kind_.

(** One successful call of a mutating operation, whatever its arguments. *)
Inductive mutates : Graph → Graph → Prop :=
  | mutates_add_vertex g item kind : mutates g (add_vertex g item kind)
  | mutates_add_edge g item1 item2 g' :
      add_edge g item1 item2 = Ret g' → mutates g g'
  | mutates_add_appearances g actor movie g' :
      add_appearances g actor movie = Ret g' → mutates g g'
  | mutates_add_sim_score g movie sim_scores g' :
      add_sim_score g movie sim_scores = Ret g' → mutates g g'.

(** ** Worked examples from the docstrings *)

(** The graph a sequence of fallible steps leaves (the empty graph if one of
    them raises). *)
Definition built (r : res Graph) : Graph :=
  match r with
  | Ret g => g
  | _ => empty_graph
  end.

Fixpoint add_vertices (g : Graph) (kind : string) (items : list string) : Graph :=
  match items with
  | [] => g
  | item :: rest => add_vertices (add_vertex g item kind) kind rest
  end.

Fixpoint add_edges (g : Graph) (edges : list (string * string)) : res Graph :=
  match edges with
  | [] => Ret g
  | (a, b) :: rest => g' ← add_edge g a b; add_edges g' rest
  end.

Fixpoint add_all_appearances (g : Graph) (apps : list (string * string)) : res Graph :=
  match apps with
  | [] => Ret g
  | (a, m) :: rest => g' ← add_appearances g a m; add_all_appearances g' rest
  end.

(** The graph of the [shortest_path_bfs] docstring. *)
Definition doc_graph : Graph :=
  built (add_edges
    (add_vertices empty_graph "actor" ["actor1"; "actor2"; "actor3"; "actor4"])
    [("actor1", "actor2"); ("actor2", "actor3"); ("actor2", "actor4");
     ("actor3", "actor4")]).

(** The graph of the [shortest_distance_bfs] and [filter_by_key] docstrings. *)
Definition doc_bipartite : Graph :=
  built (
    g ← add_edges
      (add_vertices
         (add_vertices empty_graph "actor" ["actor1"; "actor2"; "actor3"; "actor4"])
         "movie" ["movie1"; "movie2"; "movie3"])
      [("actor1", "movie1"); ("actor1", "movie2"); ("actor2", "movie2");
       ("actor2", "movie3"); ("actor3", "movie3"); ("actor3", "movie1");
       ("actor4", "movie3")];
    add_all_appearances g
      [("actor1", "movie1"); ("actor1", "movie2"); ("actor2", "movie2");
       ("actor2", "movie3"); ("actor3", "movie3"); ("actor3", "movie1");
       ("actor4", "movie3")]).

Definition test_movies : movies_dict :=
  [("movie1", mkMovie [] (PyInt 1970, PyOther, PyFloat (Real 2)));
   ("movie2", mkMovie [] (PyInt 1980, PyOther, PyFloat (Real 1)));
   ("movie3", mkMovie [] (PyInt 1990, PyOther, PyFloat (Real (5 # 2))));
   ("movie4", mkMovie [] (PyInt 1991, PyOther, PyFloat (Real 3)))].

(** The movies of the [create_actor_graph] docstring, and a third one.  The
    rating of the first is the double written [8.1]. *)
Definition doc_movies : movies_dict :=
  [("Movie1", mkMovie ["actor1"; "actor2"]
               (PyInt 1990, PyInt 200,
                PyFloat (Real (4559894622712627 # 562949953421312))));
   ("Movie2", mkMovie ["actor1"; "actor4"] (PyInt 1990, PyInt 200, PyInt 6));
   ("Movie3", mkMovie ["actor2"; "actor4"] (PyInt 1970, PyInt 100, PyInt 5))].

Definition doc_actor_graph : Graph := built (create_actor_graph doc_movies).

(** The example of the [create_recommended_movie_graph] docstring. *)
Definition doc_recommendations : list string :=
  ["Shaun the Sheep Movie"; "Wild Romance"; "Shut Up and Shoot Me"].

Definition doc_sim_scores : gmap string Q :=
  list_to_map [("Shaun the Sheep Movie", 87 # 100); ("Wild Romance", 2 # 10);
               ("Shut Up and Shoot Me", 99 # 100)]%Q.

Definition doc_rec_graph : Graph :=
  built (create_recommended_movie_graph "Ghost Stories"
           (RecList doc_recommendations) doc_sim_scores).

(** Two vertices and no edge; one vertex. *)
Definition two_strangers : Graph :=
  add_vertices empty_graph "actor" ["actor1"; "actor2"].

Definition one_actor : Graph := add_vertex empty_graph "actor1" "actor".

(** Two vertices and one edge. *)
Definition one_edge : Graph := built (add_edge two_strangers "actor1" "actor2").

(** The docstring graph with one more edge, from ["actor1"] to ["actor4"]. *)
Definition doc_graph_shortcut : Graph := built (add_edge doc_graph "actor1" "actor4").



(** Records whose year is no double: the integer [2^53 + 1] for the first
    movie, the integer [10^400], beyond the range of doubles, for the
    second. *)
Definition large_year_movies : movies_dict :=
  [("movie1", mkMovie ["actor1"] (PyInt (2 ^ 53 + 1), PyInt 200, PyInt 5));
   ("movie2", mkMovie ["actor2"] (PyInt (10 ^ 400), PyInt 200, PyInt 5))].

Example doc_shortest_path :
  shortest_path_bfs doc_graph "actor1" "actor4" = Ret ["actor1"; "actor2"; "actor4"].
Proof. vm_compute. reflexivity. Qed.

Example doc_shortest_distance :
  shortest_distance_bfs doc_bipartite "actor1" =
    Ret (list_to_map [("actor2", Finite 2); ("actor3", Finite 2); ("actor4", Finite 4);
                      ("movie1", Finite 1); ("movie2", Finite 1); ("movie3", Finite 3)]).
Proof. vm_compute. reflexivity. Qed.

Example doc_filter_by_key_1 :
  filter_by_key doc_bipartite ("actor1", "actor2") "rating" (1985, 1991)%Q test_movies
    = Ret (false, ∅).
Proof. vm_compute. reflexivity. Qed.

Example doc_filter_by_key_2 :
  filter_by_key doc_bipartite ("actor1", "actor2") "release date" (1965, 1991)%Q
    test_movies = Ret (true, {["movie2"]}).
Proof. vm_compute. reflexivity. Qed.

Example doc_filter_by_key_3 :
  filter_by_key doc_bipartite ("actor3", "actor4") "rating" (2, 3)%Q test_movies
    = Ret (true, {["movie3"]}).
Proof. vm_compute. reflexivity. Qed.

Example doc_filter_by_key_4 :
  filter_by_key doc_bipartite ("actor1", "actor3") "rating" (5 # 2, 3)%Q test_movies
    = Ret (false, ∅).
Proof. vm_compute. reflexivity. Qed.

(** The fields are compared after [float].  With the year [2^53 + 1] and
    both thresholds [2^53 + 1] the movie does not pass, since [float] rounds
    the year to [2^53], and it passes with both thresholds [2^53]; on the
    year [10^400] [float] raises [OverflowError], and [TypeError] on the
    votes of the docstring's records, which are lists. *)
Example filter_movies_float :
  float (PyInt (2 ^ 53 + 1)) = Ret (Real (inject_Z (2 ^ 53))) ∧
  filter_movies year (inject_Z (2 ^ 53 + 1)) (inject_Z (2 ^ 53 + 1))
    large_year_movies ["movie1"] = Ret ∅ ∧
  filter_movies year (inject_Z (2 ^ 53)) (inject_Z (2 ^ 53))
    large_year_movies ["movie1"] = Ret {["movie1"]} ∧
  filter_movies year 0 3000 large_year_movies ["movie2"] = Raise OverflowError ∧
  filter_movies votes 0 10 test_movies ["movie1"] = Raise TypeError.
Proof. split_and!; vm_compute; reflexivity. Qed.

Example doc_common_movies :
  get_common_movies
    (built (add_all_appearances (add_vertices empty_graph "actor" ["actor1"; "actor2"])
       [("actor1", "movie1"); ("actor1", "movie2"); ("actor2", "movie3");
        ("actor2", "movie2"); ("actor2", "movie1")])) "actor1" "actor2"
    = Ret {["movie2"; "movie1"]}.
Proof. vm_compute. reflexivity. Qed.

Example doc_actor_graph_neighbours :
  adjacent doc_actor_graph "actor1" "actor2" = true ∧
  get_appearances doc_actor_graph "actor1" = Ret {["Movie1"; "Movie2"]}.
Proof. split; vm_compute; reflexivity. Qed.

Example doc_recommended_graph :
  adjacent doc_rec_graph "Shaun the Sheep Movie" "Ghost Stories" = true ∧
  adjacent doc_rec_graph "Shaun the Sheep Movie" "Wild Romance" = false.
Proof. split; vm_compute; reflexivity. Qed.

Example strangers_distance :
  shortest_distance_bfs two_strangers "actor1" = Ret {["actor2" := Infinity]}.
Proof. vm_compute. reflexivity. Qed.

Example filtered_detour :
  shortest_path_bfs_filtered doc_actor_graph ("actor2", "actor4") "release date"
    (1980, 2000)%Q doc_movies = Ret ["actor2"; "actor1"; "actor4"] ∧
  shortest_path_bfs doc_actor_graph "actor2" "actor4" = Ret ["actor2"; "actor4"].
Proof. split; vm_compute; reflexivity. Qed.

(** ** Basic facts about the mutating operations *)

Lemma bind_Ret {A B} (a : A) (k : A → res B) : Ret a ≫= k = k a.
Proof. reflexivity. Qed.

Lemma bind_Raise {A B} e (k : A → res B) : Raise e ≫= k = Raise e.
Proof. reflexivity. Qed.

Lemma bind_inv_Ret {A B} (m : res A) (k : A → res B) b :
  m ≫= k = Ret b → ∃ a, m = Ret a ∧ k a = Ret b.
Proof. destruct m; [eauto|discriminate|discriminate]. Qed.

Lemma elem_of_set_add x n l : x ∈ set_add n l ↔ x = n ∨ x ∈ l.
Proof.
  unfold set_add. destruct (decide (n ∈ l)) as [Hin|Hin].
  - split; [tauto|]. intros [->|H]; assumption.
  - rewrite elem_of_app, list_elem_of_singleton. tauto.
Qed.

Lemma adjacent_true g a b :
  adjacent g a b = true ↔ nbr g a b ∧ is_Some (g !! b).
Proof.
  unfold adjacent, nbr. destruct (g !! a) as [va|] eqn:Ha.
  - destruct (g !! b) as [vb|] eqn:Hb.
    + rewrite existsb_exists. split.
      * intros (x & Hx & Hxb). apply bool_decide_eq_true in Hxb. subst x.
        apply list_elem_of_In in Hx. eauto.
      * intros ((v & Hv & Hin) & _). injection Hv as <-. exists b.
        split; [by apply list_elem_of_In | by apply bool_decide_eq_true].
    + split; [discriminate|]. intros (_ & [x Hx]). discriminate.
  - split; [discriminate|]. intros ((v & Hv & _) & _). discriminate.
Qed.

Lemma wf_nbr g a b : wf g → nbr g a b → is_Some (g !! b).
Proof.
  intros Hwf (v & Hv & Hin). specialize (Hwf a v Hv). simpl in Hwf.
  rewrite Forall_forall in Hwf. by apply Hwf.
Qed.

Lemma wf_adjacent g a b : wf g → (adjacent g a b = true ↔ nbr g a b).
Proof.
  intros Hwf. rewrite adjacent_true. split; [tauto|].
  intros H. split; [done|]. by eapply wf_nbr.
Qed.

Lemma nbr_in_graph g a b : nbr g a b → is_Some (g !! a).
Proof. intros (v & Hv & _). eauto. Qed.

Lemma wf_intro (g : Graph) : (∀ a b, nbr g a b → is_Some (g !! b)) → wf g.
Proof.
  intros H k v Hk. simpl. apply Forall_forall. intros n Hn.
  apply (H k n). exists v. done.
Qed.

Section mutations.
Context (g : Graph).

Lemma lookup_add_vertex item kind k :
  add_vertex g item kind !! k =
    match g !! k with
    | Some v => Some v
    | None => if decide (item = k) then Some (new_vertex item kind) else None
    end.
Proof.
  unfold add_vertex. destruct (g !! item) as [v|] eqn:Hi.
  - destruct (g !! k) eqn:Hk; [done|]. case_decide; [congruence|done].
  - rewrite lookup_insert. case_decide.
    + subst k. by rewrite Hi.
    + by destruct (g !! k).
Qed.

Lemma dom_add_vertex item kind :
  dom (add_vertex g item kind) = {[item]} ∪ dom g.
Proof.
  apply set_eq. intros k. rewrite elem_of_union, elem_of_singleton, !elem_of_dom.
  rewrite lookup_add_vertex. destruct (g !! k) eqn:Hk.
  - split; eauto.
  - case_decide; split; intros Hx; eauto.
    all: destruct Hx as [->|[? ?]]; done.
Qed.

Lemma nbr_add_vertex item kind a b :
  nbr (add_vertex g item kind) a b ↔ nbr g a b.
Proof.
  unfold nbr. rewrite lookup_add_vertex. destruct (g !! a) eqn:Ha; [done|].
  case_decide; split; intros (v & Hv & Hin); try discriminate.
  injection Hv as <-. simpl in Hin. by apply elem_of_nil in Hin.
Qed.

Lemma add_edge_ret item1 item2 :
  is_Some (g !! item1) → is_Some (g !! item2) →
  add_edge g item1 item2 =
    Ret (alter (add_neighbour item1) item2 (alter (add_neighbour item2) item1 g)).
Proof. intros [v1 H1] [v2 H2]. unfold add_edge. by rewrite H1, H2. Qed.

Lemma add_edge_inv item1 item2 g' :
  add_edge g item1 item2 = Ret g' →
  is_Some (g !! item1) ∧ is_Some (g !! item2) ∧
  g' = alter (add_neighbour item1) item2 (alter (add_neighbour item2) item1 g).
Proof.
  unfold add_edge. destruct (g !! item1) eqn:H1; [|discriminate].
  destruct (g !! item2) eqn:H2; [|discriminate]. intros [= <-]. eauto.
Qed.

Lemma lookup_add_edge_is_Some item1 item2 g' k :
  add_edge g item1 item2 = Ret g' → is_Some (g' !! k) ↔ is_Some (g !! k).
Proof.
  intros (_ & _ & ->)%add_edge_inv.
  by rewrite <- !elem_of_dom, !dom_alter_L.
Qed.

Lemma nbr_alter_add_neighbour n k a b :
  nbr (alter (add_neighbour n) k g) a b ↔
    nbr g a b ∨ (a = k ∧ b = n ∧ is_Some (g !! k)).
Proof.
  unfold nbr. rewrite lookup_alter. destruct (decide (k = a)) as [->|Hne].
  - destruct (g !! a) as [v|] eqn:Ha; simpl.
    + split.
      * intros (v' & [= <-] & Hin). simpl in Hin.
        apply elem_of_set_add in Hin as [->|Hin]; eauto 6.
      * intros H. eexists; split; [done|]. simpl. apply elem_of_set_add.
        destruct H as [(v' & [= <-] & Hin)|(_ & -> & _)]; eauto.
    + split; [intros (v' & [=] & _)|].
      intros [(v' & [=] & _)|(_ & _ & [? [=]])].
  - split; [eauto|]. intros [H|(-> & _)]; [done|congruence].
Qed.
End mutations.

Lemma nbr_add_edge g item1 item2 g' a b :
  add_edge g item1 item2 = Ret g' →
  nbr g' a b ↔ nbr g a b ∨ (a = item1 ∧ b = item2) ∨ (a = item2 ∧ b = item1).
Proof.
  intros (H1 & H2 & ->)%add_edge_inv. rewrite !nbr_alter_add_neighbour.
  rewrite <- !elem_of_dom, dom_alter_L, !elem_of_dom. tauto.
Qed.

Section mutations_more.
Context (g : Graph).

Lemma add_appearances_inv actor movie g' :
  add_appearances g actor movie = Ret g' →
  is_Some (g !! actor) ∧ g' = alter (add_appearance movie) actor g.
Proof.
  unfold add_appearances. destruct (g !! actor) eqn:H; [|discriminate].
  intros [= <-]. eauto.
Qed.

Lemma nbr_alter_same f k a b :
  (∀ v, neighbours (f v) = neighbours v) →
  nbr (alter f k g) a b ↔ nbr g a b.
Proof.
  intros Hf. unfold nbr. rewrite lookup_alter. case_decide; [subst k|done].
  destruct (g !! a) as [v|]; simpl.
  - split; intros (v' & [= <-] & Hin); eexists; (split; [done|]).
    + by rewrite Hf in Hin.
    + by rewrite Hf.
  - split; intros (v' & [=] & _).
Qed.

Lemma nbr_add_appearances actor movie g' a b :
  add_appearances g actor movie = Ret g' → nbr g' a b ↔ nbr g a b.
Proof. intros (_ & ->)%add_appearances_inv. by apply nbr_alter_same. Qed.

Lemma add_sim_score_inv movie sim_scores g' :
  add_sim_score g movie sim_scores = Ret g' →
  ∃ s, sim_scores !! movie = Some s ∧ is_Some (g !! movie) ∧
       g' = alter (set_sim_score s) movie g.
Proof.
  unfold add_sim_score, getitem. destruct (sim_scores !! movie) as [s|]; [|discriminate].
  simpl. destruct (g !! movie) eqn:H; [|discriminate]. intros [= <-]. eauto.
Qed.

Lemma nbr_add_sim_score movie sim_scores g' a b :
  add_sim_score g movie sim_scores = Ret g' → nbr g' a b ↔ nbr g a b.
Proof. intros (s & _ & _ & ->)%add_sim_score_inv. by apply nbr_alter_same. Qed.
End mutations_more.

(** ** The edge invariant of constructed graphs *)

Lemma edge_invariant_nbr g :
  edge_invariant g ↔ (∀ a, ¬ nbr g a a) ∧ (∀ a b, nbr g a b → nbr g b a).
Proof.
  unfold edge_invariant, nbr. split.
  - intros H. split.
    + intros a (v & Hv & Hin). by destruct (H a v Hv).
    + intros a b (v & Hv & Hin). destruct (H a v Hv) as [_ Hsym]. by apply Hsym.
  - intros [Hirr Hsym] k v Hk. split.
    + intros Hin. apply (Hirr k). eauto.
    + intros u Hu. apply (Hsym k u). eauto.
Qed.

Lemma constructed_nbr g :
  constructed g →
  (∀ a, ¬ nbr g a a) ∧ (∀ a b, nbr g a b → nbr g b a) ∧
  (∀ a b, nbr g a b → is_Some (g !! b)).
Proof.
  induction 1 as [|g item kind _ (Hirr & Hsym & Hin)
                  |g i1 i2 g' _ (Hirr & Hsym & Hin) Hne Hadd
                  |g actor movie g' _ (Hirr & Hsym & Hin) Hadd
                  |g movie scores g' _ (Hirr & Hsym & Hin) Hadd].
  - unfold nbr, empty_graph. repeat split.
    + intros a (v & Hv & _). by rewrite lookup_empty in Hv.
    + intros a b (v & Hv & _). by rewrite lookup_empty in Hv.
    + intros a b (v & Hv & _). by rewrite lookup_empty in Hv.
  - repeat split.
    + intros a. rewrite nbr_add_vertex. apply Hirr.
    + intros a b. rewrite !nbr_add_vertex. apply Hsym.
    + intros a b. rewrite nbr_add_vertex, <- !elem_of_dom, dom_add_vertex.
      intros Hab%Hin%elem_of_dom. rewrite elem_of_union. by right.
  - pose proof (add_edge_inv _ _ _ _ Hadd) as (H1 & H2 & _). repeat split.
    + intros a. rewrite (nbr_add_edge _ _ _ _ _ _ Hadd).
      intros [H|[[-> <-]|[-> <-]]]; [by apply (Hirr a)|done|done].
    + intros a b. rewrite !(nbr_add_edge _ _ _ _ _ _ Hadd).
      intros [H|[[-> ->]|[-> ->]]]; auto.
    + intros a b. rewrite (nbr_add_edge _ _ _ _ _ _ Hadd).
      rewrite (lookup_add_edge_is_Some _ _ _ _ _ Hadd).
      intros [H|[[-> ->]|[-> ->]]]; eauto.
  - pose proof (add_appearances_inv _ _ _ _ Hadd) as (_ & Hg'). repeat split.
    + intros a. rewrite (nbr_add_appearances _ _ _ _ _ _ Hadd). apply Hirr.
    + intros a b. rewrite !(nbr_add_appearances _ _ _ _ _ _ Hadd). apply Hsym.
    + intros a b. rewrite (nbr_add_appearances _ _ _ _ _ _ Hadd).
      intros Hab%Hin. subst g'. by rewrite <- elem_of_dom, dom_alter_L, elem_of_dom.
  - pose proof (add_sim_score_inv _ _ _ _ Hadd) as (s & _ & _ & Hg'). repeat split.
    + intros a. rewrite (nbr_add_sim_score _ _ _ _ _ _ Hadd). apply Hirr.
    + intros a b. rewrite !(nbr_add_sim_score _ _ _ _ _ _ Hadd). apply Hsym.
    + intros a b. rewrite (nbr_add_sim_score _ _ _ _ _ _ Hadd).
      intros Hab%Hin. subst g'. by rewrite <- elem_of_dom, dom_alter_L, elem_of_dom.
Qed.

(** Neighbour sets of a constructed graph stay inside the graph. *)
Lemma constructed_wf g : constructed g → wf g.
Proof. intros (_ & _ & H)%constructed_nbr. by apply wf_intro. Qed.

(** C7.  Every graph built from the empty graph by [add_vertex], [add_edge]
    on two distinct present items, [add_appearances] and [add_sim_score]
    satisfies the edge invariant: no vertex is in its own neighbour set, and
    [v] is in the neighbour set of each of its neighbours. *)
Theorem constructed_edge_invariant g : constructed g → edge_invariant g.
Proof.
  intros (Hirr & Hsym & _)%constructed_nbr. apply edge_invariant_nbr. done.
Qed.

(** ** Error behaviour of [add_sim_score] and [filter_by_key] *)

(** C9.  [add_sim_score] on a movie that has a score in the mapping but no
    vertex in the graph raises [KeyError]. *)
Theorem add_sim_score_absent_vertex (g : Graph) movie (sim_scores : gmap string Q) :
  is_Some (sim_scores !! movie) → g !! movie = None →
  add_sim_score g movie sim_scores = Raise KeyError.
Proof.
  intros [s Hs] Hg. unfold add_sim_score, getitem. rewrite Hs. simpl.
  by rewrite Hg.
Qed.

Lemma field_of_key_valid key field :
  field_of_key key = Some field →
  (key = "release date" ∧ field = year) ∨ (key = "rating" ∧ field = rating).
Proof.
  unfold field_of_key. repeat case_decide; intros [= <-]; tauto.
Qed.

Lemma float_fuel v : float v ≠ OutOfFuel.
Proof.
  destruct v as [z|x|[x|]|]; simpl; try done. by destruct (int_to_double z).
Qed.

Lemma usable_raises_on movies field m :
  usable movies field m = true ↔ raises_on movies field m = None.
Proof.
  unfold usable, raises_on.
  destruct (movies_lookup movies m) as [r|]; [|done].
  pose proof (float_fuel (field r)). by destruct (float (field r)).
Qed.

Lemma usable_float movies field m :
  usable movies field m = true ↔
  ∃ r x, movies_lookup movies m = Some r ∧ float (field r) = Ret x.
Proof.
  unfold usable. destruct (movies_lookup movies m) as [r|].
  - destruct (float (field r)) as [x| |] eqn:Hf.
    + split; [eauto|done].
    + split; [done|]. by intros (r' & x & [= <-] & Hx); rewrite Hf in Hx.
    + split; [done|]. by intros (r' & x & [= <-] & Hx); rewrite Hf in Hx.
  - split; [done|]. by intros (r & x & ? & _).
Qed.

Lemma movies_lookup_float (movies : movies_dict) field :
  Forall (λ kr, ∃ x, float (field kr.2) = Ret x) movies →
  ∀ m r, movies_lookup movies m = Some r → ∃ x, float (field r) = Ret x.
Proof.
  induction 1 as [|[k r'] rest Hk Hrest IH]; intros m r; simpl; [done|].
  case_decide; [|by apply IH]. by intros [= <-].
Qed.

(** The comprehension raises the exception of the first movie, in the order
    of iteration, on which its condition raises. *)
Lemma filter_movies_raises field lower upper movies common e :
  filter_movies field lower upper movies common = Raise e ↔
  ∃ pre m post, common = pre ++ m :: post ∧
                (∀ x, x ∈ pre → raises_on movies field x = None) ∧
                raises_on movies field m = Some e.
Proof.
  induction common as [|m rest IH].
  - split; [done|]. intros (pre & m & post & Heq & _). by destruct pre.
  - assert (Hhead : ∀ e', raises_on movies field m = Some e' →
              filter_movies field lower upper movies (m :: rest) = Raise e').
    { intros e'. simpl. unfold raises_on, movies_getitem.
      destruct (movies_lookup movies m) as [r|]; simpl; [|congruence].
      destruct (float (field r)); simpl; congruence. }
    assert (Htail : raises_on movies field m = None →
              ∀ e', filter_movies field lower upper movies (m :: rest) = Raise e' ↔
                    filter_movies field lower upper movies rest = Raise e').
    { intros Hm e'. simpl. unfold raises_on, movies_getitem in *.
      destruct (movies_lookup movies m) as [r|]; [|done]. simpl.
      pose proof (float_fuel (field r)) as Hfuel.
      destruct (float (field r)) as [x| |]; [|done..]. simpl.
      destruct (filter_movies field lower upper movies rest); simpl;
        split; congruence. }
    destruct (raises_on movies field m) as [e'|] eqn:Hm.
    + rewrite (Hhead e' eq_refl). split.
      * intros [= <-]. exists [], m, rest. split_and!; [done| |done].
        intros x Hx. by apply elem_of_nil in Hx.
      * intros ([|p pre] & m' & post & Heq & Hpre & Hraise);
          simpl in Heq; injection Heq as -> ->.
        { congruence. }
        specialize (Hpre p (ltac:(left))). congruence.
    + rewrite (Htail eq_refl), IH. split.
      * intros (pre & m' & post & -> & Hpre & Hr).
        exists (m :: pre), m', post. split_and!; [done| |done].
        intros y [->|Hy]%elem_of_cons; [done|by apply Hpre].
      * intros ([|p pre] & m' & post & Heq & Hpre & Hraise);
          simpl in Heq; injection Heq as -> ->.
        { congruence. }
        exists pre, m', post. split_and!; [done| |done].
        intros y Hy. apply Hpre. by right.
Qed.

Lemma filter_movies_fuel field lower upper movies common :
  filter_movies field lower upper movies common ≠ OutOfFuel.
Proof.
  induction common as [|m rest IH]; simpl; [done|].
  unfold movies_getitem. destruct (movies_lookup movies m) as [r|]; [|done].
  simpl. pose proof (float_fuel (field r)).
  destruct (float (field r)); [|done..]. simpl.
  by destruct (filter_movies field lower upper movies rest).
Qed.


Lemma filter_movies_total field lower upper movies common :
  (∀ m, m ∈ common → usable movies field m = true) →
  ∃ s, filter_movies field lower upper movies common = Ret s.
Proof.
  intros Hall.
  destruct (filter_movies field lower upper movies common) as [s|e|] eqn:Hres;
    [eauto| |by apply filter_movies_fuel in Hres].
  apply filter_movies_raises in Hres as (pre & m & post & -> & _ & Hm).
  specialize (Hall m). rewrite usable_raises_on, Hm in Hall.
  discriminate Hall. apply elem_of_app. right. left.
Qed.


(** ** The recommendation graph is a star *)

Lemma sim_score_alter_add_neighbour (g : Graph) n k x :
  sim_score <$> alter (add_neighbour n) k g !! x = sim_score <$> g !! x.
Proof.
  rewrite lookup_alter. case_decide; [subst|done]. by destruct (g !! x).
Qed.

Lemma sim_score_add_edge (g : Graph) item1 item2 g' x :
  add_edge g item1 item2 = Ret g' →
  sim_score <$> g' !! x = sim_score <$> g !! x.
Proof.
  intros (_ & _ & ->)%add_edge_inv. by rewrite !sim_score_alter_add_neighbour.
Qed.

Lemma add_recommendations_spec main_movie (sim_scores : gmap string Q) recs :
  ∀ g : Graph,
  is_Some (g !! main_movie) → main_movie ∉ recs →
  (∀ c, c ∈ recs → is_Some (sim_scores !! c)) →
  ∃ g', add_recommendations g main_movie sim_scores recs = Ret g' ∧
    (∀ k, is_Some (g' !! k) ↔ is_Some (g !! k) ∨ k ∈ recs) ∧
    (∀ a b, nbr g' a b ↔
       nbr g a b ∨ (a ∈ recs ∧ b = main_movie) ∨ (a = main_movie ∧ b ∈ recs)) ∧
    (∀ c, c ∈ recs → sim_score <$> g' !! c = sim_scores !! c) ∧
    (∀ x, x ∉ recs → sim_score <$> g' !! x = sim_score <$> g !! x).
Proof.
  induction recs as [|c rest IH]; intros g Hmain Hnotin Hscores; simpl.
  - exists g. split; [done|]. repeat split; try tauto.
    + intros [H|H]; [done|]. by apply elem_of_nil in H.
    + intros [H|[[H _]|[_ H]]]; [done| |]; by apply elem_of_nil in H.
    + intros c Hc. by apply elem_of_nil in Hc.
  - apply not_elem_of_cons in Hnotin as [Hne Hnotin].
    destruct (Hscores c) as [s Hs]; [left|].
    assert (His1 : is_Some (add_vertex g c "movie" !! c)).
    { rewrite <- elem_of_dom, dom_add_vertex.
      rewrite elem_of_union, elem_of_singleton. by left. }
    unfold add_sim_score, getitem. rewrite Hs. simpl.
    destruct His1 as [v1 Hv1]. rewrite Hv1.
    set (g2 := alter (set_sim_score s) c (add_vertex g c "movie")).
    assert (Hdom2 : ∀ k, is_Some (g2 !! k) ↔ is_Some (g !! k) ∨ k = c).
    { intros k. unfold g2.
      rewrite <- !elem_of_dom, dom_alter_L, dom_add_vertex.
      rewrite elem_of_union, elem_of_singleton. tauto. }
    rewrite bind_Ret, add_edge_ret; [|apply Hdom2; by right|apply Hdom2; by left].
    rewrite bind_Ret.
    set (g3 := alter (add_neighbour c) main_movie (alter (add_neighbour main_movie) c g2)).
    assert (Hg3 : add_edge g2 c main_movie = Ret g3).
    { apply add_edge_ret; apply Hdom2; [by right|by left]. }
    assert (Hdom3 : ∀ k, is_Some (g3 !! k) ↔ is_Some (g !! k) ∨ k = c).
    { intros k. rewrite (lookup_add_edge_is_Some _ _ _ _ _ Hg3). apply Hdom2. }
    destruct (IH g3) as (g' & Hrun & Hdom & Hnbr & Hsc & Hpres).
    { apply Hdom3. by left. }
    { done. }
    { intros x Hx. apply Hscores. by right. }
    exists g'. split; [done|].
    assert (Hscore3 : ∀ x, sim_score <$> g3 !! x =
              if decide (x = c) then Some s else sim_score <$> g !! x).
    { intros x. rewrite (sim_score_add_edge _ _ _ _ _ Hg3). unfold g2.
      rewrite lookup_alter. case_decide as Hx.
      - subst x. rewrite Hv1. simpl. by rewrite decide_True.
      - rewrite decide_False by done. rewrite lookup_add_vertex.
        destruct (g !! x); [done|]. by rewrite decide_False. }
    repeat split.
    + rewrite Hdom, Hdom3, elem_of_cons. tauto.
    + rewrite Hdom, Hdom3, elem_of_cons. tauto.
    + rewrite Hnbr, (nbr_add_edge _ _ _ _ _ _ Hg3). unfold g2.
      rewrite nbr_alter_same by done. rewrite nbr_add_vertex, !elem_of_cons.
      intros [[H|[[-> ->]|[-> ->]]]|[[H ->]|[-> H]]]; eauto 6.
    + rewrite Hnbr, (nbr_add_edge _ _ _ _ _ _ Hg3). unfold g2.
      rewrite nbr_alter_same by done. rewrite nbr_add_vertex, !elem_of_cons.
      intros [H|[[[->|H] ->]|[-> [->|H]]]]; eauto 6.
    + intros x Hx. destruct (decide (x ∈ rest)) as [Hin|Hnin]; [by apply Hsc|].
      apply elem_of_cons in Hx as [->|Hx]; [|done].
      rewrite Hpres, Hscore3 by done. by rewrite decide_True.
    + intros x Hx. apply not_elem_of_cons in Hx as [Hxc Hx].
      rewrite Hpres, Hscore3 by done. by rewrite decide_False.
Qed.

(** C8.  For a candidate list (or the keys of a candidate mapping) that does
    not hold the focal movie and whose members all have a score, the
    recommendation graph is a star: the focal movie has score 1, every
    candidate has its looked-up score and is adjacent to the focal movie, and
    no two distinct candidates are adjacent. *)
Theorem recommended_graph_star main_movie recs (sim_scores : gmap string Q) :
  main_movie ∉ recommendation_list recs →
  (∀ c, c ∈ recommendation_list recs → is_Some (sim_scores !! c)) →
  ∃ g, create_recommended_movie_graph main_movie recs sim_scores = Ret g ∧
    sim_score <$> g !! main_movie = Some 1%Q ∧
    (∀ c, c ∈ recommendation_list recs →
       sim_score <$> g !! c = sim_scores !! c ∧
       adjacent g c main_movie = true ∧ adjacent g main_movie c = true) ∧
    (∀ c1 c2, c1 ∈ recommendation_list recs → c2 ∈ recommendation_list recs →
       c1 ≠ c2 → adjacent g c1 c2 = false).
Proof.
  intros Hnotin Hscores. unfold create_recommended_movie_graph.
  set (g0 := add_vertex empty_graph main_movie "movie").
  assert (H0 : g0 !! main_movie = Some (new_vertex main_movie "movie")).
  { unfold g0. rewrite lookup_add_vertex. unfold empty_graph.
    rewrite lookup_empty. by rewrite decide_True. }
  unfold add_sim_score, getitem. rewrite lookup_singleton_eq. simpl. rewrite H0.
  set (gm := alter (set_sim_score 1) main_movie g0).
  assert (Hm : gm !! main_movie = Some (set_sim_score 1 (new_vertex main_movie "movie"))).
  { unfold gm. rewrite lookup_alter, decide_True by done. by rewrite H0. }
  assert (Hnone : ∀ a b, ¬ nbr gm a b).
  { intros a b. unfold gm. rewrite nbr_alter_same by done. unfold g0.
    rewrite nbr_add_vertex. intros (v & Hv & _). unfold empty_graph in Hv.
    by rewrite lookup_empty in Hv. }
  destruct (add_recommendations_spec main_movie sim_scores
              (recommendation_list recs) gm)
    as (g & Hrun & Hdom & Hnbr & Hsc & Hpres); [by rewrite Hm|done|done|].
  exists g. split; [done|]. split; [|split].
  - rewrite Hpres by done. by rewrite Hm.
  - intros c Hc. split; [by apply Hsc|].
    assert (is_Some (gm !! main_movie)) by (by rewrite Hm).
    split; apply adjacent_true; rewrite Hnbr, Hdom; tauto.
  - intros c1 c2 Hc1 Hc2 Hne.
    destruct (adjacent g c1 c2) eqn:Hadj; [|done].
    apply adjacent_true in Hadj as [Hadj _]. apply Hnbr in Hadj.
    destruct Hadj as [H|[[_ ->]|[-> _]]]; [by apply Hnone in H|done|done].
Qed.

(** ** The actor graph links exactly the actors that share a movie *)

Lemma movies_lookup_is_Some (movies : movies_dict) movie :
  is_Some (movies_lookup movies movie) ↔ movie ∈ movies.*1.
Proof.
  induction movies as [|[k r] rest IH]; simpl.
  - split; [intros [? [=]]|]. intros H. by apply elem_of_nil in H.
  - rewrite elem_of_cons. case_decide as Hk.
    + subst k. split; eauto.
    + rewrite IH. split; [tauto|]. intros [->|H]; [done|done].
Qed.

Lemma item_in_graph_true (g : Graph) x : item_in_graph g x = true ↔ is_Some (g !! x).
Proof. unfold item_in_graph. apply bool_decide_eq_true. Qed.

Lemma link_cast_spec actor cast2 :
  ∀ g : Graph, is_Some (g !! actor) →
  ∃ g', link_cast g actor cast2 = Ret g' ∧
    (∀ k, is_Some (g' !! k) ↔ is_Some (g !! k)) ∧
    (∀ a b, nbr g' a b ↔
       nbr g a b ∨
       (a = actor ∧ b ∈ cast2 ∧ is_Some (g !! b) ∧ b ≠ actor) ∨
       (b = actor ∧ a ∈ cast2 ∧ is_Some (g !! a) ∧ a ≠ actor)).
Proof.
  induction cast2 as [|x rest IH]; intros g Hactor; simpl.
  - exists g. split; [done|]. split; [done|]. intros a b. split; [tauto|].
    intros [H|[(_ & H & _)|(_ & H & _)]]; [done| |]; by apply elem_of_nil in H.
  - destruct (item_in_graph g x && bool_decide (actor ≠ x)) eqn:Hcond.
    + apply andb_true_iff in Hcond as [Hx%item_in_graph_true Hne%bool_decide_eq_true].
      rewrite add_edge_ret by done. rewrite bind_Ret.
      set (g1 := alter (add_neighbour actor) x (alter (add_neighbour x) actor g)).
      assert (Hg1 : add_edge g actor x = Ret g1) by by apply add_edge_ret.
      assert (Hdom1 : ∀ k, is_Some (g1 !! k) ↔ is_Some (g !! k)).
      { intros k. apply (lookup_add_edge_is_Some _ _ _ _ _ Hg1). }
      destruct (IH g1) as (g' & Hrun & Hdom & Hnbr); [by apply Hdom1|].
      exists g'. split; [done|]. split.
      * intros k. by rewrite Hdom, Hdom1.
      * intros a b. rewrite Hnbr, (nbr_add_edge _ _ _ _ _ _ Hg1), !Hdom1.
        rewrite !elem_of_cons. split.
        -- intros [[H|[[-> ->]|[-> ->]]]|[(-> & H1 & H2 & H3)|(-> & H1 & H2 & H3)]];
             eauto 10.
        -- intros [H|[(-> & [->|H1] & H2 & H3)|(-> & [->|H1] & H2 & H3)]]; eauto 10.
    + destruct (IH g Hactor) as (g' & Hrun & Hdom & Hnbr).
      exists g'. split; [done|]. split; [done|].
      intros a b. rewrite Hnbr, !elem_of_cons.
      apply andb_false_iff in Hcond.
      assert (Hskip : ¬ (is_Some (g !! x) ∧ x ≠ actor)).
      { intros [H1 H2]. destruct Hcond as [Hc|Hc].
        - apply item_in_graph_true in H1. congruence.
        - apply bool_decide_eq_false in Hc. apply Hc. congruence. }
      split.
      * intros [H|[(-> & H1 & H2 & H3)|(-> & H1 & H2 & H3)]]; eauto 10.
      * intros [H|[(-> & [->|H1] & H2 & H3)|(-> & [->|H1] & H2 & H3)]]; eauto 10;
          destruct Hskip; done.
Qed.

Lemma add_cast_spec (movies : movies_dict) movie r :
  movies_lookup movies movie = Some r →
  ∀ actors (g : Graph), (∀ a, a ∈ actors → a ∈ cast r) →
  ∃ g', add_cast movies movie g actors = Ret g' ∧
    (∀ k, is_Some (g' !! k) ↔ is_Some (g !! k) ∨ k ∈ actors) ∧
    (∀ a b, nbr g a b → nbr g' a b) ∧
    (∀ a b, nbr g' a b → nbr g a b ∨ (a ≠ b ∧ a ∈ cast r ∧ b ∈ cast r)) ∧
    (∀ a b, a ∈ actors → b ∈ cast r → a ≠ b →
       is_Some (g !! b) ∨ b ∈ actors → nbr g' a b ∧ nbr g' b a).
Proof.
  intros Hlookup. induction actors as [|x rest IH]; intros g Hsub; simpl.
  - exists g. split; [done|]. split; [|split; [done|split; [tauto|]]].
    + intros k. split; [tauto|]. intros [H|H]; [done|]. by apply elem_of_nil in H.
    + intros a b H. by apply elem_of_nil in H.
  - set (g1 := add_vertex g x "actor").
    assert (Hdom1 : ∀ k, is_Some (g1 !! k) ↔ is_Some (g !! k) ∨ k = x).
    { intros k. unfold g1. rewrite <- !elem_of_dom, dom_add_vertex.
      rewrite elem_of_union, elem_of_singleton. tauto. }
    unfold add_appearances. destruct (g1 !! x) as [vx|] eqn:Hvx.
    2:{ destruct (proj2 (Hdom1 x)) as [? ?]; [by right|congruence]. }
    rewrite bind_Ret. set (g2 := alter (add_appearance movie) x g1).
    assert (Hdom2 : ∀ k, is_Some (g2 !! k) ↔ is_Some (g !! k) ∨ k = x).
    { intros k. unfold g2. rewrite <- elem_of_dom, dom_alter_L, elem_of_dom.
      apply Hdom1. }
    assert (Hnbr2 : ∀ a b, nbr g2 a b ↔ nbr g a b).
    { intros a b. unfold g2. rewrite nbr_alter_same by done. apply nbr_add_vertex. }
    unfold _create_actor_graph_helper, movies_getitem. rewrite Hlookup, bind_Ret.
    destruct (link_cast_spec x (cast r) g2) as (g3 & Hrun3 & Hdom3 & Hnbr3).
    { apply Hdom2. by right. }
    rewrite Hrun3, bind_Ret.
    destruct (IH g3) as (g' & Hrun & Hdom & Hmono & Hsound & Hcompl).
    { intros a Ha. apply Hsub. by right. }
    assert (Hx : x ∈ cast r) by (apply Hsub; left).
    exists g'. split; [done|]. split; [|split; [|split]].
    + intros k. rewrite Hdom, Hdom3, Hdom2, elem_of_cons. tauto.
    + intros a b H. apply Hmono, Hnbr3. left. by apply Hnbr2.
    + intros a b H. apply Hsound in H as [H|H]; [|by right].
      apply Hnbr3 in H as [H|[(-> & H1 & _ & H3)|(-> & H1 & _ & H3)]].
      * left. by apply Hnbr2.
      * right. eauto.
      * right. eauto.
    + intros a b Ha Hb Hab Hwhere.
      apply elem_of_cons in Ha as [->|Ha].
      * destruct Hwhere as [Hg|Hrest%elem_of_cons].
        -- split; apply Hmono, Hnbr3.
           ++ right. left. repeat split; [done| |congruence]. apply Hdom2. by left.
           ++ right. right. repeat split; [done| |congruence]. apply Hdom2. by left.
        -- destruct Hrest as [->|Hrest]; [done|].
           destruct (Hcompl b x) as [H1 H2]; [done|done|congruence| |done].
           left. apply Hdom3, Hdom2. by right.
      * apply Hcompl; [done|done|done|].
        destruct Hwhere as [Hg|Hrest%elem_of_cons].
        -- left. apply Hdom3, Hdom2. by left.
        -- destruct Hrest as [->|Hrest]; [|by right].
           left. apply Hdom3, Hdom2. by right.
Qed.

Lemma add_movies_spec (movies : movies_dict) keys :
  ∀ g : Graph, (∀ m, m ∈ keys → m ∈ movies.*1) →
  ∃ g', add_movies movies keys g = Ret g' ∧
    (∀ a b, nbr g a b → nbr g' a b) ∧
    (∀ a b, nbr g' a b → nbr g a b ∨ (a ≠ b ∧ share_movie movies a b)) ∧
    (∀ m r a b, m ∈ keys → movies_lookup movies m = Some r →
       a ∈ cast r → b ∈ cast r → a ≠ b → nbr g' a b).
Proof.
  induction keys as [|m rest IH]; intros g Hkeys; simpl.
  - exists g. split; [done|]. split; [done|]. split; [tauto|].
    intros m r a b H. by apply elem_of_nil in H.
  - unfold movies_getitem.
    destruct (movies_lookup movies m) as [r|] eqn:Hm.
    2:{ destruct (proj2 (movies_lookup_is_Some movies m)) as [? ?];
          [apply Hkeys; left|congruence]. }
    rewrite bind_Ret.
    destruct (add_cast_spec movies m r Hm (cast r) g) as
      (g1 & Hrun1 & Hdom1 & Hmono1 & Hsound1 & Hcompl1); [done|].
    rewrite Hrun1, bind_Ret.
    destruct (IH g1) as (g' & Hrun & Hmono & Hsound & Hcompl).
    { intros x Hx. apply Hkeys. by right. }
    exists g'. split; [done|]. split; [|split].
    + intros a b H. by apply Hmono, Hmono1.
    + intros a b H. apply Hsound in H as [H|H]; [|by right].
      apply Hsound1 in H as [H|(H1 & H2 & H3)]; [by left|].
      right. split; [done|]. exists m, r. done.
    + intros m' r' a b Hm' Hl Ha Hb Hab.
      apply elem_of_cons in Hm' as [->|Hm']; [|by eapply Hcompl].
      assert (r' = r) as -> by congruence.
      apply Hmono. apply (Hcompl1 a b); [done|done|done|by right].
Qed.

(** C2.  [create_actor_graph] returns a graph in which two distinct actors are
    adjacent if and only if some movie's cast holds both of them.  (Actors of
    no cast are in no movie's cast and have no vertex, so the equivalence needs
    no assumption on where the two actors appear.) *)
Theorem actor_graph_adjacent_iff_share (movies : movies_dict) :
  ∃ g, create_actor_graph movies = Ret g ∧
    ∀ a b, a ≠ b → (adjacent g a b = true ↔ share_movie movies a b).
Proof.
  unfold create_actor_graph.
  destruct (add_movies_spec movies (movies.*1) empty_graph) as
    (g & Hrun & _ & Hsound & Hcompl); [done|].
  exists g. split; [done|]. intros a b Hab. split.
  - intros [H _]%adjacent_true. apply Hsound in H as [H|[_ H]]; [|done].
    destruct H as (v & Hv & _). unfold empty_graph in Hv.
    by rewrite lookup_empty in Hv.
  - intros (m & r & Hm & Ha & Hb).
    assert (Hkey : m ∈ movies.*1) by (apply movies_lookup_is_Some; eauto).
    apply adjacent_true. split.
    + by apply (Hcompl m r).
    + apply (nbr_in_graph g b a). apply (Hcompl m r); [done|done|done|done|congruence].
Qed.

(** ** Walks *)

Lemma is_walk_cons g a b rest :
  is_walk g (a :: b :: rest) ↔ adjacent g a b = true ∧ is_walk g (b :: rest).
Proof. reflexivity. Qed.

Lemma is_walk_snoc g p c n :
  is_walk g p → last p = Some c → adjacent g c n = true → is_walk g (p ++ [n]).
Proof.
  induction p as [|a rest IH]; [discriminate|].
  destruct rest as [|b rest'].
  - intros _ [= ->] Hadj. simpl. done.
  - intros [Hab Hw]%is_walk_cons Hlast Hadj.
    change ((a :: b :: rest') ++ [n]) with (a :: b :: (rest' ++ [n])).
    apply is_walk_cons. split; [done|]. by apply IH.
Qed.

Lemma connects_nonempty g s t p : connects g s t p → 1 ≤ length p.
Proof. intros (Hh & _ & _). destruct p; [discriminate|simpl; lia]. Qed.

Lemma connects_refl g s : connects g s s [s].
Proof. by repeat split. Qed.

Lemma connects_snoc g s c n p :
  connects g s c p → adjacent g c n = true → connects g s n (p ++ [n]).
Proof.
  intros (Hh & Hl & Hw) Hadj. repeat split.
  - destruct p; [discriminate|done].
  - by rewrite last_snoc.
  - by eapply is_walk_snoc.
Qed.

(** A walk that starts inside a set and ends outside it crosses its border. *)
Lemma walk_crossing g (V : gset string) q :
  ∀ a n, connects g a n q → a ∈ V → n ∉ V →
  ∃ q1 x y, connects g a x q1 ∧ x ∈ V ∧ (y ∉ V) ∧ adjacent g x y = true ∧
            length q1 + 1 ≤ length q.
Proof.
  induction q as [|a' rest IH]; intros a n (Hh & Hl & Hw) Ha Hn; [discriminate|].
  injection Hh as ->. destruct rest as [|b rest'].
  - injection Hl as ->. done.
  - apply is_walk_cons in Hw as [Hab Hw].
    destruct (decide (b ∈ V)) as [Hb|Hb].
    + destruct (IH b n) as (q1 & x & y & (Hh1 & Hl1 & Hw1) & Hx & Hy & Hxy & Hlen);
        [by repeat split|done|done|].
      exists (a :: q1), x, y. repeat split; try done.
      * destruct q1; [discriminate|]. by rewrite last_cons, Hl1.
      * destruct q1 as [|b' q1']; [done|]. injection Hh1 as ->.
        apply is_walk_cons. done.
      * simpl in *. lia.
    + exists [a], a, b. repeat split; try done. simpl. lia.
Qed.

(** A set that holds [s] and is closed under neighbours holds everything
    reachable from [s]. *)
Lemma closed_reachable g (V : gset string) s x q :
  (∀ u n, u ∈ V → nbr g u n → n ∈ V) → s ∈ V → connects g s x q → x ∈ V.
Proof.
  intros Hclosed Hs Hq. destruct (decide (x ∈ V)) as [|Hx]; [done|].
  destruct (walk_crossing g V q s x Hq Hs Hx) as (q1 & u & y & _ & Hu & Hy & Hadj & _).
  apply adjacent_true in Hadj as [Hadj _]. destruct Hy. by eapply Hclosed.
Qed.

Lemma reachable_step g s c n :
  wf g → reachable g s c → nbr g c n → reachable g s n.
Proof.
  intros Hwf [p Hp] Hn. exists (p ++ [n]). eapply connects_snoc; [done|].
  by apply wf_adjacent.
Qed.

(** ** Queue levels *)

Lemma levels_bounds d queue e :
  levels d queue → e ∈ queue → d ≤ length e.2 ≤ S d.
Proof.
  intros (q1 & q2 & -> & H1 & H2) [Hin|Hin]%elem_of_app.
  - rewrite Forall_forall in H1. rewrite (H1 e Hin). lia.
  - rewrite Forall_forall in H2. rewrite (H2 e Hin). lia.
Qed.

Lemma levels_snoc d queue n p :
  levels d queue → length p = S d → levels d (queue ++ [(n, p)]).
Proof.
  intros (q1 & q2 & -> & H1 & H2) Hp. exists q1, (q2 ++ [(n, p)]).
  split; [by rewrite app_assoc|]. split; [done|].
  apply Forall_app. split; [done|]. by apply Forall_singleton.
Qed.

Lemma levels_qsorted d queue : levels d queue → qsorted queue.
Proof.
  intros (q1 & q2 & -> & H1 & H2). destruct q1 as [|[c p] q1']; simpl.
  - destruct q2 as [|[c p] q2']; simpl; [done|].
    apply Forall_cons in H2 as [Hp H2]. simpl in Hp. rewrite Hp.
    exists q2', []. rewrite app_nil_r. done.
  - apply Forall_cons in H1 as [Hp H1]. simpl in Hp. rewrite Hp.
    exists q1', q2. done.
Qed.

(** ** Counting the vertices still unvisited *)

Lemma size_unvisited_add (D V : gset string) n :
  n ∈ D → n ∉ V → size (D ∖ ({[n]} ∪ V)) + 1 = size (D ∖ V).
Proof.
  intros HD HV.
  assert (Heq : D ∖ V = {[n]} ∪ D ∖ ({[n]} ∪ V)).
  { apply set_eq. intros x.
    rewrite elem_of_union, !elem_of_difference, elem_of_union, elem_of_singleton.
    destruct (decide (x = n)) as [->|]; tauto. }
  rewrite Heq, (size_union ({[n]} : gset string) (D ∖ ({[n]} ∪ V))), size_singleton;
    [lia|].
  intros x. rewrite elem_of_singleton, elem_of_difference, elem_of_union,
    elem_of_singleton. tauto.
Qed.

Lemma size_unvisited_start (g : Graph) s :
  is_Some (g !! s) → 1 + size (dom g ∖ {[s]}) = size g.
Proof.
  intros Hs%elem_of_dom. rewrite <- size_dom.
  assert (Heq : dom g = {[s]} ∪ dom g ∖ {[s]}).
  { apply set_eq. intros x.
    rewrite elem_of_union, elem_of_difference, elem_of_singleton.
    destruct (decide (x = s)) as [->|]; tauto. }
  rewrite Heq at 2.
  rewrite (size_union ({[s]} : gset string) (dom g ∖ {[s]})), size_singleton; [done|].
  intros x. rewrite elem_of_singleton, elem_of_difference, elem_of_singleton. tauto.
Qed.

(** ** Correctness of [shortest_path_bfs] *)

Section bfs.
Context (g : Graph) (s t : string).
Hypothesis Hwf : wf g.

Lemma elem_of_fst_queue (queue : list (string * list string)) v p :
  (v, p) ∈ queue → v ∈ queue.*1.
Proof. intros H. apply list_elem_of_fmap. exists (v, p). done. Qed.

Lemma visit_neighbours_inv cur p ns :
  ∀ queue visited queue' visited',
  inner_inv g s t cur p queue visited →
  (∀ n, n ∈ ns → nbr g cur n) →
  visit_neighbours p ns queue visited = (queue', visited') →
  inner_inv g s t cur p queue' visited' ∧
  (∀ n, n ∈ ns → n ∈ visited') ∧
  (∀ n, n ∈ visited → n ∈ visited') ∧
  length queue' + size (dom g ∖ visited') = length queue + size (dom g ∖ visited).
Proof.
  induction ns as [|n ns IH]; intros queue visited queue' visited' Hinv Hns Hrun;
    simpl in Hrun.
  - injection Hrun as <- <-. split_and!; [done| |done|done].
    intros n Hn. by apply elem_of_nil in Hn.
  - destruct (decide (n ∈ visited)) as [Hn|Hn].
    + destruct (IH queue visited queue' visited' Hinv)
        as (Hinv' & Hall & Hmono & Hsize);
        [intros x Hx; apply Hns; by right|done|].
      split_and!; [done| |done|done].
      intros x [->|Hx]%elem_of_cons; [by apply Hmono|by apply Hall].
    + assert (Hcn : nbr g cur n) by (apply Hns; left).
      assert (Hng : is_Some (g !! n)) by by eapply wf_nbr.
      destruct Hinv as [[Hcp Hpmin] Hct Hcv Hq Hlev Hclosed Hs Htgt Hdom].
      assert (Hnew : shortest g s n (p ++ [n])).
      { split.
        - eapply connects_snoc; [done|]. by apply wf_adjacent.
        - intros q Hq'. rewrite length_app. simpl.
          destruct (walk_crossing g visited q s n Hq' Hs Hn)
            as (q1 & x & y & Hq1 & Hx & Hy & Hxy & Hlen).
          apply adjacent_true in Hxy as [Hxy _].
          destruct (decide (x = cur)) as [->|Hxc].
          + specialize (Hpmin q1 Hq1). lia.
          + destruct (decide (x ∈ queue.*1)) as [Hxq|Hxq].
            * apply list_elem_of_fmap in Hxq as ([x' px] & -> & Hin). simpl in *.
              destruct (Hq x' px Hin) as [[_ Hmin] _].
              specialize (Hmin q1 Hq1).
              pose proof (levels_bounds _ _ _ Hlev Hin) as Hb. simpl in Hb. lia.
            * destruct Hy. by eapply Hclosed. }
      destruct (IH (queue ++ [(n, p ++ [n])]) ({[n]} ∪ visited) queue' visited')
        as (Hinv' & Hall & Hmono & Hsize).
      * split; try done.
        -- apply elem_of_union. by right.
        -- intros v p' [Hin|Hin%list_elem_of_singleton]%elem_of_app.
           ++ destruct (Hq v p' Hin). split; [done|]. apply elem_of_union. by right.
           ++ injection Hin as -> ->. split; [done|]. apply elem_of_union. left.
              by apply elem_of_singleton.
        -- apply levels_snoc; [done|]. rewrite length_app. simpl. lia.
        -- intros u x Hu Huc Huq Hux. rewrite fmap_app, elem_of_app in Huq.
           apply elem_of_union. right.
           apply elem_of_union in Hu as [Hu%elem_of_singleton|Hu].
           ++ subst u. destruct Huq. right. simpl. left.
           ++ apply (Hclosed u x); [done|done|tauto|done].
        -- apply elem_of_union. by right.
        -- intros u Hu Huc Huq. rewrite fmap_app, elem_of_app in Huq.
           apply elem_of_union in Hu as [Hu%elem_of_singleton|Hu].
           ++ subst u. destruct Huq. right. simpl. left.
           ++ apply Htgt; [done|done|tauto].
        -- intros u [Hu%elem_of_singleton|Hu]%elem_of_union; [by subst u|by apply Hdom].
      * intros x Hx. apply Hns. by right.
      * done.
      * split_and!; [done| | |].
        -- intros x [->|Hx]%elem_of_cons; [|by apply Hall].
           apply Hmono, elem_of_union. left. by apply elem_of_singleton.
        -- intros x Hx. apply Hmono, elem_of_union. by right.
        -- rewrite Hsize, length_app. simpl.
           pose proof (size_unvisited_add (dom g) visited n) as Hsz.
           rewrite elem_of_dom in Hsz. specialize (Hsz Hng Hn). lia.
Qed.

Lemma outer_inv_start : is_Some (g !! s) → outer_inv g s t [(s, [s])] {[s]}.
Proof.
  intros Hs. split.
  - intros v p Hin%list_elem_of_singleton. injection Hin as -> ->.
    split; [|by apply elem_of_singleton]. split; [apply connects_refl|].
    intros q Hq. apply connects_nonempty in Hq. simpl. lia.
  - simpl. exists [], []. done.
  - intros u n Hu%elem_of_singleton Hq. subst u. destruct Hq. simpl. left.
  - by apply elem_of_singleton.
  - intros u Hu%elem_of_singleton Hq. subst u. destruct Hq. simpl. left.
  - intros u Hu%elem_of_singleton. by subst u.
Qed.

Lemma bfs_loop_correct fuel :
  ∀ queue visited,
  outer_inv g s t queue visited →
  length queue + size (dom g ∖ visited) ≤ fuel →
  ∃ p, bfs_loop fuel g t queue visited = Ret p ∧
       ((p = [] ∧ ¬ reachable g s t) ∨ shortest g s t p).
Proof.
  induction fuel as [|fuel IH]; intros queue visited Hinv Hfuel.
  - destruct queue as [|[cur p] rest]; [|simpl in Hfuel; lia].
    exists []. split; [done|]. left. split; [done|]. intros [q Hq].
    destruct Hinv as [_ _ Hclosed Hs Htgt _].
    apply (Htgt t); [|by intros H%elem_of_nil|done].
    eapply closed_reachable; [|exact Hs|exact Hq].
    intros u n Hu. apply Hclosed; [done|]. by intros H%elem_of_nil.
  - destruct queue as [|[cur p] rest].
    { exists []. split; [done|]. left. split; [done|]. intros [q Hq].
      destruct Hinv as [_ _ Hclosed Hs Htgt _].
      apply (Htgt t); [|by intros H%elem_of_nil|done].
      eapply closed_reachable; [|exact Hs|exact Hq].
      intros u n Hu. apply Hclosed; [done|]. by intros H%elem_of_nil. }
    simpl. destruct Hinv as [Hq Hsorted Hclosed Hs Htgt Hdom].
    destruct (Hq cur p) as [Hcur Hcv]; [left|].
    destruct (decide (cur = t)) as [->|Hct].
    { exists p. split; [done|]. by right. }
    unfold getitem. destruct (Hdom cur Hcv) as [v Hv]. rewrite Hv, bind_Ret.
    destruct (visit_neighbours p (neighbours v) rest visited) as [queue' visited'] eqn:Hrun.
    destruct (visit_neighbours_inv cur p (neighbours v) rest visited queue' visited')
      as (Hinv' & Hall & Hmono & Hsize).
    + split; try done.
      * intros x p' Hin. apply Hq. by right.
      * intros u n Hu Huc Hur. apply Hclosed; [done|].
        simpl. rewrite elem_of_cons. tauto.
      * intros u Hu Huc Hur. apply Htgt; [done|].
        simpl. rewrite elem_of_cons. tauto.
    + intros n Hn. exists v. done.
    + done.
    + apply IH.
      * destruct Hinv' as [_ _ Hcv' Hq' Hlev' Hclosed' Hs' Htgt' Hdom'].
        split; try done.
        -- by eapply levels_qsorted.
        -- intros u n Hu Huq Hun. destruct (decide (u = cur)) as [->|Huc].
           ++ apply Hall. destruct Hun as (v' & Hv' & Hin). congruence.
           ++ by apply (Hclosed' u n).
        -- intros u Hu Huq. destruct (decide (u = cur)) as [->|Huc]; [done|].
           by apply Htgt'.
      * simpl in Hfuel. lia.
Qed.

Lemma shortest_path_bfs_correct :
  is_Some (g !! s) → is_Some (g !! t) →
  ∃ p, shortest_path_bfs g s t = Ret p ∧
       ((p = [] ∧ ¬ reachable g s t) ∨ shortest g s t p).
Proof.
  intros Hs Ht. unfold shortest_path_bfs.
  rewrite decide_False.
  2:{ intros [H|H]; rewrite H in *; by eapply is_Some_None. }
  apply bfs_loop_correct; [by apply outer_inv_start|].
  simpl. rewrite <- (size_unvisited_start g s Hs). lia.
Qed.

End bfs.

(** ** [shortest_distance_bfs] *)

Section distances.
Context (g : Graph) (s : string).
Hypothesis Hwf : wf g.

Lemma visit_neighbours_dist_inv cur ns :
  ∀ distances queue visited,
  dist_inv g s distances queue visited → cur ∈ visited →
  (∀ n, n ∈ ns → nbr g cur n) →
  ∃ distances' queue' visited',
    visit_neighbours_dist s cur ns distances queue visited =
      Ret (distances', queue', visited') ∧
    dist_inv g s distances' queue' visited' ∧
    length queue' + size (dom g ∖ visited') = length queue + size (dom g ∖ visited).
Proof.
  induction ns as [|n ns IH]; intros distances queue visited Hinv Hcur Hns; simpl.
  - eauto 10.
  - assert (Hns' : ∀ x, x ∈ ns → nbr g cur x) by (intros x Hx; apply Hns; by right).
    destruct (decide (n ≠ s ∧ n ∉ visited)) as [[Hne Hn]|_]; [|by apply IH].
    destruct Hinv as [Hdom Hreach Hunv Hq Hvis].
    assert (Hcn : nbr g cur n) by (apply Hns; left).
    assert (Hng : is_Some (g !! n)) by by eapply wf_nbr.
    assert (is_Some (distances !! cur)) as [d Hd].
    { apply elem_of_dom. rewrite Hdom. apply elem_of_dom. by apply Hvis. }
    unfold getitem. rewrite Hd, bind_Ret.
    destruct (IH (<[n := dist_succ d]> distances) (queue ++ [n]) ({[n]} ∪ visited))
      as (distances' & queue' & visited' & Hrun & Hinv' & Hsize).
    + split.
      * rewrite dom_insert_L, Hdom. apply set_eq. intros x.
        rewrite elem_of_union, elem_of_singleton, elem_of_dom.
        split; [intros [->|H]; done|tauto].
      * intros v [Hv%elem_of_singleton|Hv]%elem_of_union; [|by apply Hreach].
        subst v. eapply reachable_step; [done|by apply Hreach|done].
      * intros v Hv Hg. rewrite not_elem_of_union, not_elem_of_singleton in Hv.
        destruct Hv as [Hvn Hv]. rewrite lookup_insert_ne by done. by apply Hunv.
      * intros v [Hv|Hv%list_elem_of_singleton]%elem_of_app; apply elem_of_union.
        -- right. by apply Hq.
        -- left. by apply elem_of_singleton.
      * intros v [Hv%elem_of_singleton|Hv]%elem_of_union; [by subst v|by apply Hvis].
    + apply elem_of_union. by right.
    + done.
    + exists distances', queue', visited'. split; [done|]. split; [done|].
      rewrite Hsize, length_app. simpl.
      pose proof (size_unvisited_add (dom g) visited n) as Hsz.
      rewrite elem_of_dom in Hsz. specialize (Hsz Hng Hn). lia.
Qed.

Lemma dist_loop_correct fuel :
  ∀ distances queue visited,
  dist_inv g s distances queue visited →
  length queue + size (dom g ∖ visited) ≤ fuel →
  ∃ distances', dist_loop fuel g s distances queue visited = Ret distances' ∧
    dom distances' = dom g ∧
    ∀ v, is_Some (g !! v) → ¬ reachable g s v → distances' !! v = Some Infinity.
Proof.
  induction fuel as [|fuel IH]; intros distances queue visited Hinv Hfuel.
  - destruct queue as [|cur rest]; [|simpl in Hfuel; lia].
    exists distances. destruct Hinv as [Hdom Hreach Hunv _ _].
    split; [done|]. split; [done|]. intros v Hv Hnr. apply Hunv; [|done].
    intros Hin. by apply Hnr, Hreach.
  - destruct queue as [|cur rest].
    { exists distances. destruct Hinv as [Hdom Hreach Hunv _ _].
      split; [done|]. split; [done|]. intros v Hv Hnr. apply Hunv; [|done].
      intros Hin. by apply Hnr, Hreach. }
    simpl. pose proof Hinv as [Hdom Hreach Hunv Hq Hvis].
    assert (Hcv : cur ∈ visited) by (apply Hq; left).
    unfold getitem at 1. destruct (Hvis cur Hcv) as [v Hv]. rewrite Hv, bind_Ret.
    destruct (visit_neighbours_dist_inv cur (neighbours v) distances rest visited)
      as (distances' & queue' & visited' & Hrun & Hinv' & Hsize).
    + split; try done. intros x Hx. apply Hq. by right.
    + done.
    + intros n Hn. exists v. done.
    + rewrite Hrun, bind_Ret. apply IH; [done|]. simpl in Hfuel. lia.
Qed.

Lemma dist_inv_start :
  is_Some (g !! s) →
  dist_inv g s (<[s := Finite 0]> ((λ _, Infinity) <$> g)) [s] {[s]}.
Proof.
  intros Hs. split.
  - rewrite dom_insert_L, dom_fmap_L. apply set_eq. intros x.
    rewrite elem_of_union, elem_of_singleton, elem_of_dom.
    split; [intros [->|H]; done|tauto].
  - intros v Hv%elem_of_singleton. subst v. exists [s]. apply connects_refl.
  - intros v Hv%not_elem_of_singleton [x Hx].
    rewrite lookup_insert_ne by done. by rewrite lookup_fmap, Hx.
  - intros v Hv%list_elem_of_singleton. subst v. by apply elem_of_singleton.
  - intros v Hv%elem_of_singleton. by subst v.
Qed.

(** C6.  The mapping returned by [shortest_distance_bfs] has an entry for
    every vertex of the graph except the start, which it leaves out, and the
    entry of a vertex that cannot be reached from the start is the
    infinite-distance sentinel. *)
Theorem shortest_distance_bfs_entries :
  is_Some (g !! s) →
  ∃ distances, shortest_distance_bfs g s = Ret distances ∧
    dom distances = dom g ∖ {[s]} ∧
    distances !! s = None ∧
    ∀ v, is_Some (g !! v) → v ≠ s → ¬ reachable g s v →
         distances !! v = Some Infinity.
Proof.
  intros Hs. unfold shortest_distance_bfs. rewrite decide_False.
  2:{ intros H. rewrite H in Hs. by eapply is_Some_None. }
  destruct (dist_loop_correct (size g) (<[s := Finite 0]> ((λ _, Infinity) <$> g))
              [s] {[s]}) as (distances' & Hrun & Hdom & Hinf).
  { by apply dist_inv_start. }
  { simpl. rewrite <- (size_unvisited_start g s Hs). lia. }
  simpl. rewrite Hrun, bind_Ret. eexists. split; [done|].
  assert (Hlook : ∀ v, v ≠ s →
            filter (λ kv : string * distance, kv.1 ≠ s) distances' !! v =
            distances' !! v).
  { intros v Hv. destruct (distances' !! v) as [d|] eqn:Hd.
    - by apply map_lookup_filter_Some.
    - apply map_lookup_filter_None. left. done. }
  assert (Hstart : filter (λ kv : string * distance, kv.1 ≠ s) distances' !! s = None).
  { apply map_lookup_filter_None. right. intros d _ Hne. by apply Hne. }
  split; [|split; [done|]].
  - apply set_eq. intros v.
    rewrite elem_of_difference, not_elem_of_singleton, <- Hdom, !elem_of_dom.
    destruct (decide (v = s)) as [->|Hv].
    + rewrite Hstart. split; [by intros ?%is_Some_None|tauto].
    + rewrite Hlook by done. tauto.
  - intros v Hv Hne Hnr. rewrite Hlook by done. by apply Hinf.
Qed.

End distances.

(** ** The two searches agree *)

Lemma visit_neighbours_dist_stable s cur ns :
  ∀ distances queue visited distances' queue' visited',
  visit_neighbours_dist s cur ns distances queue visited =
    Ret (distances', queue', visited') →
  (∀ x, x ∈ visited → x ∈ visited') ∧
  (∀ x, x ∈ visited → distances' !! x = distances !! x).
Proof.
  induction ns as [|n ns IH];
    intros distances queue visited distances' queue' visited' Hrun; simpl in Hrun.
  - injection Hrun as <- <- <-. done.
  - destruct (decide (n ≠ s ∧ n ∉ visited)) as [[Hne Hn]|_]; [|by eapply IH].
    apply bind_inv_Ret in Hrun as (d & _ & Hrun).
    apply IH in Hrun as [Hmono Hsame]. split.
    + intros x Hx. apply Hmono, elem_of_union. by right.
    + intros x Hx. rewrite Hsame by (apply elem_of_union; by right).
      apply lookup_insert_ne. by intros ->.
Qed.

Lemma dist_loop_stable g s fuel :
  ∀ distances queue visited distances',
  dist_loop fuel g s distances queue visited = Ret distances' →
  ∀ x, x ∈ visited → distances' !! x = distances !! x.
Proof.
  induction fuel as [|fuel IH]; intros distances queue visited distances' Hrun x Hx;
    destruct queue as [|cur rest]; simpl in Hrun; try by injection Hrun as <-.
  - discriminate.
  - apply bind_inv_Ret in Hrun as (v & _ & Hrun).
    apply bind_inv_Ret in Hrun as ([[d1 q1] v1] & Hvisit & Hrun).
    apply visit_neighbours_dist_stable in Hvisit as [Hmono Hsame].
    rewrite (IH _ _ _ _ Hrun) by by apply Hmono. by apply Hsame.
Qed.

Lemma visit_neighbours_in_step s cur p ns :
  ∀ queue visited distances queue' visited',
  p ≠ [] → s ∈ visited → cur ∈ visited →
  distances !! cur = Some (Finite (length p - 1)) →
  in_step queue visited distances →
  visit_neighbours p ns queue visited = (queue', visited') →
  ∃ distances',
    visit_neighbours_dist s cur ns distances queue.*1 visited =
      Ret (distances', queue'.*1, visited') ∧
    in_step queue' visited' distances' ∧ s ∈ visited'.
Proof.
  intros queue visited distances queue' visited' Hp.
  revert queue visited distances queue' visited'.
  induction ns as [|n ns IH];
    intros queue visited distances queue' visited' Hs Hcur Hd Hstep Hrun;
    simpl in Hrun; simpl.
  - injection Hrun as <- <-. eauto.
  - destruct (decide (n ∈ visited)) as [Hn|Hn].
    + rewrite decide_False by tauto. by apply IH.
    + rewrite decide_True.
      2:{ split; [|done]. by intros ->. }
      unfold getitem. rewrite Hd, bind_Ret.
      replace (queue.*1 ++ [n]) with ((queue ++ [(n, p ++ [n])]).*1)
        by by rewrite fmap_app.
      apply IH; [apply elem_of_union; by right|apply elem_of_union; by right| |
                 |by apply Hrun].
      * rewrite lookup_insert_ne; [done|]. by intros ->.
      * intros v p' [Hin|Hin%list_elem_of_singleton]%elem_of_app.
        -- destruct (Hstep v p' Hin) as (Hv & Hvis & Hne).
           split; [|split; [apply elem_of_union; by right|done]].
           rewrite lookup_insert_ne; [done|]. by intros ->.
        -- injection Hin as -> ->. split; [|split].
           ++ rewrite lookup_insert_eq, length_app. simpl. do 2 f_equal.
              destruct p; [done|simpl; lia].
           ++ apply elem_of_union. left. by apply elem_of_singleton.
           ++ by destruct p.
Qed.

Lemma bfs_loop_in_step g s t fuel :
  ∀ fuel' queue visited distances p distances',
  s ∈ visited → in_step queue visited distances →
  bfs_loop fuel g t queue visited = Ret p → p ≠ [] →
  dist_loop fuel' g s distances queue.*1 visited = Ret distances' →
  distances' !! t = Some (Finite (length p - 1)).
Proof.
  induction fuel as [|fuel IH];
    intros fuel' queue visited distances p distances' Hs Hstep Hpath Hp Hdist;
    destruct queue as [|[cur pc] rest]; simpl in Hpath;
    try (by injection Hpath as <-); try discriminate.
  destruct (Hstep cur pc) as (Hd & Hcv & Hpc); [left|].
  destruct (decide (cur = t)) as [->|Hct].
  - injection Hpath as <-.
    rewrite (dist_loop_stable _ _ _ _ _ _ _ Hdist) by done. done.
  - apply bind_inv_Ret in Hpath as (v & Hv & Hpath).
    destruct (visit_neighbours pc (neighbours v) rest visited)
      as [queue' visited'] eqn:Hvisit.
    destruct fuel' as [|fuel']; simpl in Hdist; [discriminate|].
    rewrite Hv, bind_Ret in Hdist.
    destruct (visit_neighbours_in_step s cur pc (neighbours v) rest visited
                distances queue' visited') as (distances1 & Hrun1 & Hstep1 & Hs1);
      try done.
    { intros x p' Hin. apply Hstep. by right. }
    unfold fmap in Hrun1. rewrite Hrun1, bind_Ret in Hdist. by eapply IH.
Qed.

(** ** [shortest_path_bfs] returns a shortest path *)

Lemma shortest_min_hops g s t p : shortest g s t p → min_hops g s t (length p - 1).
Proof.
  intros [Hp Hmin]. split; [by exists p|]. intros q Hq.
  specialize (Hmin q Hq). lia.
Qed.

(** C1 (amended).  When the target can be reached from the start,
    [shortest_path_bfs] returns a walk from start to target whose number of
    edges is the minimum hop count; and when target and start differ, that
    number is the target's entry in the mapping of [shortest_distance_bfs].
    (That mapping has no entry for the start itself.) *)
Theorem shortest_path_bfs_min_hops g s t :
  wf g → is_Some (g !! s) → is_Some (g !! t) → reachable g s t →
  ∃ p, shortest_path_bfs g s t = Ret p ∧
    connects g s t p ∧
    min_hops g s t (length p - 1) ∧
    (s ≠ t → ∃ distances, shortest_distance_bfs g s = Ret distances ∧
                          distances !! t = Some (Finite (length p - 1))).
Proof.
  intros Hwf Hs Ht Hreach.
  destruct (shortest_path_bfs_correct g s t Hwf Hs Ht) as (p & Hrun & [[_ Hno]|Hsh]);
    [done|].
  exists p. split; [done|]. split; [by destruct Hsh|].
  split; [by apply shortest_min_hops|]. intros Hne.
  pose proof Hrun as Hrun'. unfold shortest_path_bfs in Hrun'.
  rewrite decide_False in Hrun'.
  2:{ intros [H|H]; rewrite H in *; by eapply is_Some_None. }
  assert (Hp : p ≠ []).
  { destruct Hsh as [Hc _]. apply connects_nonempty in Hc.
    intros ->. simpl in Hc. lia. }
  unfold shortest_distance_bfs. rewrite decide_False.
  2:{ intros H. rewrite H in Hs. by eapply is_Some_None. }
  destruct (dist_loop_correct g s Hwf (size g)
              (<[s := Finite 0]> ((λ _, Infinity) <$> g)) [s] {[s]})
    as (distances' & Hdist & _ & _).
  { by apply dist_inv_start. }
  { simpl. rewrite <- (size_unvisited_start g s Hs). lia. }
  simpl. rewrite Hdist, bind_Ret. eexists. split; [done|].
  apply map_lookup_filter_Some. split; [|simpl; congruence].
  eapply (bfs_loop_in_step g s t (size g) (size g) [(s, [s])]); try done.
  - by apply elem_of_singleton.
  - intros v p' Hin%list_elem_of_singleton. injection Hin as -> ->.
    split; [by rewrite lookup_insert_eq|]. split; [by apply elem_of_singleton|done].
Qed.

(** C4.  [shortest_path_bfs] raises [ValueError] when the start or the target
    is not a vertex of the graph, before any search; when both are vertices
    and no walk connects them it returns the empty list and raises nothing. *)
Theorem shortest_path_bfs_no_path_vs_invalid g s t :
  (g !! s = None ∨ g !! t = None → shortest_path_bfs g s t = Raise ValueError) ∧
  (wf g → is_Some (g !! s) → is_Some (g !! t) → ¬ reachable g s t →
   shortest_path_bfs g s t = Ret []).
Proof.
  split.
  - intros H. unfold shortest_path_bfs. by rewrite decide_True.
  - intros Hwf Hs Ht Hno.
    destruct (shortest_path_bfs_correct g s t Hwf Hs Ht)
      as (p & Hrun & [[-> _]|[Hc _]]); [done|].
    destruct Hno. by exists p.
Qed.

(** ** [shortest_path_bfs_filtered] *)

Lemma filter_by_key_Ret_inv (g : Graph) a1 a2 key thresholds movies r :
  filter_by_key g (a1, a2) key thresholds movies = Ret r →
  is_Some (g !! a1) ∧ is_Some (g !! a2).
Proof.
  unfold filter_by_key. destruct thresholds as [lower upper].
  destruct (g !! a1); [|discriminate]. destruct (g !! a2); [|discriminate]. eauto.
Qed.

Lemma filter_by_key_invalid_key (g : Graph) a1 a2 key thresholds movies :
  key ≠ "release date" → key ≠ "rating" →
  is_Some (g !! a1) → is_Some (g !! a2) →
  filter_by_key g (a1, a2) key thresholds movies = Raise KeyError.
Proof.
  intros Hk1 Hk2 [v1 H1] [v2 H2]. unfold filter_by_key.
  destruct thresholds as [lower upper]. rewrite H1, H2.
  by rewrite !decide_False.
Qed.

Lemma filter_by_key_fuel (g : Graph) actors key thresholds movies :
  filter_by_key g actors key thresholds movies ≠ OutOfFuel.
Proof.
  unfold filter_by_key. destruct thresholds as [lower upper], actors as [a1 a2].
  destruct (g !! a1) as [v1|]; [|done]. destruct (g !! a2) as [v2|]; [|done].
  repeat case_decide; try done.
  - pose proof (filter_movies_fuel year lower upper movies
                  (elements (appearances v1 ∩ appearances v2))) as H'.
    destruct (filter_movies _ _ _ _ _); [|done|done].
    rewrite bind_Ret. by case_decide.
  - pose proof (filter_movies_fuel rating lower upper movies
                  (elements (appearances v1 ∩ appearances v2))) as H'.
    destruct (filter_movies _ _ _ _ _); [|done|done].
    rewrite bind_Ret. by case_decide.
Qed.

Section filtered.
Context (g : Graph) (s t key : string) (thresholds : Q * Q) (movies : movies_dict).

Lemma visit_neighbours_filtered_inv cur p ns :
  ∀ queue visited queue' visited',
  connects g s cur p → (∀ n, n ∈ ns → nbr g cur n) →
  (∀ x p', (x, p') ∈ queue → connects g s x p') →
  (∀ x, x ∈ visited → is_Some (g !! x)) →
  visit_neighbours_filtered g key thresholds movies cur p ns queue visited =
    Ret (queue', visited') →
  (∀ x p', (x, p') ∈ queue' → connects g s x p') ∧
  (∀ x, x ∈ visited' → is_Some (g !! x)) ∧
  length queue' + size (dom g ∖ visited') ≤ length queue + size (dom g ∖ visited).
Proof.
  induction ns as [|n ns IH]; intros queue visited queue' visited' Hp Hns Hq Hvis Hrun;
    simpl in Hrun.
  - injection Hrun as <- <-. done.
  - assert (Hns' : ∀ x, x ∈ ns → nbr g cur x) by (intros x Hx; apply Hns; by right).
    destruct (decide (n ∈ visited)) as [Hn|Hn]; [by eapply IH|].
    apply bind_inv_Ret in Hrun as ([is_valid common] & Hfilter & Hrun).
    apply filter_by_key_Ret_inv in Hfilter as [_ Hng].
    destruct is_valid; simpl in Hrun; [|by eapply IH].
    apply IH in Hrun as (Hq' & Hvis' & Hsize); try done.
    + split; [done|]. split; [done|]. rewrite length_app in Hsize. simpl in Hsize.
      pose proof (size_unvisited_add (dom g) visited n) as Hsz.
      rewrite elem_of_dom in Hsz. specialize (Hsz Hng Hn). lia.
    + intros x p' [Hin|Hin%list_elem_of_singleton]%elem_of_app; [by apply Hq|].
      injection Hin as -> ->. eapply connects_snoc; [done|].
      apply adjacent_true. split; [|done]. apply Hns. left.
    + intros x [Hx%elem_of_singleton|Hx]%elem_of_union; [by subst x|by apply Hvis].
Qed.

Lemma visit_neighbours_filtered_fuel cur p ns :
  ∀ queue visited,
  visit_neighbours_filtered g key thresholds movies cur p ns queue visited ≠ OutOfFuel.
Proof.
  induction ns as [|n ns IH]; intros queue visited; simpl; [done|].
  case_decide; [apply IH|].
  pose proof (filter_by_key_fuel g (cur, n) key thresholds movies) as Hf.
  destruct (filter_by_key g (cur, n) key thresholds movies) as [[b c]| |];
    [|done|done].
  rewrite bind_Ret. destruct b; simpl; apply IH.
Qed.

Lemma bfs_filtered_loop_walk fuel :
  ∀ queue visited p,
  (∀ x p', (x, p') ∈ queue → connects g s x p') →
  (∀ x, x ∈ visited → is_Some (g !! x)) →
  bfs_filtered_loop fuel g t key thresholds movies queue visited = Ret p →
  p ≠ [] → connects g s t p.
Proof.
  induction fuel as [|fuel IH]; intros queue visited p Hq Hvis Hrun Hp;
    destruct queue as [|[cur pc] rest]; simpl in Hrun;
    try (by injection Hrun as <-); try discriminate.
  assert (Hcur : connects g s cur pc) by (apply Hq; left).
  destruct (decide (cur = t)) as [->|Hct]; [by injection Hrun as <-|].
  apply bind_inv_Ret in Hrun as (v & Hv & Hrun).
  apply bind_inv_Ret in Hrun as ([queue' visited'] & Hvisit & Hrun).
  unfold getitem in Hv. destruct (g !! cur) as [v'|] eqn:Hcv; [|discriminate].
  injection Hv as ->.
  apply visit_neighbours_filtered_inv in Hvisit as (Hq' & Hvis' & _); try done.
  - by eapply IH.
  - intros n Hn. by exists v.
  - intros x p' Hin. apply Hq. by right.
Qed.

Lemma bfs_filtered_loop_fuel fuel :
  ∀ queue visited,
  (∀ x p', (x, p') ∈ queue → connects g s x p') →
  (∀ x, x ∈ visited → is_Some (g !! x)) →
  length queue + size (dom g ∖ visited) ≤ fuel →
  bfs_filtered_loop fuel g t key thresholds movies queue visited ≠ OutOfFuel.
Proof.
  induction fuel as [|fuel IH]; intros queue visited Hq Hvis Hfuel;
    destruct queue as [|[cur pc] rest]; simpl; try done.
  { simpl in Hfuel. lia. }
  assert (Hcur : connects g s cur pc) by (apply Hq; left).
  case_decide; [done|]. unfold getitem.
  destruct (g !! cur) as [v|] eqn:Hcv; [|done]. rewrite bind_Ret.
  pose proof (visit_neighbours_filtered_fuel cur pc (neighbours v) rest visited) as Hf.
  destruct (visit_neighbours_filtered g key thresholds movies cur pc (neighbours v)
              rest visited) as [[queue' visited']| |] eqn:Hvisit; [|done|done].
  rewrite bind_Ret.
  apply visit_neighbours_filtered_inv in Hvisit as (Hq' & Hvis' & Hsize); try done.
  - apply IH; [done|done|]. simpl in Hfuel. lia.
  - intros n Hn. by exists v.
  - intros x p' Hin. apply Hq. by right.
Qed.

(** The fuel given to the filtered search is always enough. *)
Lemma shortest_path_bfs_filtered_fuel :
  shortest_path_bfs_filtered g (s, t) key thresholds movies ≠ OutOfFuel.
Proof.
  unfold shortest_path_bfs_filtered. simpl. case_decide as Hpresent; [done|].
  assert (Hs : is_Some (g !! s)).
  { destruct (g !! s) eqn:H'; [eauto|]. destruct Hpresent. by left. }
  rewrite <- surjective_pairing. apply bfs_filtered_loop_fuel.
  - intros x p' Hin%list_elem_of_singleton. injection Hin as -> ->.
    apply connects_refl.
  - intros x Hx%elem_of_singleton. by subst x.
  - simpl. rewrite <- (size_unvisited_start g s Hs). lia.
Qed.

Lemma shortest_path_bfs_filtered_walk p :
  shortest_path_bfs_filtered g (s, t) key thresholds movies = Ret p → p ≠ [] →
  connects g s t p.
Proof.
  unfold shortest_path_bfs_filtered. simpl. case_decide as Hpresent; [done|].
  assert (Hs : is_Some (g !! s)).
  { destruct (g !! s) eqn:H'; [eauto|]. destruct Hpresent. by left. }
  rewrite <- surjective_pairing. apply bfs_filtered_loop_walk.
  - intros x p' Hin%list_elem_of_singleton. injection Hin as -> ->.
    apply connects_refl.
  - intros x Hx%elem_of_singleton. by subst x.
Qed.

(** C3.  When the filtered and the unfiltered search both return a non-empty
    path for the same start and target, the filtered path is not shorter. *)
Theorem filtered_path_not_shorter pf pu :
  wf g →
  shortest_path_bfs_filtered g (s, t) key thresholds movies = Ret pf →
  shortest_path_bfs g s t = Ret pu →
  pf ≠ [] → pu ≠ [] →
  length pu ≤ length pf.
Proof.
  intros Hwf Hf Hu Hpf Hpu.
  pose proof (shortest_path_bfs_filtered_walk pf Hf Hpf) as Hwalk.
  assert (is_Some (g !! s) ∧ is_Some (g !! t)) as [Hs Ht].
  { unfold shortest_path_bfs in Hu. case_decide as Hpresent; [done|].
    destruct (g !! s), (g !! t); eauto; destruct Hpresent; eauto. }
  destruct (shortest_path_bfs_correct g s t Hwf Hs Ht) as (p & Hrun & Hcases).
  assert (p = pu) as -> by congruence.
  destruct Hcases as [[-> _]|[_ Hmin]]; [done|]. by apply Hmin.
Qed.

End filtered.

(** ** An unrecognised key in the filtered search *)

Section invalid_key.
Context (g : Graph) (key : string) (thresholds : Q * Q) (movies : movies_dict).
Hypothesis Hwf : wf g.
Hypothesis Hrelease : key ≠ "release date".
Hypothesis Hrating : key ≠ "rating".

(** The key is looked at when the first edge is examined: the walk over the
    start's neighbours raises as soon as it meets one other than the start. *)
Lemma visit_neighbours_filtered_invalid_key s ns :
  is_Some (g !! s) → (∀ n, n ∈ ns → is_Some (g !! n)) →
  ((∃ n, n ∈ ns ∧ n ≠ s) →
   visit_neighbours_filtered g key thresholds movies s [s] ns [] {[s]} =
     Raise KeyError) ∧
  ((∀ n, n ∈ ns → n = s) →
   visit_neighbours_filtered g key thresholds movies s [s] ns [] {[s]} =
     Ret ([], {[s]})).
Proof.
  intros Hs. induction ns as [|n ns IH]; intros Hns; simpl.
  - split; [|done]. intros (n & Hn & _). by apply elem_of_nil in Hn.
  - destruct IH as [IH1 IH2]; [intros x Hx; apply Hns; by right|].
    destruct (decide (n ∈ ({[s]} : gset string))) as [Hn%elem_of_singleton|Hn].
    + subst n. split.
      * intros (x & [->|Hx]%elem_of_cons & Hne); [done|]. apply IH1. eauto.
      * intros Hall. apply IH2. intros x Hx. apply Hall. by right.
    + rewrite filter_by_key_invalid_key; [|done|done|done|apply Hns; left].
      split; [done|]. intros Hall. destruct Hn. apply elem_of_singleton.
      apply Hall. left.
Qed.

Lemma shortest_path_bfs_filtered_first_step s t :
  is_Some (g !! s) → is_Some (g !! t) →
  (s ≠ t → (∃ n, nbr g s n ∧ n ≠ s) →
   shortest_path_bfs_filtered g (s, t) key thresholds movies = Raise KeyError) ∧
  (s = t →
   shortest_path_bfs_filtered g (s, t) key thresholds movies = Ret [s]) ∧
  (s ≠ t → (∀ n, nbr g s n → n = s) →
   shortest_path_bfs_filtered g (s, t) key thresholds movies = Ret []).
Proof.
  unfold shortest_path_bfs_filtered. simpl.
  intros Hs Ht. rewrite decide_False.
  2:{ intros [H|H]; rewrite H in *; by eapply is_Some_None. }
  pose proof (size_unvisited_start g s Hs) as Hsize.
  destruct (size g) as [|fuel]; [lia|]. simpl.
  destruct Hs as [v Hv].
  destruct (visit_neighbours_filtered_invalid_key s (neighbours v)) as [Hraise Hret].
  { eauto. }
  { intros n Hn. apply (wf_nbr g s n Hwf). by exists v. }
  rewrite <- surjective_pairing.
  split; [|split].
  - intros Hne (n & (v' & Hv' & Hin) & Hns). rewrite decide_False by done.
    unfold getitem. rewrite Hv, bind_Ret. rewrite Hraise; [done|].
    exists n. split; [congruence|done].
  - intros <-. by rewrite decide_True.
  - intros Hne Hall. rewrite decide_False by done.
    unfold getitem. rewrite Hv, bind_Ret. rewrite Hret.
    + rewrite bind_Ret. by destruct fuel.
    + intros n Hn. apply Hall. by exists v.
Qed.

End invalid_key.

(** C5 (amended).  [shortest_path_bfs_filtered] raises [ValueError] when the
    start or the target is not a vertex, whatever the key.  With both present
    and a key other than the two recognised ones, it raises [KeyError] when
    start and target differ and the start has a neighbour other than itself;
    it returns the one-vertex path when start and target are the same vertex,
    and the empty path when they differ and the start has no neighbour other
    than itself. *)
Theorem shortest_path_bfs_filtered_invalid_key (g : Graph) s t key thresholds
    (movies : movies_dict) :
  (g !! s = None ∨ g !! t = None →
   shortest_path_bfs_filtered g (s, t) key thresholds movies = Raise ValueError) ∧
  (wf g → key ≠ "release date" → key ≠ "rating" →
   is_Some (g !! s) → is_Some (g !! t) →
   (s ≠ t → (∃ n, nbr g s n ∧ n ≠ s) →
    shortest_path_bfs_filtered g (s, t) key thresholds movies = Raise KeyError) ∧
   (s = t →
    shortest_path_bfs_filtered g (s, t) key thresholds movies = Ret [s]) ∧
   (s ≠ t → (∀ n, nbr g s n → n = s) →
    shortest_path_bfs_filtered g (s, t) key thresholds movies = Ret [])).
Proof.
  split.
  - intros H. unfold shortest_path_bfs_filtered. simpl. by rewrite decide_True.
  - intros Hwf Hk1 Hk2 Hs Ht.
    by apply shortest_path_bfs_filtered_first_step.
Qed.

(** ** The theorems at work on the example graphs *)

Lemma shortest_path_bfs_min_hops_doc_graph :
  wf doc_graph ∧ reachable doc_graph "actor1" "actor4" ∧
  ∃ p, shortest_path_bfs doc_graph "actor1" "actor4" = Ret p ∧
    connects doc_graph "actor1" "actor4" p ∧
    min_hops doc_graph "actor1" "actor4" (length p - 1) ∧
    ("actor1" ≠ "actor4" →
     ∃ distances, shortest_distance_bfs doc_graph "actor1" = Ret distances ∧
                  distances !! "actor4" = Some (Finite (length p - 1))).
Proof.
  assert (Hwf : wf doc_graph).
  { apply (bool_decide_unpack _). vm_compute. exact I. }
  assert (Hreach : reachable doc_graph "actor1" "actor4").
  { exists ["actor1"; "actor2"; "actor4"]. split; [reflexivity|].
    split; [reflexivity|]. split; [vm_compute; reflexivity|].
    split; [vm_compute; reflexivity|exact I]. }
  split; [exact Hwf|]. split; [exact Hreach|].
  apply (shortest_path_bfs_min_hops doc_graph "actor1" "actor4").
  - exact Hwf.
  - vm_compute. eauto.
  - vm_compute. eauto.
  - exact Hreach.
Defined.

(** The start has no entry in the mapping of [shortest_distance_bfs], so the
    path from a vertex to itself has no distance to be compared with. *)
Lemma shortest_distance_bfs_lacks_start :
  (wf one_actor ∧ is_Some (one_actor !! "actor1") ∧
   reachable one_actor "actor1" "actor1") ∧
  ¬ ∃ p distances,
      shortest_path_bfs one_actor "actor1" "actor1" = Ret p ∧
      shortest_distance_bfs one_actor "actor1" = Ret distances ∧
      distances !! "actor1" = Some (Finite (length p - 1)).
Proof.
  split.
  - split; [apply (bool_decide_unpack _); vm_compute; exact I|].
    split; [vm_compute; eauto|]. exists ["actor1"]. apply connects_refl.
  - intros (p & distances & _ & Hd & Hl). vm_compute in Hd.
    injection Hd as <-. vm_compute in Hl. discriminate.
Qed.

Lemma filtered_path_not_shorter_doc_actor_graph :
  shortest_path_bfs_filtered doc_actor_graph ("actor2", "actor4") "release date"
    (1980, 2000)%Q doc_movies = Ret ["actor2"; "actor1"; "actor4"] ∧
  shortest_path_bfs doc_actor_graph "actor2" "actor4" = Ret ["actor2"; "actor4"] ∧
  length ["actor2"; "actor4"] ≤ length ["actor2"; "actor1"; "actor4"].
Proof.
  split; [vm_compute; reflexivity|]. split; [vm_compute; reflexivity|].
  apply (filtered_path_not_shorter doc_actor_graph "actor2" "actor4" "release date"
           (1980, 2000)%Q doc_movies).
  - apply (bool_decide_unpack _). vm_compute. exact I.
  - vm_compute. reflexivity.
  - vm_compute. reflexivity.
  - discriminate.
  - discriminate.
Defined.

Lemma shortest_path_bfs_two_strangers :
  wf two_strangers ∧
  shortest_path_bfs two_strangers "actor1" "actor7" = Raise ValueError ∧
  ¬ reachable two_strangers "actor1" "actor2" ∧
  shortest_path_bfs two_strangers "actor1" "actor2" = Ret [].
Proof.
  assert (Hwf : wf two_strangers).
  { apply (bool_decide_unpack _). vm_compute. exact I. }
  assert (Hno : ¬ reachable two_strangers "actor1" "actor2").
  { intros [q Hq].
    assert (Hin : "actor2" ∈ ({["actor1"]} : gset string)).
    { apply (closed_reachable two_strangers _ "actor1" "actor2" q).
      - intros u n Hu%elem_of_singleton (v & Hv & Hn). subst u.
        vm_compute in Hv. injection Hv as <-. by apply elem_of_nil in Hn.
      - by apply elem_of_singleton.
      - exact Hq. }
    apply elem_of_singleton in Hin. discriminate. }
  split; [exact Hwf|]. split; [|split; [exact Hno|]].
  - apply (shortest_path_bfs_no_path_vs_invalid two_strangers "actor1" "actor7").
    right. vm_compute. reflexivity.
  - apply (shortest_path_bfs_no_path_vs_invalid two_strangers "actor1" "actor2").
    + exact Hwf.
    + vm_compute. eauto.
    + vm_compute. eauto.
    + exact Hno.
Defined.

Lemma shortest_path_bfs_filtered_invalid_key_doc_graph :
  wf doc_graph ∧ "votes" ≠ "release date" ∧ "votes" ≠ "rating" ∧
  shortest_path_bfs_filtered doc_graph ("actor1", "actor4") "votes" (0, 1)%Q
    test_movies = Raise KeyError ∧
  shortest_path_bfs_filtered doc_graph ("actor1", "actor7") "votes" (0, 1)%Q
    test_movies = Raise ValueError.
Proof.
  assert (Hwf : wf doc_graph).
  { apply (bool_decide_unpack _). vm_compute. exact I. }
  split; [exact Hwf|]. split; [discriminate|]. split; [discriminate|]. split.
  - apply (shortest_path_bfs_filtered_invalid_key doc_graph "actor1" "actor4"
             "votes" (0, 1)%Q test_movies).
    + exact Hwf.
    + discriminate.
    + discriminate.
    + vm_compute. eauto.
    + vm_compute. eauto.
    + discriminate.
    + exists "actor2". split; [|discriminate].
      eexists. split; [vm_compute; reflexivity|]. left.
  - apply (shortest_path_bfs_filtered_invalid_key doc_graph "actor1" "actor7"
             "votes" (0, 1)%Q test_movies).
    right. vm_compute. reflexivity.
Defined.

(** With an unrecognised key the filtered search still answers when no edge
    is examined: from a vertex to itself, and from a vertex without
    neighbours. *)
Lemma shortest_path_bfs_filtered_unchecked_key :
  ("votes" ≠ "release date" ∧ "votes" ≠ "rating" ∧
   is_Some (one_actor !! "actor1") ∧
   is_Some (two_strangers !! "actor1") ∧ is_Some (two_strangers !! "actor2")) ∧
  shortest_path_bfs_filtered one_actor ("actor1", "actor1") "votes" (0, 1)%Q
    test_movies = Ret ["actor1"] ∧
  shortest_path_bfs_filtered two_strangers ("actor1", "actor2") "votes" (0, 1)%Q
    test_movies = Ret [] ∧
  shortest_path_bfs_filtered one_actor ("actor1", "actor1") "votes" (0, 1)%Q
    test_movies ≠ Raise KeyError.
Proof.
  split.
  - split; [discriminate|]. split; [discriminate|].
    split; [vm_compute; eauto|]. split; vm_compute; eauto.
  - split; [vm_compute; reflexivity|]. split; [vm_compute; reflexivity|].
    vm_compute. discriminate.
Qed.

Lemma shortest_distance_bfs_entries_two_strangers :
  wf two_strangers ∧ ¬ reachable two_strangers "actor1" "actor2" ∧
  ∃ distances, shortest_distance_bfs two_strangers "actor1" = Ret distances ∧
    dom distances = dom two_strangers ∖ {["actor1"]} ∧
    distances !! "actor1" = None ∧
    distances !! "actor2" = Some Infinity.
Proof.
  assert (Hwf : wf two_strangers).
  { apply (bool_decide_unpack _). vm_compute. exact I. }
  assert (Hno : ¬ reachable two_strangers "actor1" "actor2").
  { intros [q Hq].
    assert (Hin : "actor2" ∈ ({["actor1"]} : gset string)).
    { apply (closed_reachable two_strangers _ "actor1" "actor2" q).
      - intros u n Hu%elem_of_singleton (v & Hv & Hn). subst u.
        vm_compute in Hv. injection Hv as <-. by apply elem_of_nil in Hn.
      - by apply elem_of_singleton.
      - exact Hq. }
    apply elem_of_singleton in Hin. discriminate. }
  split; [exact Hwf|]. split; [exact Hno|].
  destruct (shortest_distance_bfs_entries two_strangers "actor1" Hwf)
    as (distances & Hrun & Hdom & Hstart & Hinf).
  { vm_compute. eauto. }
  exists distances. split; [exact Hrun|]. split; [exact Hdom|].
  split; [exact Hstart|]. apply Hinf.
  - vm_compute. eauto.
  - discriminate.
  - exact Hno.
Defined.

Lemma constructed_edge_invariant_one_edge :
  constructed one_edge ∧ edge_invariant one_edge.
Proof.
  assert (Hc : constructed one_edge).
  { apply (constructed_add_edge two_strangers "actor1" "actor2").
    - unfold two_strangers. simpl.
      apply constructed_add_vertex, constructed_add_vertex, constructed_empty.
    - discriminate.
    - vm_compute. reflexivity. }
  split; [exact Hc|]. apply (constructed_edge_invariant one_edge Hc).
Defined.

Lemma recommended_graph_star_doc :
  ("Ghost Stories" ∉ doc_recommendations) ∧
  ∃ g, create_recommended_movie_graph "Ghost Stories" (RecList doc_recommendations)
         doc_sim_scores = Ret g ∧
    sim_score <$> g !! "Ghost Stories" = Some 1%Q ∧
    (∀ c, c ∈ doc_recommendations →
       sim_score <$> g !! c = doc_sim_scores !! c ∧
       adjacent g c "Ghost Stories" = true ∧ adjacent g "Ghost Stories" c = true) ∧
    (∀ c1 c2, c1 ∈ doc_recommendations → c2 ∈ doc_recommendations →
       c1 ≠ c2 → adjacent g c1 c2 = false).
Proof.
  assert (Hnotin : "Ghost Stories" ∉ doc_recommendations).
  { apply (bool_decide_unpack _). vm_compute. exact I. }
  split; [exact Hnotin|].
  apply (recommended_graph_star "Ghost Stories" (RecList doc_recommendations)
           doc_sim_scores Hnotin).
  intros c Hc. simpl in Hc. unfold doc_recommendations in Hc.
  repeat (apply elem_of_cons in Hc as [->|Hc]; [vm_compute; eauto|]).
  by apply elem_of_nil in Hc.
Defined.

Lemma add_sim_score_absent_vertex_empty :
  add_sim_score empty_graph "Wild Romance" doc_sim_scores = Raise KeyError.
Proof.
  apply (add_sim_score_absent_vertex empty_graph "Wild Romance" doc_sim_scores).
  - vm_compute. eauto.
  - reflexivity.
Defined.



(** ** More on the mutating operations and the queries *)

Lemma adjacent_eq (g g' : Graph) x y x' y' :
  (adjacent g x y = true ↔ adjacent g' x' y' = true) →
  adjacent g x y = adjacent g' x' y'.
Proof.
  intros H. destruct (adjacent g x y), (adjacent g' x' y'); try done.
  - symmetry. by apply H.
  - by apply H.
Qed.

Lemma set_add_id x l : x ∈ l → set_add x l = l.
Proof. intros H. unfold set_add. by rewrite decide_True. Qed.

Lemma add_neighbour_id n v : n ∈ neighbours v → add_neighbour n v = v.
Proof.
  intros H. destruct v as [i k ns a sc mi]. unfold add_neighbour. simpl in *.
  by rewrite set_add_id.
Qed.

(** X1.  [add_edge] raises [ValueError] exactly when one of the two items is not a
    vertex.  Otherwise it keeps the vertex set, makes the two items adjacent
    in both directions and changes the adjacency of no other pair. *)
Theorem add_edge_adjacent (g : Graph) a b :
  (add_edge g a b = Raise ValueError ↔ g !! a = None ∨ g !! b = None) ∧
  (is_Some (g !! a) → is_Some (g !! b) →
   ∃ g', add_edge g a b = Ret g' ∧ dom g' = dom g ∧
     adjacent g' a b = true ∧ adjacent g' b a = true ∧
     ∀ x y, ¬ (x = a ∧ y = b) → ¬ (x = b ∧ y = a) →
            adjacent g' x y = adjacent g x y).
Proof.
  split.
  - unfold add_edge. destruct (g !! a), (g !! b); split; intros H;
      try done; try (by destruct H); auto.
  - intros Ha Hb. pose proof (add_edge_ret g a b Ha Hb) as Hrun.
    eexists. split; [exact Hrun|].
    assert (Hdom : ∀ k, is_Some
              (alter (add_neighbour a) b (alter (add_neighbour b) a g) !! k) ↔
              is_Some (g !! k)).
    { intros k. apply (lookup_add_edge_is_Some g a b _ k Hrun). }
    split; [by rewrite !dom_alter_L|]. split; [|split].
    + apply adjacent_true. rewrite (nbr_add_edge _ _ _ _ _ _ Hrun), Hdom. tauto.
    + apply adjacent_true. rewrite (nbr_add_edge _ _ _ _ _ _ Hrun), Hdom. tauto.
    + intros x y Hxy Hyx. apply adjacent_eq.
      rewrite !adjacent_true, (nbr_add_edge _ _ _ _ _ _ Hrun), Hdom. tauto.
Qed.

(** X2.  Adding an edge that is already there, in either direction, changes
    nothing: neighbour sets are sets. *)
Theorem add_edge_idempotent (g : Graph) a b g' :
  add_edge g a b = Ret g' →
  add_edge g' a b = Ret g' ∧ add_edge g' b a = Ret g'.
Proof.
  intros Hrun.
  assert (Ha : is_Some (g' !! a)).
  { apply (lookup_add_edge_is_Some g a b g' a Hrun).
    by destruct (add_edge_inv g a b g' Hrun). }
  assert (Hb : is_Some (g' !! b)).
  { apply (lookup_add_edge_is_Some g a b g' b Hrun).
    by destruct (add_edge_inv g a b g' Hrun) as (_ & ? & _). }
  assert (Hab : nbr g' a b) by (apply (nbr_add_edge _ _ _ _ _ _ Hrun); tauto).
  assert (Hba : nbr g' b a) by (apply (nbr_add_edge _ _ _ _ _ _ Hrun); tauto).
  assert (Hid1 : alter (add_neighbour b) a g' = g').
  { apply alter_id. intros v Hv. apply add_neighbour_id.
    destruct Hab as (v' & Hv' & Hin). congruence. }
  assert (Hid2 : alter (add_neighbour a) b g' = g').
  { apply alter_id. intros v Hv. apply add_neighbour_id.
    destruct Hba as (v' & Hv' & Hin). congruence. }
  split.
  - rewrite (add_edge_ret g' a b Ha Hb). by rewrite Hid1, Hid2.
  - rewrite (add_edge_ret g' b a Hb Ha). by rewrite Hid2, Hid1.
Qed.

(** X3.  In a constructed graph [adjacent] is symmetric and no vertex is adjacent
    to itself. *)
Theorem adjacent_symmetric_irreflexive (g : Graph) a b :
  constructed g →
  adjacent g a b = adjacent g b a ∧ adjacent g a a = false.
Proof.
  intros (Hirr & Hsym & Hin)%constructed_nbr. split.
  - apply adjacent_eq. rewrite !adjacent_true. split.
    + intros [Hab _]. split; [by apply Hsym|]. by eapply nbr_in_graph.
    + intros [Hba _]. split; [by apply Hsym|]. by eapply nbr_in_graph.
  - destruct (adjacent g a a) eqn:Haa; [|done].
    apply adjacent_true in Haa as [Haa _]. by apply Hirr in Haa.
Qed.

(** X4.  [get_neighbours] raises [ValueError] for an item that is not a vertex;
    for a vertex it returns exactly the items [adjacent] accepts. *)
Theorem get_neighbours_adjacent (g : Graph) a :
  (g !! a = None → get_neighbours g a = Raise ValueError) ∧
  (wf g → is_Some (g !! a) →
   ∃ s, get_neighbours g a = Ret s ∧ ∀ b, b ∈ s ↔ adjacent g a b = true).
Proof.
  unfold get_neighbours. split.
  - by intros ->.
  - intros Hwf [v Hv]. rewrite Hv. eexists. split; [done|]. intros b.
    rewrite elem_of_list_to_set, (wf_adjacent g a b Hwf). unfold nbr. split.
    + intros Hin. by exists v.
    + intros (v' & Hv' & Hin). congruence.
Qed.

Lemma get_appearances_Ret (g : Graph) a S :
  get_appearances g a = Ret S ↔ ∃ v, g !! a = Some v ∧ S = appearances v.
Proof.
  unfold get_appearances, getitem. destruct (g !! a) as [v|]; simpl.
  - split; [intros [= <-]; eauto|]. by intros (v' & [= <-] & ->).
  - split; [done|]. by intros (v' & [=] & _).
Qed.

(** X5.  [add_appearances] raises [ValueError] for an actor that is not a vertex.
    Otherwise the actor's appearance set gains the movie, the appearance sets
    of the other vertices stay as they were, and so does every adjacency. *)
Theorem add_appearances_get (g : Graph) actor movie :
  (g !! actor = None → add_appearances g actor movie = Raise ValueError) ∧
  (∀ S, get_appearances g actor = Ret S →
   ∃ g', add_appearances g actor movie = Ret g' ∧
     get_appearances g' actor = Ret ({[movie]} ∪ S) ∧
     (∀ x, x ≠ actor → get_appearances g' x = get_appearances g x) ∧
     (∀ x y, adjacent g' x y = adjacent g x y)).
Proof.
  split.
  - unfold add_appearances. by intros ->.
  - intros S (v & Hv & ->)%get_appearances_Ret. unfold add_appearances.
    rewrite Hv. eexists. split; [done|]. split; [|split].
    + apply get_appearances_Ret. exists (add_appearance movie v). split; [|done].
      by rewrite lookup_alter, decide_True, Hv.
    + intros x Hx. unfold get_appearances, getitem.
      by rewrite lookup_alter, decide_False.
    + intros x y. apply adjacent_eq. rewrite !adjacent_true.
      rewrite nbr_alter_same by done.
      by rewrite <- !elem_of_dom, dom_alter_L.
Qed.

(** X6.  [get_common_movies] does not depend on the order of the two actors, and
    its result is the intersection of the two appearance sets. *)
Theorem get_common_movies_symmetric (g : Graph) a b :
  get_common_movies g a b = get_common_movies g b a ∧
  (∀ S, get_common_movies g a b = Ret S ↔
        ∃ Sa Sb, get_appearances g a = Ret Sa ∧ get_appearances g b = Ret Sb ∧
                 S = Sa ∩ Sb).
Proof.
  unfold get_common_movies. split.
  - destruct (g !! a) as [va|], (g !! b) as [vb|]; try done.
    f_equal. apply set_eq. intros x. rewrite !elem_of_intersection. tauto.
  - intros S. split.
    + destruct (g !! a) as [va|] eqn:Ha; [|done].
      destruct (g !! b) as [vb|] eqn:Hb; [|done]. intros [= <-].
      exists (appearances va), (appearances vb).
      split; [apply get_appearances_Ret; eauto|].
      split; [apply get_appearances_Ret; eauto|done].
    + intros (Sa & Sb & (va & -> & ->)%get_appearances_Ret &
              (vb & -> & ->)%get_appearances_Ret & ->). done.
Qed.

Lemma items_ok_alter (f : _Vertex → _Vertex) k (g : Graph) :
  (∀ v, item (f v) = item v) → items_ok g → items_ok (alter f k g).
Proof.
  intros Hf Hg x v Hv. rewrite lookup_alter in Hv. case_decide as Hk.
  - subst k. destruct (g !! x) as [v'|] eqn:Hx; [|done]. simpl in Hv.
    injection Hv as <-. rewrite Hf. by apply Hg.
  - by apply Hg.
Qed.

Lemma constructed_items_ok g : constructed g → items_ok g.
Proof.
  induction 1 as [|g i k _ IH|g i1 i2 g' _ IH Hne Hadd|g a m g' _ IH Hadd
                  |g m sc g' _ IH Hadd].
  - intros x v Hv. unfold empty_graph in Hv. by rewrite lookup_empty in Hv.
  - intros x v Hv. rewrite lookup_add_vertex in Hv.
    destruct (g !! x) as [v'|] eqn:Hx.
    + injection Hv as <-. by apply IH.
    + case_decide; [|done]. injection Hv as <-. done.
  - apply add_edge_inv in Hadd as (_ & _ & ->). by repeat apply items_ok_alter.
  - apply add_appearances_inv in Hadd as (_ & ->). by apply items_ok_alter.
  - apply add_sim_score_inv in Hadd as (s & _ & _ & ->). by apply items_ok_alter.
Qed.

(** X7.  In a constructed graph [get_all_vertices] with the empty kind returns the
    items that are vertices, and with any other kind exactly those of them
    whose vertex has that kind. *)
Theorem get_all_vertices_kind (g : Graph) kind_ :
  constructed g →
  (∀ x, x ∈ get_all_vertices g "" ↔ item_in_graph g x = true) ∧
  (kind_ ≠ "" →
   ∀ x, x ∈ get_all_vertices g kind_ ↔ ∃ v, g !! x = Some v ∧ kind v = kind_).
Proof.
  intros Hitems%constructed_items_ok. unfold get_all_vertices. split.
  - intros x. rewrite decide_False by (by intros H). rewrite item_in_graph_true.
    apply elem_of_dom.
  - intros Hk x. rewrite decide_True by done.
    rewrite elem_of_list_to_set, list_elem_of_fmap. split.
    + intros ([k v] & -> & [Hkind Hin%elem_of_map_to_list]%list_elem_of_filter).
      simpl in *. rewrite (Hitems k v Hin). eauto.
    + intros (v & Hv & Hkind). exists (x, v). simpl. split; [by rewrite (Hitems x v Hv)|].
      apply list_elem_of_filter. split; [done|]. by apply elem_of_map_to_list.
Qed.

(** X8.  [add_vertex] makes the item a vertex and leaves every other vertex as it
    was; on an item that is already a vertex it does nothing, whatever the
    kind it is given; and a vertex it creates in a graph whose neighbour sets
    stay inside the graph is adjacent to nothing. *)
Theorem add_vertex_effect (g : Graph) item_ kind_ :
  item_in_graph (add_vertex g item_ kind_) item_ = true ∧
  (∀ x, x ≠ item_ → add_vertex g item_ kind_ !! x = g !! x) ∧
  (∀ kind', add_vertex (add_vertex g item_ kind_) item_ kind' = add_vertex g item_ kind_) ∧
  (wf g → g !! item_ = None →
   ∀ y, adjacent (add_vertex g item_ kind_) item_ y = false ∧
        adjacent (add_vertex g item_ kind_) y item_ = false).
Proof.
  split; [|split; [|split]].
  - apply item_in_graph_true. rewrite <- elem_of_dom, dom_add_vertex.
    rewrite elem_of_union, elem_of_singleton. by left.
  - intros x Hx. rewrite lookup_add_vertex. destruct (g !! x); [done|].
    by rewrite decide_False.
  - intros kind'. unfold add_vertex at 1.
    assert (is_Some (add_vertex g item_ kind_ !! item_)) as [v ->]; [|done].
    rewrite <- elem_of_dom, dom_add_vertex, elem_of_union, elem_of_singleton.
    by left.
  - intros Hwf Hnone y. split.
    + destruct (adjacent _ item_ y) eqn:Hadj; [|done].
      apply adjacent_true in Hadj as [Hadj%nbr_add_vertex _].
      apply nbr_in_graph in Hadj as [? ?]. congruence.
    + destruct (adjacent _ y item_) eqn:Hadj; [|done].
      apply adjacent_true in Hadj as [Hadj%nbr_add_vertex _].
      apply (wf_nbr g y item_ Hwf) in Hadj as [? ?]. congruence.
Qed.

(** ** More on the searches *)

Lemma in_graph_present (g : Graph) s t :
  is_Some (g !! s) → is_Some (g !! t) → ¬ (g !! s = None ∨ g !! t = None).
Proof. intros Hs Ht [H|H]; rewrite H in *; by eapply is_Some_None. Qed.

(** X10.  Both searches answer [[x]] from a vertex to itself. *)
Theorem shortest_path_to_itself (g : Graph) x key thresholds (movies : movies_dict) :
  is_Some (g !! x) →
  shortest_path_bfs g x x = Ret [x] ∧
  shortest_path_bfs_filtered g (x, x) key thresholds movies = Ret [x].
Proof.
  intros Hx. pose proof (size_unvisited_start g x Hx) as Hsize.
  unfold shortest_path_bfs, shortest_path_bfs_filtered. simpl.
  rewrite !decide_False by (by apply in_graph_present).
  destruct (size g) as [|fuel]; [lia|]. simpl. by rewrite !decide_True.
Qed.

Lemma distance_of_shortest_path g s t p :
  wf g → is_Some (g !! s) → is_Some (g !! t) → s ≠ t →
  shortest_path_bfs g s t = Ret p → p ≠ [] →
  ∃ distances, shortest_distance_bfs g s = Ret distances ∧
    distances !! t = Some (Finite (length p - 1)).
Proof.
  intros Hwf Hs Ht Hne Hrun Hp. unfold shortest_path_bfs in Hrun.
  rewrite decide_False in Hrun by by apply in_graph_present.
  unfold shortest_distance_bfs. rewrite decide_False.
  2:{ intros H. rewrite H in Hs. by eapply is_Some_None. }
  destruct (dist_loop_correct g s Hwf (size g)
              (<[s := Finite 0]> ((λ _, Infinity) <$> g)) [s] {[s]})
    as (distances' & Hdist & _ & _).
  { by apply dist_inv_start. }
  { simpl. rewrite <- (size_unvisited_start g s Hs). lia. }
  simpl. rewrite Hdist, bind_Ret. eexists. split; [done|].
  apply map_lookup_filter_Some. split; [|simpl; congruence].
  eapply (bfs_loop_in_step g s t (size g) (size g) [(s, [s])]); try done.
  - by apply elem_of_singleton.
  - intros v p' Hin%list_elem_of_singleton. injection Hin as -> ->.
    split; [by rewrite lookup_insert_eq|]. split; [by apply elem_of_singleton|done].
Qed.

Lemma shortest_nonempty g s t p : shortest g s t p → p ≠ [].
Proof. intros [Hc%connects_nonempty _] ->. simpl in Hc. lia. Qed.

(** X11.  The entry of a vertex other than the start in the mapping of
    [shortest_distance_bfs] is finite exactly when the vertex can be reached
    from the start, and a finite entry is the minimum hop count. *)
Theorem shortest_distance_bfs_exact (g : Graph) s v :
  wf g → is_Some (g !! s) → is_Some (g !! v) → v ≠ s →
  ∃ distances, shortest_distance_bfs g s = Ret distances ∧
    (reachable g s v ↔ ∃ d, distances !! v = Some (Finite d)) ∧
    (∀ d, distances !! v = Some (Finite d) → min_hops g s v d).
Proof.
  intros Hwf Hs Hv Hne.
  destruct (shortest_path_bfs_correct g s v Hwf Hs Hv) as (p & Hrun & [[-> Hno]|Hsh]).
  - unfold shortest_distance_bfs. rewrite decide_False.
    2:{ intros H. rewrite H in Hs. by eapply is_Some_None. }
    destruct (dist_loop_correct g s Hwf (size g)
                (<[s := Finite 0]> ((λ _, Infinity) <$> g)) [s] {[s]})
      as (distances' & Hdist & _ & Hinf).
    { by apply dist_inv_start. }
    { simpl. rewrite <- (size_unvisited_start g s Hs). lia. }
    simpl. rewrite Hdist, bind_Ret. eexists. split; [done|].
    assert (Hl : filter (λ kv : string * distance, kv.1 ≠ s) distances' !! v =
                 Some Infinity).
    { apply map_lookup_filter_Some. split; [by apply Hinf|done]. }
    split; [split|].
    + done.
    + intros [d Hd]. congruence.
    + intros d Hd. congruence.
  - destruct (distance_of_shortest_path g s v p) as (distances & Hd & Hl);
      [done|done|done|by intros ->|done|by eapply shortest_nonempty|].
    exists distances. split; [done|]. split; [split|].
    + eauto.
    + intros _. destruct Hsh as [Hc _]. by exists p.
    + intros d Hd'. assert (d = length p - 1) as -> by congruence.
      by apply shortest_min_hops.
Qed.

(** X12.  For two distinct adjacent vertices [shortest_path_bfs] returns the edge
    itself. *)
Theorem shortest_path_bfs_adjacent (g : Graph) a b :
  wf g → a ≠ b → adjacent g a b = true →
  shortest_path_bfs g a b = Ret [a; b].
Proof.
  intros Hwf Hne Hadj. pose proof Hadj as [Hab Hb]%adjacent_true.
  pose proof (nbr_in_graph g a b Hab) as Ha.
  assert (Hwalk : connects g a b [a; b]) by by repeat split.
  destruct (shortest_path_bfs_correct g a b Hwf Ha Hb)
    as (p & -> & [[_ Hno]|[(Hh & Hl & _) Hmin]]).
  { destruct Hno. by exists [a; b]. }
  specialize (Hmin _ Hwalk). simpl in Hmin.
  destruct p as [|x [|y [|z p']]]; simpl in *; try lia; congruence.
Qed.

Lemma is_walk_app g l1 x l2 :
  is_walk g (l1 ++ x :: l2) ↔ is_walk g (l1 ++ [x]) ∧ is_walk g (x :: l2).
Proof.
  induction l1 as [|a l1 IH]; simpl.
  - tauto.
  - destruct l1 as [|b l1']; simpl in *.
    + destruct l2; tauto.
    + rewrite IH. tauto.
Qed.

Lemma is_walk_reverse g p :
  (∀ a b, adjacent g a b = true → adjacent g b a = true) →
  is_walk g p → is_walk g (reverse p).
Proof.
  intros Hsym. induction p as [|a rest IH]; [done|].
  destruct rest as [|b rest'].
  - done.
  - intros [Hab Hw]%is_walk_cons. rewrite reverse_cons.
    eapply is_walk_snoc; [by apply IH| |by apply Hsym].
    by rewrite last_reverse.
Qed.

Lemma connects_reverse g s t p :
  (∀ a b, adjacent g a b = true → adjacent g b a = true) →
  connects g s t p → connects g t s (reverse p).
Proof.
  intros Hsym (Hh & Hl & Hw). split; [|split].
  - by rewrite head_reverse.
  - by rewrite last_reverse.
  - by apply is_walk_reverse.
Qed.

(** X13.  In a constructed graph the search from [s] to [t] and the search from
    [t] to [s] return paths of the same length (both empty when there is no
    path). *)
Theorem shortest_path_bfs_symmetric_length (g : Graph) s t :
  constructed g → is_Some (g !! s) → is_Some (g !! t) →
  ∃ p q, shortest_path_bfs g s t = Ret p ∧ shortest_path_bfs g t s = Ret q ∧
         length p = length q.
Proof.
  intros Hc Hs Ht. pose proof (constructed_wf g Hc) as Hwf.
  pose proof (constructed_nbr g Hc) as (_ & Hsym & _).
  assert (Hadj : ∀ a b, adjacent g a b = true → adjacent g b a = true).
  { intros a b [Hab _]%adjacent_true. apply adjacent_true.
    split; [by apply Hsym|]. by eapply nbr_in_graph. }
  destruct (shortest_path_bfs_correct g s t Hwf Hs Ht) as (p & Hp & Hpc).
  destruct (shortest_path_bfs_correct g t s Hwf Ht Hs) as (q & Hq & Hqc).
  exists p, q. split; [done|]. split; [done|].
  destruct Hpc as [[-> Hno]|[Hpw Hpmin]], Hqc as [[-> Hno']|[Hqw Hqmin]].
  - done.
  - destruct Hno. exists (reverse q). by apply connects_reverse.
  - destruct Hno'. exists (reverse p). by apply connects_reverse.
  - pose proof (Hpmin _ (connects_reverse g t s q Hadj Hqw)) as H1.
    pose proof (Hqmin _ (connects_reverse g s t p Hadj Hpw)) as H2.
    rewrite length_reverse in H1, H2. lia.
Qed.

Lemma not_NoDup_split (p : list string) :
  ¬ NoDup p → ∃ l1 x l2 l3, p = l1 ++ x :: l2 ++ x :: l3.
Proof.
  induction p as [|a p IH]; intros Hnd.
  - destruct Hnd. constructor.
  - destruct (decide (a ∈ p)) as [Hin|Hin].
    + apply list_elem_of_split in Hin as (l2 & l3 & ->). by exists [], a, l2, l3.
    + destruct IH as (l1 & x & l2 & l3 & ->).
      { intros Hp. apply Hnd. by constructor. }
      by exists (a :: l1), x, l2, l3.
Qed.

Lemma shortest_NoDup g s t p : shortest g s t p → NoDup p.
Proof.
  intros [(Hh & Hl & Hw) Hmin]. destruct (decide (NoDup p)) as [|Hnd]; [done|].
  apply not_NoDup_split in Hnd as (l1 & x & l2 & l3 & ->).
  assert (Hshort : connects g s t (l1 ++ x :: l3)).
  { split; [|split].
    - destruct l1; simpl in *; done.
    - rewrite last_app_cons in Hl. rewrite last_app_cons.
      change (x :: l2 ++ x :: l3) with ((x :: l2) ++ x :: l3) in Hl.
      by rewrite last_app_cons in Hl.
    - apply is_walk_app in Hw as [Hw1 Hw2].
      change (x :: l2 ++ x :: l3) with ((x :: l2) ++ x :: l3) in Hw2.
      apply is_walk_app in Hw2 as [_ Hw3]. apply is_walk_app. done. }
  specialize (Hmin _ Hshort). rewrite !length_app in Hmin. simpl in Hmin.
  rewrite length_app in Hmin. simpl in Hmin. lia.
Qed.

(** X14.  The path [shortest_path_bfs] returns visits no vertex twice, and every
    vertex on it is a vertex of the graph. *)
Theorem shortest_path_bfs_simple (g : Graph) s t p :
  wf g → shortest_path_bfs g s t = Ret p →
  NoDup p ∧ ∀ x, x ∈ p → is_Some (g !! x).
Proof.
  intros Hwf Hrun.
  assert (is_Some (g !! s) ∧ is_Some (g !! t)) as [Hs Ht].
  { unfold shortest_path_bfs in Hrun. case_decide as Hpresent; [done|].
    destruct (g !! s), (g !! t); eauto; destruct Hpresent; eauto. }
  destruct (shortest_path_bfs_correct g s t Hwf Hs Ht) as (p' & Hrun' & Hcases).
  assert (p' = p) as -> by congruence.
  destruct Hcases as [[-> _]|Hsh].
  - split; [constructor|]. by intros x Hx%elem_of_nil.
  - split; [by eapply shortest_NoDup|].
    destruct Hsh as [(Hh & Hl & Hw) _]. clear Hrun Hrun' Hl.
    revert s Hs Hh Hw. induction p as [|a rest IH]; intros s Hs Hh Hw x Hx.
    + by apply elem_of_nil in Hx.
    + injection Hh as ->. apply elem_of_cons in Hx as [->|Hx]; [done|].
      destruct rest as [|b rest']; [by apply elem_of_nil in Hx|].
      apply is_walk_cons in Hw as [[_ Hb]%adjacent_true Hw].
      by apply (IH b).
Qed.

(** X20.  Where the unfiltered search finds no path, the filtered search finds
    none either. *)
Theorem filtered_finds_no_new_path (g : Graph) s t key thresholds
    (movies : movies_dict) p :
  wf g → shortest_path_bfs g s t = Ret [] →
  shortest_path_bfs_filtered g (s, t) key thresholds movies = Ret p →
  p = [].
Proof.
  intros Hwf Hu Hf. destruct (decide (p = [])) as [|Hp]; [done|].
  pose proof (shortest_path_bfs_filtered_walk g s t key thresholds movies p Hf Hp)
    as Hwalk.
  assert (is_Some (g !! s) ∧ is_Some (g !! t)) as [Hs Ht].
  { unfold shortest_path_bfs in Hu. case_decide as Hpresent; [done|].
    destruct (g !! s), (g !! t); eauto; destruct Hpresent; eauto. }
  destruct (shortest_path_bfs_correct g s t Hwf Hs Ht) as (p' & Hrun & Hcases).
  assert (p' = []) as -> by congruence.
  destruct Hcases as [[_ Hno]|Hsh].
  - destruct Hno. by exists p.
  - by apply shortest_nonempty in Hsh.
Qed.

(** ** More on [filter_by_key] and the filtered search *)

Lemma in_range_true lower upper x :
  in_range lower upper x = true ↔ ∃ q, x = Real q ∧ (lower <= q)%Q ∧ (q <= upper)%Q.
Proof.
  unfold in_range. rewrite andb_true_iff. destruct x as [q| | |]; simpl.
  - rewrite !Qle_bool_iff. split; [eauto|]. by intros (q' & [= <-] & H).
  - split; [by intros [_ ?]|]. by intros (q' & ? & _).
  - split; [by intros [? _]|]. by intros (q' & ? & _).
  - split; [by intros [? _]|]. by intros (q' & ? & _).
Qed.

Lemma filter_movies_spec field lower upper movies common :
  (∀ m, m ∈ common → usable movies field m = true) →
  ∃ S, filter_movies field lower upper movies common = Ret S ∧
    ∀ m, m ∈ S ↔ m ∈ common ∧
      ∃ r x, movies_lookup movies m = Some r ∧ float (field r) = Ret x ∧
             in_range lower upper x = true.
Proof.
  induction common as [|y rest IH]; intros Hall; simpl.
  - exists ∅. split; [done|]. intros m. split.
    + by intros H%not_elem_of_empty.
    + by intros [H%elem_of_nil _].
  - unfold movies_getitem.
    destruct (proj1 (usable_float movies field y)) as (r & x & Hr & Hx);
      [apply Hall; left|].
    rewrite Hr, bind_Ret, Hx. simpl.
    destruct IH as (S & -> & HS); [intros m Hm; apply Hall; by right|].
    rewrite bind_Ret. eexists. split; [done|]. intros m.
    destruct (in_range lower upper x) eqn:Hrange.
    + rewrite elem_of_union, elem_of_singleton, HS, elem_of_cons. split.
      * intros [->|[Hm Hex]]; [|by eauto].
        split; [by left|]. by exists r, x.
      * intros [[->|Hm] Hex]; eauto.
    + rewrite HS, elem_of_cons. split.
      * intros [Hm Hex]. eauto.
      * intros [[->|Hm] (r' & x' & Hr' & Hx' & Hex)];
          [|split; [done|]; by exists r', x'].
        rewrite Hr in Hr'. injection Hr' as <-. congruence.
Qed.



Lemma edge_ok_true g key thresholds movies a b :
  edge_ok g key thresholds movies a b = true ↔
  ∃ S, filter_by_key g (a, b) key thresholds movies = Ret (true, S).
Proof.
  unfold edge_ok.
  destruct (filter_by_key g (a, b) key thresholds movies) as [[[] S]| |]; split;
    try done; eauto; by intros [S' ?].
Qed.

Lemma is_admissible_walk_cons g key thresholds movies a b rest :
  is_admissible_walk g key thresholds movies (a :: b :: rest) ↔
  (adjacent g a b = true ∧ edge_ok g key thresholds movies a b = true) ∧
  is_admissible_walk g key thresholds movies (b :: rest).
Proof. reflexivity. Qed.

Lemma is_admissible_walk_snoc g key thresholds movies p c n :
  is_admissible_walk g key thresholds movies p → last p = Some c →
  adjacent g c n = true → edge_ok g key thresholds movies c n = true →
  is_admissible_walk g key thresholds movies (p ++ [n]).
Proof.
  induction p as [|a rest IH]; [discriminate|].
  destruct rest as [|b rest'].
  - intros _ [= ->] Hadj Hok. simpl. done.
  - intros [Hab Hw]%is_admissible_walk_cons Hlast Hadj Hok.
    change ((a :: b :: rest') ++ [n]) with (a :: b :: (rest' ++ [n])).
    apply is_admissible_walk_cons. split; [done|]. by apply IH.
Qed.

Section admissible.
Context (g : Graph) (s t key : string) (thresholds : Q * Q) (movies : movies_dict).

Lemma visit_neighbours_filtered_admissible cur p ns :
  ∀ queue visited queue' visited',
  connects g s cur p → is_admissible_walk g key thresholds movies p →
  (∀ n, n ∈ ns → nbr g cur n) →
  (∀ x p', (x, p') ∈ queue →
     connects g s x p' ∧ is_admissible_walk g key thresholds movies p') →
  visit_neighbours_filtered g key thresholds movies cur p ns queue visited =
    Ret (queue', visited') →
  ∀ x p', (x, p') ∈ queue' →
    connects g s x p' ∧ is_admissible_walk g key thresholds movies p'.
Proof.
  induction ns as [|n ns IH]; intros queue visited queue' visited' Hp Hadm Hns Hq Hrun;
    simpl in Hrun.
  - by injection Hrun as <- <-.
  - assert (Hns' : ∀ x, x ∈ ns → nbr g cur x) by (intros x Hx; apply Hns; by right).
    destruct (decide (n ∈ visited)) as [Hn|Hn]; [by eapply IH|].
    apply bind_inv_Ret in Hrun as ([is_valid common] & Hfilter & Hrun).
    pose proof (filter_by_key_Ret_inv _ _ _ _ _ _ _ Hfilter) as [_ Hng].
    destruct is_valid; simpl in Hrun; [|by eapply IH].
    eapply IH; [done|done|done| |exact Hrun].
    intros x p' [Hin|Hin%list_elem_of_singleton]%elem_of_app; [by apply Hq|].
    injection Hin as -> ->.
    assert (Hadj : adjacent g cur n = true).
    { apply adjacent_true. split; [|done]. apply Hns. left. }
    split; [by eapply connects_snoc|].
    eapply is_admissible_walk_snoc; [done|by destruct Hp as (_ & ? & _)|done|].
    apply edge_ok_true. eauto.
Qed.

Lemma bfs_filtered_loop_admissible fuel :
  ∀ queue visited p,
  (∀ x p', (x, p') ∈ queue →
     connects g s x p' ∧ is_admissible_walk g key thresholds movies p') →
  bfs_filtered_loop fuel g t key thresholds movies queue visited = Ret p →
  is_admissible_walk g key thresholds movies p.
Proof.
  induction fuel as [|fuel IH]; intros queue visited p Hq Hrun;
    destruct queue as [|[cur pc] rest]; simpl in Hrun;
    try (by injection Hrun as <-); try discriminate.
  destruct (Hq cur pc) as [Hcur Hadm]; [left|].
  destruct (decide (cur = t)) as [->|Hct]; [by injection Hrun as <-|].
  apply bind_inv_Ret in Hrun as (v & Hv & Hrun).
  apply bind_inv_Ret in Hrun as ([queue' visited'] & Hvisit & Hrun).
  unfold getitem in Hv. destruct (g !! cur) as [v'|] eqn:Hcv; [|discriminate].
  injection Hv as ->. eapply IH; [|exact Hrun].
  eapply visit_neighbours_filtered_admissible; [exact Hcur|exact Hadm| | |exact Hvisit].
  - intros n Hn. by exists v.
  - intros x p' Hin. apply Hq. by right.
Qed.

(** X18.  Every edge of the path the filtered search returns is an edge of the
    graph that passes the filter. *)
Theorem filtered_path_admissible p :
  shortest_path_bfs_filtered g (s, t) key thresholds movies = Ret p →
  is_admissible_walk g key thresholds movies p.
Proof.
  unfold shortest_path_bfs_filtered. simpl. case_decide as Hpresent; [done|].
  rewrite <- surjective_pairing. apply bfs_filtered_loop_admissible.
  intros x p' Hin%list_elem_of_singleton. injection Hin as -> ->.
  split; [apply connects_refl|done].
Qed.

End admissible.

(** ** The filtered search is the search of the admissible subgraph *)

Section admissible_graph.
Context (g : Graph) (key : string) (thresholds : Q * Q) (movies : movies_dict).

Lemma nbr_admissible_graph a b :
  nbr (admissible_graph g key thresholds movies) a b ↔
  nbr g a b ∧ edge_ok g key thresholds movies a b = true.
Proof.
  unfold nbr, admissible_graph. rewrite map_lookup_imap.
  destruct (g !! a) as [v|]; simpl.
  - split.
    + intros (v' & [= <-] & [Hok Hin]%list_elem_of_filter). eauto.
    + intros [(v' & [= <-] & Hin) Hok]. eexists. split; [done|]. simpl.
      by apply list_elem_of_filter.
  - split; [by intros (? & ? & _)|by intros [(? & ? & _) _]].
Qed.

Lemma lookup_admissible_graph_is_Some k :
  is_Some (admissible_graph g key thresholds movies !! k) ↔ is_Some (g !! k).
Proof.
  unfold admissible_graph. rewrite map_lookup_imap.
  destruct (g !! k); simpl; split; intros [? ?]; eauto; done.
Qed.

Lemma size_admissible_graph :
  size (admissible_graph g key thresholds movies) = size g.
Proof.
  rewrite <- !size_dom. f_equal. apply set_eq. intros k.
  rewrite !elem_of_dom. apply lookup_admissible_graph_is_Some.
Qed.

Lemma wf_admissible_graph : wf g → wf (admissible_graph g key thresholds movies).
Proof.
  intros Hwf. apply wf_intro. intros a b [Hab _]%nbr_admissible_graph.
  apply lookup_admissible_graph_is_Some. by eapply wf_nbr.
Qed.

Lemma adjacent_admissible_graph a b :
  adjacent (admissible_graph g key thresholds movies) a b = true ↔
  adjacent g a b = true ∧ edge_ok g key thresholds movies a b = true.
Proof.
  rewrite !adjacent_true, nbr_admissible_graph, lookup_admissible_graph_is_Some.
  tauto.
Qed.

Lemma is_walk_admissible_graph p :
  is_walk (admissible_graph g key thresholds movies) p ↔
  is_admissible_walk g key thresholds movies p.
Proof.
  induction p as [|a rest IH]; [done|]. destruct rest as [|b rest']; [done|].
  rewrite is_walk_cons, is_admissible_walk_cons, adjacent_admissible_graph, IH.
  done.
Qed.

Lemma visit_neighbours_filtered_as_unfiltered cur p ns :
  ∀ queue visited,
  (∀ n, n ∈ ns → ∃ r, filter_by_key g (cur, n) key thresholds movies = Ret r) →
  visit_neighbours_filtered g key thresholds movies cur p ns queue visited =
  Ret (visit_neighbours p
         (filter (λ n, edge_ok g key thresholds movies cur n = true) ns)
         queue visited).
Proof.
  induction ns as [|n ns IH]; intros queue visited Hok; simpl; [done|].
  assert (Hok' : ∀ x, x ∈ ns →
            ∃ r, filter_by_key g (cur, x) key thresholds movies = Ret r).
  { intros x Hx. apply Hok. by right. }
  destruct (Hok n) as [[is_valid common] Hr]; [left|].
  assert (Hedge : edge_ok g key thresholds movies cur n = is_valid).
  { unfold edge_ok. rewrite Hr. by destruct is_valid. }
  rewrite filter_cons, Hr.
  destruct (decide (n ∈ visited)) as [Hn|Hn].
  - rewrite IH by done. destruct is_valid.
    + rewrite decide_True by done. simpl. by rewrite decide_True.
    + rewrite decide_False; [done|]. by rewrite Hedge.
  - rewrite bind_Ret. destruct is_valid; simpl.
    + rewrite decide_True by done. simpl. rewrite decide_False by done.
      by apply IH.
    + rewrite decide_False; [by apply IH|]. by rewrite Hedge.
Qed.

Hypothesis Hok :
  ∀ a b, nbr g a b → ∃ r, filter_by_key g (a, b) key thresholds movies = Ret r.

Lemma bfs_filtered_loop_as_unfiltered t fuel :
  ∀ queue visited,
  bfs_filtered_loop fuel g t key thresholds movies queue visited =
  bfs_loop fuel (admissible_graph g key thresholds movies) t queue visited.
Proof.
  induction fuel as [|fuel IH]; intros queue visited;
    destruct queue as [|[cur pc] rest]; simpl; try done.
  case_decide; [done|]. unfold getitem, admissible_graph.
  rewrite map_lookup_imap. destruct (g !! cur) as [v|] eqn:Hv; simpl; [|done].
  rewrite visit_neighbours_filtered_as_unfiltered.
  - rewrite bind_Ret.
    destruct (visit_neighbours pc _ rest visited) as [queue' visited'].
    apply IH.
  - intros n Hn. apply Hok. by exists v.
Qed.

Lemma shortest_path_bfs_filtered_as_unfiltered s t :
  shortest_path_bfs_filtered g (s, t) key thresholds movies =
  shortest_path_bfs (admissible_graph g key thresholds movies) s t.
Proof.
  unfold shortest_path_bfs_filtered, shortest_path_bfs. simpl.
  rewrite size_admissible_graph, <- surjective_pairing.
  destruct (decide (g !! s = None ∨ g !! t = None)) as [Habs|Hpres].
  - rewrite decide_True; [done|].
    destruct Habs as [H|H]; [left|right];
      apply eq_None_not_Some; rewrite lookup_admissible_graph_is_Some, H;
      by apply is_Some_None.
  - rewrite decide_False; [apply bfs_filtered_loop_as_unfiltered|].
    intros [H|H]; apply Hpres; [left|right];
      apply eq_None_not_Some; rewrite <- lookup_admissible_graph_is_Some, H;
      by apply is_Some_None.
Qed.

End admissible_graph.

Lemma filter_by_key_covered (g : Graph) key field thresholds movies a b :
  field_of_key key = Some field → covered g movies field →
  is_Some (g !! a) → is_Some (g !! b) →
  ∃ r, filter_by_key g (a, b) key thresholds movies = Ret r.
Proof.
  intros Hkey Hcov [va Ha] [vb Hb]. unfold filter_by_key.
  destruct thresholds as [lower upper]. rewrite Ha, Hb.
  assert (Hall : ∀ m, m ∈ elements (appearances va ∩ appearances vb) →
                      usable movies field m = true).
  { intros m [Hm _]%elem_of_elements%elem_of_intersection.
    by apply (Hcov a va Ha m). }
  apply field_of_key_valid in Hkey as [[-> ->] | [-> ->]]; simpl.
  - destruct (filter_movies_total year lower upper movies _ Hall) as [S ->].
    rewrite bind_Ret. case_decide; eauto.
  - destruct (filter_movies_total rating lower upper movies _ Hall) as [S ->].
    rewrite bind_Ret. case_decide; eauto.
Qed.

(** X19.  With a recognised key and, for every movie of every appearance set,
    a record whose selected field [float] accepts, the filtered search
    between two vertices returns a path whose edges all pass the filter and
    that is as short as any such path, or the empty list when there is no
    such path; it raises nothing. *)
Theorem filtered_search_shortest_admissible (g : Graph) s t key field thresholds
    (movies : movies_dict) :
  wf g → field_of_key key = Some field → covered g movies field →
  is_Some (g !! s) → is_Some (g !! t) →
  ∃ p, shortest_path_bfs_filtered g (s, t) key thresholds movies = Ret p ∧
    ((p = [] ∧
      ∀ q, head q = Some s → last q = Some t →
           ¬ is_admissible_walk g key thresholds movies q) ∨
     (head p = Some s ∧ last p = Some t ∧
      is_admissible_walk g key thresholds movies p ∧
      ∀ q, head q = Some s → last q = Some t →
           is_admissible_walk g key thresholds movies q → length p ≤ length q)).
Proof.
  intros Hwf Hkey Hcov Hs Ht.
  rewrite shortest_path_bfs_filtered_as_unfiltered.
  2:{ intros a b Hab. eapply filter_by_key_covered; [done|done| |].
      - by eapply nbr_in_graph.
      - by eapply wf_nbr. }
  destruct (shortest_path_bfs_correct (admissible_graph g key thresholds movies) s t)
    as (p & Hrun & Hcases).
  { by apply wf_admissible_graph. }
  { by apply lookup_admissible_graph_is_Some. }
  { by apply lookup_admissible_graph_is_Some. }
  exists p. split; [done|].
  destruct Hcases as [[-> Hno]|[(Hh & Hl & Hw) Hmin]].
  - left. split; [done|]. intros q Hqh Hql Hqw. apply Hno. exists q.
    split; [done|]. split; [done|]. by apply is_walk_admissible_graph.
  - right. split; [done|]. split; [done|].
    split; [by apply is_walk_admissible_graph|].
    intros q Hqh Hql Hqw. apply Hmin. split; [done|]. split; [done|].
    by apply is_walk_admissible_graph.
Qed.

(** ** What [create_actor_graph] builds *)

Lemma lookup_alter_add_neighbour {A} (f : _Vertex → A) (g : Graph) n k x :
  (∀ v, f (add_neighbour n v) = f v) →
  f <$> alter (add_neighbour n) k g !! x = f <$> g !! x.
Proof.
  intros Hf. rewrite lookup_alter. case_decide; [subst|done].
  destruct (g !! x); simpl; [by rewrite Hf|done].
Qed.

Lemma add_edge_keeps {A} (f : _Vertex → A) (g : Graph) a b g' x :
  (∀ n v, f (add_neighbour n v) = f v) →
  add_edge g a b = Ret g' → f <$> g' !! x = f <$> g !! x.
Proof.
  intros Hf (_ & _ & ->)%add_edge_inv. by rewrite !lookup_alter_add_neighbour.
Qed.

Lemma link_cast_keeps actor cast2 :
  ∀ g g' : Graph, link_cast g actor cast2 = Ret g' → constructed g →
  constructed g' ∧
  (∀ x, appearances <$> g' !! x = appearances <$> g !! x) ∧
  (∀ x, kind <$> g' !! x = kind <$> g !! x).
Proof.
  induction cast2 as [|c rest IH]; intros g g' Hrun Hc; simpl in Hrun.
  - by injection Hrun as <-.
  - destruct (item_in_graph g c && bool_decide (actor ≠ c)) eqn:Hcond.
    + apply andb_true_iff in Hcond as [_ Hne%bool_decide_eq_true].
      apply bind_inv_Ret in Hrun as (g1 & Hedge & Hrun).
      destruct (IH g1 g' Hrun) as (Hc' & Happ & Hkind).
      { by eapply constructed_add_edge. }
      split; [done|]. split; intros x.
      * rewrite Happ. by apply (add_edge_keeps appearances g actor c).
      * rewrite Hkind. by apply (add_edge_keeps kind g actor c).
    + by apply IH.
Qed.

Lemma add_cast_keeps (movies : movies_dict) movie actors :
  ∀ g g' : Graph, add_cast movies movie g actors = Ret g' →
  constructed g → all_of_kind g "actor" →
  constructed g' ∧ all_of_kind g' "actor" ∧
  (∀ k, is_Some (g' !! k) ↔ is_Some (g !! k) ∨ k ∈ actors) ∧
  (∀ x m, m ∈ appearances_of g' x ↔
          m ∈ appearances_of g x ∨ (m = movie ∧ x ∈ actors)).
Proof.
  induction actors as [|a rest IH]; intros g g' Hrun Hc Hkinds; simpl in Hrun.
  - injection Hrun as <-. split; [done|]. split; [done|]. split.
    + intros k. split; [tauto|]. by intros [H|H%elem_of_nil].
    + intros x m. split; [tauto|]. by intros [H|[_ H%elem_of_nil]].
  - apply bind_inv_Ret in Hrun as (g2 & Happ & Hrun).
    apply bind_inv_Ret in Hrun as (g3 & Hlink & Hrun).
    set (g1 := add_vertex g a "actor") in *.
    assert (Hc1 : constructed g1) by by apply constructed_add_vertex.
    assert (Hc2 : constructed g2) by by eapply constructed_add_appearances.
    pose proof (add_appearances_inv g1 a movie g2 Happ) as [[v1 Hv1] Hg2].
    unfold _create_actor_graph_helper in Hlink.
    apply bind_inv_Ret in Hlink as (r & _ & Hlink).
    destruct (link_cast_keeps a (cast r) g2 g3 Hlink Hc2) as (Hc3 & Happ3 & Hkind3).
    assert (Hlook1 : ∀ x, x ≠ a → g1 !! x = g !! x).
    { intros x Hx. unfold g1. rewrite lookup_add_vertex.
      destruct (g !! x); [done|]. by rewrite decide_False. }
    assert (Hv1' : g !! a = Some v1 ∨ (g !! a = None ∧ v1 = new_vertex a "actor")).
    { unfold g1 in Hv1. rewrite lookup_add_vertex in Hv1.
      destruct (g !! a); [by left|]. rewrite decide_True in Hv1 by done.
      right. split; [done|]. congruence. }
    assert (Hkinds3 : all_of_kind g3 "actor").
    { intros x v Hv. pose proof (Hkind3 x) as Hk. rewrite Hv in Hk. simpl in Hk.
      rewrite Hg2, lookup_alter in Hk. case_decide as Hxa.
      - subst x. rewrite Hv1 in Hk. simpl in Hk. injection Hk as ->.
        destruct Hv1' as [Hg|[_ ->]]; [by apply (Hkinds a)|done].
      - rewrite Hlook1 in Hk by done. destruct (g !! x) as [v0|] eqn:Hx; [|done].
        simpl in Hk. injection Hk as ->. by apply (Hkinds x). }
    assert (Happs3 : ∀ x m, m ∈ appearances_of g3 x ↔
              m ∈ appearances_of g x ∨ (m = movie ∧ x = a)).
    { intros x m. unfold appearances_of. rewrite Happ3, Hg2, lookup_alter.
      case_decide as Hxa.
      - subst x. rewrite Hv1. simpl. rewrite elem_of_union, elem_of_singleton.
        destruct Hv1' as [->|[-> ->]]; simpl; [tauto|].
        rewrite elem_of_empty. tauto.
      - rewrite Hlook1 by done. split; [tauto|]. intros [H|[_ H]]; [done|congruence]. }
    assert (Hdom3 : ∀ k, is_Some (g3 !! k) ↔ is_Some (g !! k) ∨ k = a).
    { intros k. rewrite <- !elem_of_dom.
      assert (dom g3 = dom g2) as ->.
      { apply set_eq. intros y. rewrite !elem_of_dom.
        pose proof (Hkind3 y) as Hk.
        destruct (g3 !! y), (g2 !! y); simpl in Hk; try done; split; eauto. }
      rewrite Hg2, dom_alter_L. unfold g1.
      rewrite dom_add_vertex, elem_of_union, elem_of_singleton. tauto. }
    destruct (IH g3 g' Hrun Hc3 Hkinds3) as (Hc' & Hkinds' & Hdom' & Happs').
    split; [done|]. split; [done|]. split.
    + intros k. rewrite Hdom', Hdom3, elem_of_cons. tauto.
    + intros x m. rewrite Happs', Happs3, elem_of_cons. tauto.
Qed.

Lemma in_cast_true (movies : movies_dict) a m :
  in_cast movies a m = true ↔ ∃ r, movies_lookup movies m = Some r ∧ a ∈ cast r.
Proof.
  unfold in_cast. destruct (movies_lookup movies m) as [r|].
  - rewrite bool_decide_eq_true. split; [eauto|]. by intros (r' & [= <-] & H).
  - split; [done|]. by intros (r' & [=] & _).
Qed.

Lemma add_movies_keeps (movies : movies_dict) keys :
  ∀ g g' : Graph, add_movies movies keys g = Ret g' →
  constructed g → all_of_kind g "actor" →
  constructed g' ∧ all_of_kind g' "actor" ∧
  (∀ k, is_Some (g' !! k) ↔
        is_Some (g !! k) ∨ ∃ m, m ∈ keys ∧ in_cast movies k m = true) ∧
  (∀ x m, m ∈ appearances_of g' x ↔
          m ∈ appearances_of g x ∨ (m ∈ keys ∧ in_cast movies x m = true)).
Proof.
  induction keys as [|movie rest IH]; intros g g' Hrun Hc Hkinds; simpl in Hrun.
  - injection Hrun as <-. split; [done|]. split; [done|]. split.
    + intros k. split; [tauto|]. by intros [H|(m & H%elem_of_nil & _)].
    + intros x m. split; [tauto|]. by intros [H|[H%elem_of_nil _]].
  - apply bind_inv_Ret in Hrun as (r & Hr & Hrun).
    apply bind_inv_Ret in Hrun as (g1 & Hcast & Hrun).
    unfold movies_getitem in Hr.
    destruct (movies_lookup movies movie) as [r'|] eqn:Hlook; [|done].
    injection Hr as ->.
    destruct (add_cast_keeps movies movie (cast r) g g1 Hcast Hc Hkinds)
      as (Hc1 & Hkinds1 & Hdom1 & Happs1).
    destruct (IH g1 g' Hrun Hc1 Hkinds1) as (Hc' & Hkinds' & Hdom' & Happs').
    assert (Hin : ∀ x, x ∈ cast r ↔ in_cast movies x movie = true).
    { intros x. rewrite in_cast_true. split; [eauto|].
      intros (r' & Hr' & Hx). congruence. }
    split; [done|]. split; [done|]. split.
    + intros k. rewrite Hdom', Hdom1, Hin. split.
      * intros [[H|H]|(m & Hm & Hc'')]; [by left| |].
        -- right. exists movie. split; [left|done].
        -- right. exists m. split; [by right|done].
      * intros [H|(m & [->|Hm]%elem_of_cons & Hc'')]; [tauto|tauto|].
        right. eauto.
    + intros x m. rewrite Happs', Happs1, Hin, elem_of_cons. split.
      * intros [[H|[-> H]]|[Hm Hc'']]; tauto.
      * intros [H|[[->|Hm] Hc'']]; tauto.
Qed.

Lemma elem_of_movies_of (movies : movies_dict) a m :
  m ∈ movies_of movies a ↔ ∃ r, movies_lookup movies m = Some r ∧ a ∈ cast r.
Proof.
  unfold movies_of. rewrite elem_of_list_to_set, list_elem_of_filter, in_cast_true.
  split; [tauto|]. intros (r & Hr & Ha). split; [eauto|].
  apply movies_lookup_is_Some. eauto.
Qed.

Lemma create_actor_graph_keeps (movies : movies_dict) g :
  create_actor_graph movies = Ret g →
  constructed g ∧ all_of_kind g "actor" ∧
  (∀ a, is_Some (g !! a) ↔ ∃ m r, movies_lookup movies m = Some r ∧ a ∈ cast r) ∧
  (∀ a, appearances_of g a = movies_of movies a).
Proof.
  intros Hrun. unfold create_actor_graph in Hrun.
  destruct (add_movies_keeps movies (movies.*1) empty_graph g Hrun)
    as (Hc & Hkinds & Hdom & Happs).
  { constructor. }
  { intros x v Hv. unfold empty_graph in Hv. by rewrite lookup_empty in Hv. }
  split; [done|]. split; [done|]. split.
  - intros a. rewrite Hdom. unfold empty_graph. rewrite lookup_empty. split.
    + intros [H%is_Some_None|(m & _ & (r & Hr & Ha)%in_cast_true)]; [done|eauto].
    + intros (m & r & Hr & Ha). right. exists m.
      split; [apply movies_lookup_is_Some; eauto|]. apply in_cast_true. eauto.
  - intros a. apply set_eq. intros m. rewrite Happs, elem_of_movies_of.
    unfold appearances_of, empty_graph. rewrite lookup_empty. simpl.
    rewrite elem_of_empty, in_cast_true. split.
    + intros [[]|[_ H]]. done.
    + intros (r & Hr & Ha). right. split; [|eauto].
      apply movies_lookup_is_Some. eauto.
Qed.

(** X22.  The graph [create_actor_graph] returns is built only by the mutating
    operations within their preconditions, so it satisfies the edge
    invariant and its neighbour sets stay inside the graph; its vertices are
    the actors of the casts, all of kind ['actor']. *)
Theorem actor_graph_invariants (movies : movies_dict) g :
  create_actor_graph movies = Ret g →
  constructed g ∧ edge_invariant g ∧ wf g ∧
  (∀ a, item_in_graph g a = true ↔
        ∃ m r, movies_lookup movies m = Some r ∧ a ∈ cast r) ∧
  get_all_vertices g "actor" = get_all_vertices g "" ∧
  get_all_vertices g "movie" = ∅.
Proof.
  intros (Hc & Hkinds & Hdom & _)%create_actor_graph_keeps.
  pose proof (constructed_items_ok g Hc) as Hitems.
  assert (Hmem : ∀ k x, k ≠ "" →
            x ∈ get_all_vertices g k ↔ ∃ v, g !! x = Some v ∧ kind v = k).
  { intros k x Hk. unfold get_all_vertices. rewrite decide_True by done.
    rewrite elem_of_list_to_set, list_elem_of_fmap. split.
    - intros ([y v] & -> & [Hkind Hin%elem_of_map_to_list]%list_elem_of_filter).
      simpl in *. rewrite (Hitems y v Hin). eauto.
    - intros (v & Hv & Hkind). exists (x, v). simpl.
      split; [by rewrite (Hitems x v Hv)|].
      apply list_elem_of_filter. split; [done|]. by apply elem_of_map_to_list. }
  split; [done|]. split; [|split; [by apply constructed_wf|split; [|split]]].
  - apply edge_invariant_nbr. apply constructed_nbr in Hc as (? & ? & _). done.
  - intros a. by rewrite item_in_graph_true, Hdom.
  - apply set_eq. intros x. rewrite Hmem by done.
    unfold get_all_vertices at 1. rewrite decide_False by (by intros H).
    rewrite elem_of_dom. split.
    + intros (v & Hv & _). eauto.
    + intros [v Hv]. exists v. split; [done|]. by apply (Hkinds x).
  - apply set_eq. intros x. rewrite Hmem by done. rewrite elem_of_empty. split; [|done].
    intros (v & Hv & Hkind). rewrite (Hkinds x v Hv) in Hkind. discriminate.
Qed.

(** X23.  In the graph [create_actor_graph] returns, the appearance set of an actor
    holds exactly the movies whose cast holds the actor, and the common
    movies of two actors are the movies whose cast holds both. *)
Theorem actor_graph_appearances (movies : movies_dict) g a b :
  create_actor_graph movies = Ret g →
  item_in_graph g a = true → item_in_graph g b = true →
  get_appearances g a = Ret (movies_of movies a) ∧
  ∃ S, get_common_movies g a b = Ret S ∧
       ∀ m, m ∈ S ↔ ∃ r, movies_lookup movies m = Some r ∧ a ∈ cast r ∧ b ∈ cast r.
Proof.
  intros (_ & _ & _ & Happs)%create_actor_graph_keeps
    [va Ha]%item_in_graph_true [vb Hb]%item_in_graph_true.
  pose proof (Happs a) as Happa. pose proof (Happs b) as Happb.
  unfold appearances_of in Happa, Happb. rewrite Ha in Happa. rewrite Hb in Happb.
  simpl in *. split.
  - unfold get_appearances, getitem. rewrite Ha. simpl. by rewrite Happa.
  - unfold get_common_movies. rewrite Ha, Hb. eexists. split; [done|].
    intros m. rewrite elem_of_intersection, Happa, Happb, !elem_of_movies_of. split.
    + intros [(r & Hr & Hra) (r' & Hr' & Hrb)]. exists r.
      assert (r' = r) as -> by congruence. done.
    + intros (r & Hr & Hra & Hrb). split; exists r; done.
Qed.

(** X24.  The graph and the movies mapping of [initialize_graphs] fit together:
    with a recognised key and a mapping in which [float] accepts the
    selected field of every record, the filtered search between two actors
    of the graph raises nothing, and [filter_by_key] on two of them neither. *)
Theorem actor_graph_filtered_search_safe (movies : movies_dict) g s t key field
    thresholds :
  create_actor_graph movies = Ret g → field_of_key key = Some field →
  (∀ m r, movies_lookup movies m = Some r → ∃ x, float (field r) = Ret x) →
  item_in_graph g s = true → item_in_graph g t = true →
  (∃ r, filter_by_key g (s, t) key thresholds movies = Ret r) ∧
  (∃ p, shortest_path_bfs_filtered g (s, t) key thresholds movies = Ret p).
Proof.
  intros (Hc & _ & _ & Happs)%create_actor_graph_keeps Hkey Hfloat
    Hs%item_in_graph_true Ht%item_in_graph_true.
  pose proof (constructed_wf g Hc) as Hwf.
  assert (Hcov : covered g movies field).
  { intros x v Hv m Hm. pose proof (Happs x) as Hx. unfold appearances_of in Hx.
    rewrite Hv in Hx. simpl in Hx. rewrite Hx in Hm.
    apply elem_of_movies_of in Hm as (r & Hr & _).
    apply usable_float. destruct (Hfloat m r Hr) as [y Hy]. eauto. }
  split; [by eapply filter_by_key_covered|].
  rewrite shortest_path_bfs_filtered_as_unfiltered.
  2:{ intros a b Hab. eapply filter_by_key_covered; [done|done| |].
      - by eapply nbr_in_graph.
      - by eapply wf_nbr. }
  destruct (shortest_path_bfs_correct (admissible_graph g key thresholds movies) s t)
    as (p & Hrun & _).
  { by apply wf_admissible_graph. }
  { by apply lookup_admissible_graph_is_Some. }
  { by apply lookup_admissible_graph_is_Some. }
  eauto.
Qed.

(** ** What [create_recommended_movie_graph] builds *)

Lemma all_of_kind_alter (f : _Vertex → _Vertex) k (g : Graph) kind_ :
  (∀ v, kind (f v) = kind v) → all_of_kind g kind_ → all_of_kind (alter f k g) kind_.
Proof.
  intros Hf Hg x v Hv. rewrite lookup_alter in Hv. case_decide as Hk.
  - subst k. destruct (g !! x) as [v'|] eqn:Hx; [|done]. simpl in Hv.
    injection Hv as <-. rewrite Hf. by apply (Hg x).
  - by apply (Hg x).
Qed.

Lemma all_of_kind_add_vertex (g : Graph) item_ kind_ :
  all_of_kind g kind_ → all_of_kind (add_vertex g item_ kind_) kind_.
Proof.
  intros Hg x v Hv. rewrite lookup_add_vertex in Hv.
  destruct (g !! x) as [v'|] eqn:Hx.
  - injection Hv as <-. by apply (Hg x).
  - case_decide; [|done]. by injection Hv as <-.
Qed.

Lemma add_recommendations_missing_score main_movie (sim_scores : gmap string Q) recs :
  ∀ g : Graph, is_Some (g !! main_movie) →
  (∃ c, c ∈ recs ∧ sim_scores !! c = None) →
  add_recommendations g main_movie sim_scores recs = Raise KeyError.
Proof.
  induction recs as [|c rest IH]; intros g Hmain (x & Hx & Hnone); simpl.
  - by apply elem_of_nil in Hx.
  - unfold add_sim_score, getitem.
    destruct (sim_scores !! c) as [s|] eqn:Hs; simpl; [|done].
    assert (His : ∀ k, is_Some (add_vertex g c "movie" !! k) ↔ is_Some (g !! k) ∨ k = c).
    { intros k. rewrite <- !elem_of_dom, dom_add_vertex.
      rewrite elem_of_union, elem_of_singleton. tauto. }
    destruct (proj2 (His c)) as [v1 Hv1]; [by right|]. rewrite Hv1.
    set (g2 := alter (set_sim_score s) c (add_vertex g c "movie")).
    assert (Hdom2 : ∀ k, is_Some (g2 !! k) ↔ is_Some (g !! k) ∨ k = c).
    { intros k. unfold g2. rewrite <- elem_of_dom, dom_alter_L, elem_of_dom.
      apply His. }
    rewrite bind_Ret, add_edge_ret; [|apply Hdom2; by right|apply Hdom2; by left].
    rewrite bind_Ret. apply IH.
    + rewrite <- elem_of_dom, !dom_alter_L, elem_of_dom. apply Hdom2. by left.
    + apply elem_of_cons in Hx as [->|Hx]; [congruence|eauto].
Qed.

Lemma add_recommendations_general main_movie (sim_scores : gmap string Q) recs :
  ∀ g : Graph,
  is_Some (g !! main_movie) →
  (∀ c, c ∈ recs → is_Some (sim_scores !! c)) →
  ∃ g', add_recommendations g main_movie sim_scores recs = Ret g' ∧
    (∀ k, is_Some (g' !! k) ↔ is_Some (g !! k) ∨ k ∈ recs) ∧
    (∀ a b, nbr g' a b ↔
       nbr g a b ∨ (a ∈ recs ∧ b = main_movie) ∨ (a = main_movie ∧ b ∈ recs)) ∧
    (∀ c, c ∈ recs → sim_score <$> g' !! c = sim_scores !! c) ∧
    (∀ x, x ∉ recs → sim_score <$> g' !! x = sim_score <$> g !! x) ∧
    (main_movie ∉ recs → constructed g → constructed g') ∧
    (all_of_kind g "movie" → all_of_kind g' "movie").
Proof.
  induction recs as [|c rest IH]; intros g Hmain Hscores; simpl.
  - exists g. split; [done|]. split_and!; try tauto.
    + intros k. split; [tauto|]. by intros [H|H%elem_of_nil].
    + intros a b. split; [tauto|].
      by intros [H|[[H%elem_of_nil _]|[_ H%elem_of_nil]]].
    + by intros c Hc%elem_of_nil.
  - destruct (Hscores c) as [s Hs]; [left|].
    assert (His : ∀ k, is_Some (add_vertex g c "movie" !! k) ↔ is_Some (g !! k) ∨ k = c).
    { intros k. rewrite <- !elem_of_dom, dom_add_vertex.
      rewrite elem_of_union, elem_of_singleton. tauto. }
    unfold add_sim_score at 1, getitem. rewrite Hs. simpl.
    destruct (proj2 (His c)) as [v1 Hv1]; [by right|]. rewrite Hv1.
    set (g1 := add_vertex g c "movie") in *.
    set (g2 := alter (set_sim_score s) c g1).
    assert (Hg2 : add_sim_score g1 c sim_scores = Ret g2).
    { unfold add_sim_score, getitem. rewrite Hs. simpl. by rewrite Hv1. }
    assert (Hdom2 : ∀ k, is_Some (g2 !! k) ↔ is_Some (g !! k) ∨ k = c).
    { intros k. unfold g2. rewrite <- elem_of_dom, dom_alter_L, elem_of_dom.
      apply His. }
    rewrite bind_Ret, add_edge_ret; [|apply Hdom2; by right|apply Hdom2; by left].
    rewrite bind_Ret.
    set (g3 := alter (add_neighbour c) main_movie (alter (add_neighbour main_movie) c g2)).
    assert (Hg3 : add_edge g2 c main_movie = Ret g3).
    { apply add_edge_ret; apply Hdom2; [by right|by left]. }
    assert (Hdom3 : ∀ k, is_Some (g3 !! k) ↔ is_Some (g !! k) ∨ k = c).
    { intros k. rewrite (lookup_add_edge_is_Some _ _ _ _ _ Hg3). apply Hdom2. }
    destruct (IH g3) as (g' & Hrun & Hdom & Hnbr & Hsc & Hpres & Hcons & Hkinds).
    { apply Hdom3. by left. }
    { intros x Hx. apply Hscores. by right. }
    exists g'. split; [done|].
    assert (Hscore3 : ∀ x, sim_score <$> g3 !! x =
              if decide (x = c) then Some s else sim_score <$> g !! x).
    { intros x. rewrite (sim_score_add_edge _ _ _ _ _ Hg3). unfold g2.
      rewrite lookup_alter. case_decide as Hx.
      - subst x. rewrite Hv1. simpl. by rewrite decide_True.
      - rewrite decide_False by done. unfold g1. rewrite lookup_add_vertex.
        destruct (g !! x); [done|]. by rewrite decide_False. }
    split_and!.
    + intros k. rewrite Hdom, Hdom3, elem_of_cons. tauto.
    + intros a b. rewrite Hnbr, (nbr_add_edge _ _ _ _ _ _ Hg3). unfold g2.
      rewrite nbr_alter_same by done. unfold g1.
      rewrite nbr_add_vertex, !elem_of_cons. split.
      * intros [[H|[[-> ->]|[-> ->]]]|[[H ->]|[-> H]]]; eauto 6.
      * intros [H|[[[->|H] ->]|[-> [->|H]]]]; eauto 6.
    + intros x Hx. destruct (decide (x ∈ rest)) as [Hin|Hnin]; [by apply Hsc|].
      apply elem_of_cons in Hx as [->|Hx]; [|done].
      rewrite Hpres, Hscore3 by done. by rewrite decide_True.
    + intros x Hx. apply not_elem_of_cons in Hx as [Hxc Hx].
      rewrite Hpres, Hscore3 by done. by rewrite decide_False.
    + intros [Hne Hnotin]%not_elem_of_cons Hc. apply Hcons; [done|].
      apply (constructed_add_edge g2 c main_movie); [|congruence|done].
      apply (constructed_add_sim_score g1 c sim_scores); [|done].
      by apply constructed_add_vertex.
    + intros Hk. apply Hkinds. unfold g3, g2, g1.
      repeat apply all_of_kind_alter; try done. by apply all_of_kind_add_vertex.
Qed.

Lemma recommended_start main_movie :
  ∃ gm : Graph,
    add_sim_score (add_vertex empty_graph main_movie "movie") main_movie
      {[main_movie := 1%Q]} = Ret gm ∧
    gm !! main_movie = Some (set_sim_score 1 (new_vertex main_movie "movie")) ∧
    (∀ k, is_Some (gm !! k) ↔ k = main_movie) ∧
    (∀ a b, ¬ nbr gm a b) ∧ constructed gm ∧ all_of_kind gm "movie".
Proof.
  set (g0 := add_vertex empty_graph main_movie "movie").
  assert (H0 : ∀ k, g0 !! k =
            if decide (main_movie = k) then Some (new_vertex main_movie "movie")
            else None).
  { intros k. unfold g0. rewrite lookup_add_vertex. unfold empty_graph.
    by rewrite lookup_empty. }
  assert (Hrun : add_sim_score g0 main_movie {[main_movie := 1%Q]} =
                 Ret (alter (set_sim_score 1) main_movie g0)).
  { unfold add_sim_score, getitem. rewrite lookup_singleton_eq. simpl.
    by rewrite H0, decide_True. }
  eexists. split; [exact Hrun|].
  assert (Hl : ∀ k, alter (set_sim_score 1) main_movie g0 !! k =
            if decide (main_movie = k)
            then Some (set_sim_score 1 (new_vertex main_movie "movie")) else None).
  { intros k. rewrite lookup_alter. case_decide as Hk; rewrite H0.
    - by rewrite decide_True.
    - by rewrite decide_False. }
  split_and!.
  - by rewrite Hl, decide_True.
  - intros k. rewrite Hl. case_decide; split; try done; eauto.
  - intros a b (v & Hv & Hin). rewrite Hl in Hv. case_decide; [|done].
    injection Hv as <-. simpl in Hin. by apply elem_of_nil in Hin.
  - apply (constructed_add_sim_score g0 main_movie {[main_movie := 1%Q]}); [|done].
    apply constructed_add_vertex. constructor.
  - intros x v Hv. rewrite Hl in Hv. case_decide; [|done]. by injection Hv as <-.
Qed.

(** X25.  [create_recommended_movie_graph] raises [KeyError] exactly when some
    candidate has no score in the mapping; otherwise it returns a graph. *)
Theorem recommended_graph_missing_score main_movie recs (sim_scores : gmap string Q) :
  (create_recommended_movie_graph main_movie recs sim_scores = Raise KeyError ↔
   ∃ c, c ∈ recommendation_list recs ∧ sim_scores !! c = None) ∧
  ((∀ c, c ∈ recommendation_list recs → is_Some (sim_scores !! c)) →
   ∃ g, create_recommended_movie_graph main_movie recs sim_scores = Ret g).
Proof.
  destruct (recommended_start main_movie) as (gm & Hgm & Hm & _).
  unfold create_recommended_movie_graph. rewrite Hgm, bind_Ret.
  assert (Hall : (∀ c, c ∈ recommendation_list recs → is_Some (sim_scores !! c)) →
            ∃ g, add_recommendations gm main_movie sim_scores
                   (recommendation_list recs) = Ret g).
  { intros Hsc.
    destruct (add_recommendations_general main_movie sim_scores
                (recommendation_list recs) gm) as (g & Hrun & _);
      [by rewrite Hm|done|eauto]. }
  split; [|done]. split.
  - intros Hraise.
    destruct (decide (Forall (λ c, is_Some (sim_scores !! c))
                        (recommendation_list recs))) as [Hf|Hf].
    + rewrite Forall_forall in Hf. destruct (Hall Hf) as [g Hg]. congruence.
    + apply not_Forall_Exists in Hf; [|apply _].
      apply Exists_exists in Hf as (c & Hc & Hnone). exists c. split; [done|].
      by apply eq_None_not_Some.
  - intros Hex. apply add_recommendations_missing_score; [by rewrite Hm|done].
Qed.

(** X26.  When the focal movie is itself among the candidates (all with a score),
    the graph that comes back has the focal movie adjacent to itself, with
    the score looked up in the mapping in place of 1: the edge invariant is
    broken. *)
Theorem recommended_graph_focal_candidate main_movie recs (sim_scores : gmap string Q) :
  main_movie ∈ recommendation_list recs →
  (∀ c, c ∈ recommendation_list recs → is_Some (sim_scores !! c)) →
  ∃ g, create_recommended_movie_graph main_movie recs sim_scores = Ret g ∧
    adjacent g main_movie main_movie = true ∧
    sim_score <$> g !! main_movie = sim_scores !! main_movie ∧
    ¬ edge_invariant g.
Proof.
  intros Hin Hsc. destruct (recommended_start main_movie) as (gm & Hgm & Hm & _).
  unfold create_recommended_movie_graph. rewrite Hgm, bind_Ret.
  destruct (add_recommendations_general main_movie sim_scores
              (recommendation_list recs) gm)
    as (g & Hrun & Hdom & Hnbr & Hscore & _); [by rewrite Hm|done|].
  exists g. split; [done|].
  assert (Hself : nbr g main_movie main_movie) by (apply Hnbr; tauto).
  split; [|split].
  - apply adjacent_true. split; [done|]. by eapply nbr_in_graph.
  - by apply Hscore.
  - intros [Hirr _]%edge_invariant_nbr. by apply (Hirr main_movie).
Qed.

(** X27.  When the focal movie is not among the candidates (all with a score), the
    recommendation graph satisfies the edge invariant, its vertices are the
    focal movie and the candidates and no others, every vertex is of kind
    ['movie'], and the search between two distinct candidates goes through
    the focal movie. *)
Theorem recommended_graph_paths main_movie recs (sim_scores : gmap string Q) :
  main_movie ∉ recommendation_list recs →
  (∀ c, c ∈ recommendation_list recs → is_Some (sim_scores !! c)) →
  ∃ g, create_recommended_movie_graph main_movie recs sim_scores = Ret g ∧
    constructed g ∧ edge_invariant g ∧
    (∀ x, x ∈ get_all_vertices g "" ↔
          x = main_movie ∨ x ∈ recommendation_list recs) ∧
    (∀ x v, g !! x = Some v → item v = x ∧ kind v = "movie") ∧
    (∀ x, x ∈ get_all_vertices g "movie" ↔
          x = main_movie ∨ x ∈ recommendation_list recs) ∧
    (∀ c1 c2, c1 ∈ recommendation_list recs → c2 ∈ recommendation_list recs →
       c1 ≠ c2 → shortest_path_bfs g c1 c2 = Ret [c1; main_movie; c2]).
Proof.
  intros Hnotin Hsc.
  destruct (recommended_start main_movie) as (gm & Hgm & Hm & Hdomm & Hnone & Hcm & Hkm).
  unfold create_recommended_movie_graph. rewrite Hgm, bind_Ret.
  destruct (add_recommendations_general main_movie sim_scores
              (recommendation_list recs) gm)
    as (g & Hrun & Hdom & Hnbr & _ & _ & Hcons & Hkinds); [by rewrite Hm|done|].
  exists g. split; [done|].
  pose proof (Hcons Hnotin Hcm) as Hc. pose proof (Hkinds Hkm) as Hk.
  pose proof (constructed_wf g Hc) as Hwf.
  pose proof (constructed_items_ok g Hc) as Hitems.
  split; [done|]. split_and!.
  - apply edge_invariant_nbr. apply constructed_nbr in Hc as (? & ? & _). done.
  - intros x. unfold get_all_vertices. rewrite decide_False by (intros H; by apply H).
    by rewrite elem_of_dom, Hdom, Hdomm.
  - intros x v Hv. split; [by apply (Hitems x v)|by apply (Hk x v)].
  - intros x. unfold get_all_vertices. rewrite decide_True by done.
    rewrite elem_of_list_to_set, list_elem_of_fmap, <- Hdomm, <- Hdom. split.
    + intros ([y v] & -> & [_ Hin%elem_of_map_to_list]%list_elem_of_filter).
      simpl. rewrite (Hitems y v Hin). eauto.
    + intros [v Hv]. exists (x, v). simpl. split; [by rewrite (Hitems x v Hv)|].
      apply list_elem_of_filter. split; [by apply (Hk x)|].
      by apply elem_of_map_to_list.
  - intros c1 c2 Hc1 Hc2 Hne.
    assert (H1 : is_Some (g !! c1)) by (apply Hdom; by right).
    assert (H2 : is_Some (g !! c2)) by (apply Hdom; by right).
    assert (Hmain : is_Some (g !! main_movie)).
    { apply Hdom. left. by apply Hdomm. }
    assert (Hwalk : connects g c1 c2 [c1; main_movie; c2]).
    { split; [done|]. split; [done|]. split; [|split; [|done]].
      - apply adjacent_true. split; [|done]. apply Hnbr. tauto.
      - apply adjacent_true. split; [|done]. apply Hnbr. tauto. }
    destruct (shortest_path_bfs_correct g c1 c2 Hwf H1 H2)
      as (p & -> & [[_ Hno]|[(Hh & Hl & Hw) Hmin]]).
    { destruct Hno. by exists [c1; main_movie; c2]. }
    specialize (Hmin _ Hwalk). simpl in Hmin.
    assert (Hstep : ∀ x, adjacent g c1 x = true → x = main_movie).
    { intros x [Hx _]%adjacent_true. apply Hnbr in Hx as [Hx|[[_ ->]|[-> _]]];
        [by apply Hnone in Hx|done|done]. }
    destruct p as [|x [|y [|z [|w p']]]]; simpl in *; try lia; try discriminate.
    + congruence.
    + injection Hh as ->. injection Hl as ->. destruct Hw as [Hw _].
      apply Hstep in Hw. subst c2. done.
    + injection Hh as ->. injection Hl as ->. destruct Hw as [Hw _].
      apply Hstep in Hw. by subst y.
Qed.

(** ** Mutations only add *)

Lemma appearances_of_alter (f : _Vertex → _Vertex) k (g : Graph) a :
  (∀ v, appearances v ⊆ appearances (f v)) →
  appearances_of g a ⊆ appearances_of (alter f k g) a.
Proof.
  intros Hf. unfold appearances_of. rewrite lookup_alter. case_decide; [subst|done].
  destruct (g !! a); simpl; [apply Hf|done].
Qed.

(** X9.  No call of a mutating operation removes a vertex, an edge or an
    appearance, and none puts a vertex that is not in the graph into a
    neighbour set. *)
Theorem mutations_only_add (g g' : Graph) :
  mutates g g' →
  (∀ x, item_in_graph g x = true → item_in_graph g' x = true) ∧
  (∀ a b, adjacent g a b = true → adjacent g' a b = true) ∧
  (∀ a, appearances_of g a ⊆ appearances_of g' a) ∧
  (wf g → wf g').
Proof.
  intros Hm.
  assert (Hgen : (∀ x, is_Some (g !! x) → is_Some (g' !! x)) ∧
                 (∀ a b, nbr g a b → nbr g' a b) ∧
                 (∀ a, appearances_of g a ⊆ appearances_of g' a) ∧
                 (∀ a b, nbr g' a b → nbr g a b ∨ is_Some (g' !! b))).
  { destruct Hm as [g i k|g a b g' Hrun|g a m g' Hrun|g m sc g' Hrun].
    - split_and!.
      + intros x. rewrite <- !elem_of_dom, dom_add_vertex, elem_of_union. tauto.
      + intros a b. by rewrite nbr_add_vertex.
      + intros a. unfold appearances_of. rewrite lookup_add_vertex.
        destruct (g !! a); [done|]. simpl. apply empty_subseteq.
      + intros a b. rewrite nbr_add_vertex. tauto.
    - pose proof (add_edge_inv g a b g' Hrun) as (Ha & Hb & Hg').
      assert (Hdom : ∀ x, is_Some (g' !! x) ↔ is_Some (g !! x)).
      { intros x. apply (lookup_add_edge_is_Some g a b g' x Hrun). }
      split_and!.
      + intros x. by rewrite Hdom.
      + intros x y. rewrite (nbr_add_edge _ _ _ _ _ _ Hrun). tauto.
      + intros x. subst g'.
        etrans; [|apply appearances_of_alter; done].
        by apply appearances_of_alter.
      + intros x y. rewrite (nbr_add_edge _ _ _ _ _ _ Hrun), Hdom.
        intros [H|[[_ ->]|[_ ->]]]; tauto.
    - pose proof (add_appearances_inv g a m g' Hrun) as (Ha & ->).
      split_and!.
      + intros x. by rewrite <- !elem_of_dom, dom_alter_L.
      + intros x y. by rewrite nbr_alter_same.
      + intros x. apply appearances_of_alter. intros v. simpl.
        apply union_subseteq_r.
      + intros x y. rewrite nbr_alter_same by done. tauto.
    - pose proof (add_sim_score_inv g m sc g' Hrun) as (s & _ & _ & ->).
      split_and!.
      + intros x. by rewrite <- !elem_of_dom, dom_alter_L.
      + intros x y. by rewrite nbr_alter_same.
      + intros x. by apply appearances_of_alter.
      + intros x y. rewrite nbr_alter_same by done. tauto. }
  destruct Hgen as (Hdom & Hnbr & Happ & Hnew). split_and!.
  - intros x. rewrite !item_in_graph_true. apply Hdom.
  - intros a b [Hab Hb]%adjacent_true. apply adjacent_true. split; auto.
  - done.
  - intros Hwf. apply wf_intro. intros a b Hab.
    destruct (Hnew a b Hab) as [H|H]; [|done]. apply Hdom. by eapply wf_nbr.
Qed.

(** X15.  Adding an edge never lengthens a shortest path: where the search found a
    path before [add_edge], it finds one that is no longer afterwards. *)
Theorem add_edge_shortens_paths (g : Graph) a b g' s t p :
  wf g → add_edge g a b = Ret g' →
  shortest_path_bfs g s t = Ret p → p ≠ [] →
  ∃ p', shortest_path_bfs g' s t = Ret p' ∧ p' ≠ [] ∧ length p' ≤ length p.
Proof.
  intros Hwf Hadd Hrun Hp.
  assert (is_Some (g !! s) ∧ is_Some (g !! t)) as [Hs Ht].
  { unfold shortest_path_bfs in Hrun. case_decide as Hpresent; [done|].
    destruct (g !! s), (g !! t); eauto; destruct Hpresent; eauto. }
  assert (Hdom : ∀ x, is_Some (g' !! x) ↔ is_Some (g !! x)).
  { intros x. apply (lookup_add_edge_is_Some g a b g' x Hadd). }
  assert (Hwf' : wf g').
  { apply wf_intro. intros x y. rewrite (nbr_add_edge _ _ _ _ _ _ Hadd), Hdom.
    pose proof (add_edge_inv g a b g' Hadd) as (Ha & Hb & _).
    intros [H|[[_ ->]|[_ ->]]]; [by eapply wf_nbr|done|done]. }
  assert (Hadj : ∀ x y, adjacent g x y = true → adjacent g' x y = true).
  { intros x y. rewrite !adjacent_true, (nbr_add_edge _ _ _ _ _ _ Hadd), Hdom. tauto. }
  assert (Hwalk : ∀ q, is_walk g q → is_walk g' q).
  { induction q as [|x rest IH]; [done|]. destruct rest as [|y rest']; [done|].
    intros [Hxy Hw]%is_walk_cons. apply is_walk_cons. split; [by apply Hadj|by apply IH]. }
  destruct (shortest_path_bfs_correct g s t Hwf Hs Ht) as (p0 & Hrun0 & Hcases).
  assert (p0 = p) as -> by congruence.
  destruct Hcases as [[-> _]|[(Hh & Hl & Hw) _]]; [done|].
  destruct (shortest_path_bfs_correct g' s t Hwf') as (p' & Hrun' & Hcases');
    [by apply Hdom|by apply Hdom|].
  exists p'. split; [done|].
  assert (Hc' : connects g' s t p) by (split; [done|split; [done|by apply Hwalk]]).
  destruct Hcases' as [[-> Hno]|Hsh].
  - destruct Hno. by exists p.
  - split; [by eapply shortest_nonempty|]. destruct Hsh as [_ Hmin]. by apply Hmin.
Qed.

(** ** Widening the thresholds *)

Lemma edge_ok_widen (g : Graph) key field lower upper lower' upper' movies a b :
  field_of_key key = Some field → covered g movies field →
  (lower' <= lower)%Q → (upper <= upper')%Q →
  edge_ok g key (lower, upper) movies a b = true →
  edge_ok g key (lower', upper') movies a b = true.
Proof.
  intros Hkey Hcov Hlo Hup. unfold edge_ok, filter_by_key.
  destruct (g !! a) as [va|] eqn:Ha; [|done].
  destruct (g !! b) as [vb|] eqn:Hb; [|done].
  assert (Hall : ∀ m, m ∈ elements (appearances va ∩ appearances vb) →
                      usable movies field m = true).
  { intros m [Hm _]%elem_of_elements%elem_of_intersection.
    by apply (Hcov a va Ha m). }
  assert (Hfield :
    match (common_filtered ← filter_movies field lower upper movies
             (elements (appearances va ∩ appearances vb));
           if decide (common_filtered ≠ ∅) then Ret (true, common_filtered)
           else Ret (false, ∅)) with
    | Ret (true, _) => true | _ => false end = true →
    match (common_filtered ← filter_movies field lower' upper' movies
             (elements (appearances va ∩ appearances vb));
           if decide (common_filtered ≠ ∅) then Ret (true, common_filtered)
           else Ret (false, ∅)) with
    | Ret (true, _) => true | _ => false end = true).
  { destruct (filter_movies_spec field lower upper movies _ Hall) as (S & -> & HS).
    destruct (filter_movies_spec field lower' upper' movies _ Hall) as (S' & -> & HS').
    rewrite !bind_Ret. destruct (decide (S ≠ ∅)) as [Hne|]; [|done]. intros _.
    apply set_choose_L in Hne as [m Hm].
    apply HS in Hm as (Hin & r & x & Hr & Hx & (q & -> & H1 & H2)%in_range_true).
    assert (Hm' : m ∈ S').
    { apply HS'. split; [done|]. exists r, (Real q). split_and!; [done|done|].
      apply in_range_true. exists q.
      split_and!; [done|by eapply Qle_trans|by eapply Qle_trans]. }
    rewrite decide_True; [done|]. intros ->. by apply not_elem_of_empty in Hm'. }
  by apply field_of_key_valid in Hkey as [[-> ->] | [-> ->]]; simpl; apply Hfield.
Qed.

(** X21.  With a recognised key and, for every movie of every appearance set,
    a record whose selected field [float] accepts, widening the thresholds
    never loses a path nor lengthens it. *)
Theorem filtered_search_widen (g : Graph) s t key field lower upper lower' upper'
    (movies : movies_dict) p :
  wf g → field_of_key key = Some field → covered g movies field →
  (lower' <= lower)%Q → (upper <= upper')%Q →
  shortest_path_bfs_filtered g (s, t) key (lower, upper) movies = Ret p → p ≠ [] →
  ∃ p', shortest_path_bfs_filtered g (s, t) key (lower', upper') movies = Ret p' ∧
        p' ≠ [] ∧ length p' ≤ length p.
Proof.
  intros Hwf Hkey Hcov Hlo Hup Hrun Hp.
  assert (Hok : ∀ th a b, nbr g a b →
            ∃ r, filter_by_key g (a, b) key th movies = Ret r).
  { intros th a b Hab. eapply filter_by_key_covered; [done|done| |].
    - by eapply nbr_in_graph.
    - by eapply wf_nbr. }
  pose proof (bfs_filtered_loop_admissible g s t key (lower, upper) movies) as Hadm.
  assert (Hwalk : is_admissible_walk g key (lower, upper) movies p ∧ connects g s t p).
  { split.
    - revert Hrun. unfold shortest_path_bfs_filtered. simpl.
      case_decide; [done|]. apply Hadm.
      intros x p' Hin%list_elem_of_singleton. injection Hin as -> ->.
      split; [apply connects_refl|done].
    - by apply (shortest_path_bfs_filtered_walk g s t key (lower, upper) movies). }
  destruct Hwalk as [Hw (Hh & Hl & _)].
  assert (Hw' : is_admissible_walk g key (lower', upper') movies p).
  { clear Hrun Hh Hl Hp. induction p as [|x rest IH]; [done|].
    destruct rest as [|y rest']; [done|].
    apply is_admissible_walk_cons in Hw as [[Hxy Hok'] Hw].
    apply is_admissible_walk_cons. split; [|by apply IH].
    split; [done|]. by eapply edge_ok_widen. }
  assert (is_Some (g !! s) ∧ is_Some (g !! t)) as [Hs Ht].
  { unfold shortest_path_bfs_filtered in Hrun. simpl in Hrun.
    case_decide as Hpresent; [done|].
    destruct (g !! s), (g !! t); eauto; destruct Hpresent; eauto. }
  rewrite shortest_path_bfs_filtered_as_unfiltered by apply Hok.
  destruct (shortest_path_bfs_correct (admissible_graph g key (lower', upper') movies)
              s t) as (p' & Hrun' & Hcases).
  { by apply wf_admissible_graph. }
  { by apply lookup_admissible_graph_is_Some. }
  { by apply lookup_admissible_graph_is_Some. }
  exists p'. split; [done|].
  assert (Hc : connects (admissible_graph g key (lower', upper') movies) s t p).
  { split; [done|]. split; [done|]. by apply is_walk_admissible_graph. }
  destruct Hcases as [[-> Hno]|Hsh].
  - destruct Hno. by exists p.
  - split; [by eapply shortest_nonempty|]. destruct Hsh as [_ Hmin]. by apply Hmin.
Qed.

(** ** The further theorems at work on the example graphs *)

Lemma doc_actor_graph_built : create_actor_graph doc_movies = Ret doc_actor_graph.
Proof. vm_compute. reflexivity. Qed.

Lemma constructed_doc_actor_graph : constructed doc_actor_graph.
Proof. by destruct (create_actor_graph_keeps _ _ doc_actor_graph_built). Qed.

Lemma constructed_two_strangers : constructed two_strangers.
Proof.
  unfold two_strangers. simpl.
  apply constructed_add_vertex, constructed_add_vertex, constructed_empty.
Qed.

Lemma one_edge_built : add_edge two_strangers "actor1" "actor2" = Ret one_edge.
Proof. vm_compute. reflexivity. Qed.

Lemma constructed_one_edge : constructed one_edge.
Proof.
  apply (constructed_add_edge two_strangers "actor1" "actor2");
    [apply constructed_two_strangers|discriminate|apply one_edge_built].
Qed.

Lemma add_edge_adjacent_two_strangers :
  ∃ g', add_edge two_strangers "actor1" "actor2" = Ret g' ∧
    dom g' = dom two_strangers ∧
    adjacent g' "actor1" "actor2" = true ∧ adjacent g' "actor2" "actor1" = true ∧
    ∀ x y, ¬ (x = "actor1" ∧ y = "actor2") → ¬ (x = "actor2" ∧ y = "actor1") →
           adjacent g' x y = adjacent two_strangers x y.
Proof.
  apply (add_edge_adjacent two_strangers "actor1" "actor2").
  - vm_compute. eauto.
  - vm_compute. eauto.
Defined.

Lemma add_edge_idempotent_one_edge :
  add_edge one_edge "actor1" "actor2" = Ret one_edge ∧
  add_edge one_edge "actor2" "actor1" = Ret one_edge.
Proof.
  apply (add_edge_idempotent two_strangers "actor1" "actor2" one_edge).
  vm_compute. reflexivity.
Defined.

Lemma adjacent_symmetric_irreflexive_doc :
  adjacent doc_actor_graph "actor1" "actor2" = adjacent doc_actor_graph "actor2" "actor1" ∧
  adjacent doc_actor_graph "actor1" "actor1" = false.
Proof.
  apply (adjacent_symmetric_irreflexive doc_actor_graph "actor1" "actor2").
  apply constructed_doc_actor_graph.
Defined.

Lemma get_neighbours_adjacent_doc_graph :
  get_neighbours doc_graph "actor7" = Raise ValueError ∧
  ∃ s, get_neighbours doc_graph "actor2" = Ret s ∧
       ∀ b, b ∈ s ↔ adjacent doc_graph "actor2" b = true.
Proof.
  split.
  - apply (get_neighbours_adjacent doc_graph "actor7"). vm_compute. reflexivity.
  - apply (get_neighbours_adjacent doc_graph "actor2").
    + apply (bool_decide_unpack _). vm_compute. exact I.
    + vm_compute. eauto.
Defined.

Lemma add_appearances_get_one_actor :
  add_appearances one_actor "actor2" "movie1" = Raise ValueError ∧
  ∃ g', add_appearances one_actor "actor1" "movie1" = Ret g' ∧
    get_appearances g' "actor1" = Ret ({["movie1"]} ∪ ∅) ∧
    (∀ x, x ≠ "actor1" → get_appearances g' x = get_appearances one_actor x) ∧
    (∀ x y, adjacent g' x y = adjacent one_actor x y).
Proof.
  split.
  - apply (add_appearances_get one_actor "actor2" "movie1"). vm_compute. reflexivity.
  - apply (add_appearances_get one_actor "actor1" "movie1"). vm_compute. reflexivity.
Defined.

Lemma get_all_vertices_kind_one_edge :
  (∀ x, x ∈ get_all_vertices one_edge "" ↔ item_in_graph one_edge x = true) ∧
  ("actor" ≠ "" →
   ∀ x, x ∈ get_all_vertices one_edge "actor" ↔
        ∃ v, one_edge !! x = Some v ∧ kind v = "actor").
Proof.
  apply (get_all_vertices_kind one_edge "actor"). apply constructed_one_edge.
Defined.

Lemma add_vertex_effect_one_actor :
  item_in_graph (add_vertex one_actor "actor2" "actor") "actor2" = true ∧
  adjacent (add_vertex one_actor "actor2" "actor") "actor2" "actor1" = false ∧
  adjacent (add_vertex one_actor "actor2" "actor") "actor1" "actor2" = false.
Proof.
  split; [apply (add_vertex_effect one_actor "actor2" "actor")|].
  apply (add_vertex_effect one_actor "actor2" "actor").
  - apply (bool_decide_unpack _). vm_compute. exact I.
  - vm_compute. reflexivity.
Defined.

Lemma shortest_path_to_itself_doc_graph :
  shortest_path_bfs doc_graph "actor3" "actor3" = Ret ["actor3"] ∧
  shortest_path_bfs_filtered doc_graph ("actor3", "actor3") "rating" (0, 1)%Q
    test_movies = Ret ["actor3"].
Proof.
  apply (shortest_path_to_itself doc_graph "actor3" "rating" (0, 1)%Q test_movies).
  vm_compute. eauto.
Defined.

Lemma shortest_distance_bfs_exact_doc_bipartite :
  ∃ distances, shortest_distance_bfs doc_bipartite "actor1" = Ret distances ∧
    (reachable doc_bipartite "actor1" "actor4" ↔
     ∃ d, distances !! "actor4" = Some (Finite d)) ∧
    (∀ d, distances !! "actor4" = Some (Finite d) →
          min_hops doc_bipartite "actor1" "actor4" d).
Proof.
  apply (shortest_distance_bfs_exact doc_bipartite "actor1" "actor4").
  - apply (bool_decide_unpack _). vm_compute. exact I.
  - vm_compute. eauto.
  - vm_compute. eauto.
  - discriminate.
Defined.

Lemma shortest_path_bfs_adjacent_doc_graph :
  shortest_path_bfs doc_graph "actor3" "actor4" = Ret ["actor3"; "actor4"].
Proof.
  apply (shortest_path_bfs_adjacent doc_graph "actor3" "actor4").
  - apply (bool_decide_unpack _). vm_compute. exact I.
  - discriminate.
  - vm_compute. reflexivity.
Defined.

Lemma shortest_path_bfs_symmetric_length_doc :
  ∃ p q, shortest_path_bfs doc_actor_graph "actor2" "actor4" = Ret p ∧
         shortest_path_bfs doc_actor_graph "actor4" "actor2" = Ret q ∧
         length p = length q.
Proof.
  apply (shortest_path_bfs_symmetric_length doc_actor_graph "actor2" "actor4").
  - apply constructed_doc_actor_graph.
  - vm_compute. eauto.
  - vm_compute. eauto.
Defined.

Lemma shortest_path_bfs_simple_doc_graph :
  NoDup ["actor1"; "actor2"; "actor4"] ∧
  ∀ x, x ∈ ["actor1"; "actor2"; "actor4"] → is_Some (doc_graph !! x).
Proof.
  apply (shortest_path_bfs_simple doc_graph "actor1" "actor4").
  - apply (bool_decide_unpack _). vm_compute. exact I.
  - vm_compute. reflexivity.
Defined.

Lemma filtered_finds_no_new_path_two_strangers :
  shortest_path_bfs two_strangers "actor1" "actor2" = Ret [] ∧
  shortest_path_bfs_filtered two_strangers ("actor1", "actor2") "rating" (0, 5)%Q
    test_movies = Ret [] ∧
  ([] : list string) = [].
Proof.
  split; [vm_compute; reflexivity|]. split; [vm_compute; reflexivity|].
  apply (filtered_finds_no_new_path two_strangers "actor1" "actor2" "rating"
           (0, 5)%Q test_movies []).
  - apply (bool_decide_unpack _). vm_compute. exact I.
  - vm_compute. reflexivity.
  - vm_compute. reflexivity.
Defined.


Lemma filtered_path_admissible_doc :
  is_admissible_walk doc_actor_graph "release date" (1980, 2000)%Q doc_movies
    ["actor2"; "actor1"; "actor4"].
Proof.
  apply (filtered_path_admissible doc_actor_graph "actor2" "actor4" "release date"
           (1980, 2000)%Q doc_movies).
  vm_compute. reflexivity.
Defined.

Lemma covered_doc_actor_graph : covered doc_actor_graph doc_movies year.
Proof. apply (bool_decide_unpack _). vm_compute. exact I. Qed.

Lemma filtered_search_shortest_admissible_doc :
  ∃ p, shortest_path_bfs_filtered doc_actor_graph ("actor2", "actor4") "release date"
         (1980, 2000)%Q doc_movies = Ret p ∧
    ((p = [] ∧
      ∀ q, head q = Some "actor2" → last q = Some "actor4" →
           ¬ is_admissible_walk doc_actor_graph "release date" (1980, 2000)%Q
               doc_movies q) ∨
     (head p = Some "actor2" ∧ last p = Some "actor4" ∧
      is_admissible_walk doc_actor_graph "release date" (1980, 2000)%Q doc_movies p ∧
      ∀ q, head q = Some "actor2" → last q = Some "actor4" →
           is_admissible_walk doc_actor_graph "release date" (1980, 2000)%Q
             doc_movies q →
           length p ≤ length q)).
Proof.
  apply (filtered_search_shortest_admissible doc_actor_graph "actor2" "actor4"
           "release date" year (1980, 2000)%Q doc_movies).
  - apply (bool_decide_unpack _). vm_compute. exact I.
  - reflexivity.
  - apply covered_doc_actor_graph.
  - vm_compute. eauto.
  - vm_compute. eauto.
Defined.

Lemma actor_graph_invariants_doc :
  constructed doc_actor_graph ∧ edge_invariant doc_actor_graph ∧ wf doc_actor_graph ∧
  (∀ a, item_in_graph doc_actor_graph a = true ↔
        ∃ m r, movies_lookup doc_movies m = Some r ∧ a ∈ cast r) ∧
  get_all_vertices doc_actor_graph "actor" = get_all_vertices doc_actor_graph "" ∧
  get_all_vertices doc_actor_graph "movie" = ∅.
Proof.
  apply (actor_graph_invariants doc_movies doc_actor_graph).
  vm_compute. reflexivity.
Defined.

Lemma actor_graph_appearances_doc :
  get_appearances doc_actor_graph "actor1" = Ret (movies_of doc_movies "actor1") ∧
  ∃ S, get_common_movies doc_actor_graph "actor1" "actor2" = Ret S ∧
       ∀ m, m ∈ S ↔ ∃ r, movies_lookup doc_movies m = Some r ∧
                         "actor1" ∈ cast r ∧ "actor2" ∈ cast r.
Proof.
  apply (actor_graph_appearances doc_movies doc_actor_graph "actor1" "actor2").
  - vm_compute. reflexivity.
  - vm_compute. reflexivity.
  - vm_compute. reflexivity.
Defined.

Lemma actor_graph_filtered_search_safe_doc :
  (∃ r, filter_by_key doc_actor_graph ("actor2", "actor4") "rating" (7, 10)%Q
          doc_movies = Ret r) ∧
  (∃ p, shortest_path_bfs_filtered doc_actor_graph ("actor2", "actor4") "rating"
          (7, 10)%Q doc_movies = Ret p).
Proof.
  apply (actor_graph_filtered_search_safe doc_movies doc_actor_graph "actor2" "actor4"
           "rating" rating (7, 10)%Q).
  - vm_compute. reflexivity.
  - reflexivity.
  - apply movies_lookup_float. repeat constructor; by eexists.
  - vm_compute. reflexivity.
  - vm_compute. reflexivity.
Defined.

Lemma recommended_graph_missing_score_doc :
  create_recommended_movie_graph "Ghost Stories"
    (RecList ["Wild Romance"; "Unrated Movie"]) doc_sim_scores = Raise KeyError ∧
  ∃ g, create_recommended_movie_graph "Ghost Stories" (RecList doc_recommendations)
         doc_sim_scores = Ret g.
Proof.
  split.
  - apply (recommended_graph_missing_score "Ghost Stories"
             (RecList ["Wild Romance"; "Unrated Movie"]) doc_sim_scores).
    exists "Unrated Movie". split; [|vm_compute; reflexivity].
    apply (bool_decide_unpack _). vm_compute. exact I.
  - apply (recommended_graph_missing_score "Ghost Stories"
             (RecList doc_recommendations) doc_sim_scores).
    intros c Hc. simpl in Hc. unfold doc_recommendations in Hc.
    repeat (apply elem_of_cons in Hc as [->|Hc]; [vm_compute; eauto|]).
    by apply elem_of_nil in Hc.
Defined.

Lemma recommended_graph_focal_candidate_doc :
  ∃ g, create_recommended_movie_graph "Wild Romance" (RecList doc_recommendations)
         doc_sim_scores = Ret g ∧
    adjacent g "Wild Romance" "Wild Romance" = true ∧
    sim_score <$> g !! "Wild Romance" = doc_sim_scores !! "Wild Romance" ∧
    ¬ edge_invariant g.
Proof.
  apply (recommended_graph_focal_candidate "Wild Romance" (RecList doc_recommendations)
           doc_sim_scores).
  - apply (bool_decide_unpack _). vm_compute. exact I.
  - intros c Hc. simpl in Hc. unfold doc_recommendations in Hc.
    repeat (apply elem_of_cons in Hc as [->|Hc]; [vm_compute; eauto|]).
    by apply elem_of_nil in Hc.
Defined.

Lemma recommended_graph_paths_doc :
  ∃ g, create_recommended_movie_graph "Ghost Stories" (RecList doc_recommendations)
         doc_sim_scores = Ret g ∧
    constructed g ∧ edge_invariant g ∧
    (∀ x, x ∈ get_all_vertices g "" ↔
          x = "Ghost Stories" ∨ x ∈ doc_recommendations) ∧
    (∀ x v, g !! x = Some v → item v = x ∧ kind v = "movie") ∧
    (∀ x, x ∈ get_all_vertices g "movie" ↔
          x = "Ghost Stories" ∨ x ∈ doc_recommendations) ∧
    (∀ c1 c2, c1 ∈ doc_recommendations → c2 ∈ doc_recommendations →
       c1 ≠ c2 → shortest_path_bfs g c1 c2 = Ret [c1; "Ghost Stories"; c2]).
Proof.
  apply (recommended_graph_paths "Ghost Stories" (RecList doc_recommendations)
           doc_sim_scores).
  - apply (bool_decide_unpack _). vm_compute. exact I.
  - intros c Hc. simpl in Hc. unfold doc_recommendations in Hc.
    repeat (apply elem_of_cons in Hc as [->|Hc]; [vm_compute; eauto|]).
    by apply elem_of_nil in Hc.
Defined.

Lemma mutations_only_add_one_edge :
  (∀ x, item_in_graph two_strangers x = true → item_in_graph one_edge x = true) ∧
  (∀ a b, adjacent two_strangers a b = true → adjacent one_edge a b = true) ∧
  (∀ a, appearances_of two_strangers a ⊆ appearances_of one_edge a) ∧
  (wf two_strangers → wf one_edge).
Proof.
  apply (mutations_only_add two_strangers one_edge).
  apply (mutates_add_edge two_strangers "actor1" "actor2"). vm_compute. reflexivity.
Defined.

Lemma add_edge_shortens_paths_doc_graph :
  ∃ p', shortest_path_bfs doc_graph_shortcut "actor1" "actor4" = Ret p' ∧ p' ≠ [] ∧
        length p' ≤ length ["actor1"; "actor2"; "actor4"].
Proof.
  apply (add_edge_shortens_paths doc_graph "actor1" "actor4" doc_graph_shortcut
           "actor1" "actor4").
  - apply (bool_decide_unpack _). vm_compute. exact I.
  - vm_compute. reflexivity.
  - vm_compute. reflexivity.
  - discriminate.
Defined.

Lemma filtered_search_widen_doc :
  ∃ p', shortest_path_bfs_filtered doc_actor_graph ("actor2", "actor4") "release date"
          (1960, 2000)%Q doc_movies = Ret p' ∧
        p' ≠ [] ∧ length p' ≤ length ["actor2"; "actor1"; "actor4"].
Proof.
  apply (filtered_search_widen doc_actor_graph "actor2" "actor4" "release date" year
           1980%Q 2000%Q 1960%Q 2000%Q doc_movies).
  - apply (bool_decide_unpack _). vm_compute. exact I.
  - reflexivity.
  - apply covered_doc_actor_graph.
  - vm_compute. discriminate.
  - vm_compute. discriminate.
  - vm_compute. reflexivity.
  - discriminate.
Defined.
